(** * Verification of [src/utils/lazy-loader.js]

    A shallow embedding of the lazy loader of the Markups editor: the two
    content detectors (regular expressions tested against the document text)
    and the promise-based module loader with its cache, its in-flight table
    and the idle-time preloader. *)

From Stdlib Require Import NArith Ascii String Lia.
From stdpp Require Import base list strings.

Set Warnings "-clear-no-such-hyp".

Open Scope string_scope.
Open Scope list_scope.

(** ** Document text

    A JavaScript string is a sequence of UTF-16 code units; the regular
    expressions of the source carry no [u] flag, so they see code units. *)

Definition text := list N.

Fixpoint units (s : string) : text :=
  match s with
  | EmptyString => []
  | String a s' => N_of_ascii a :: units s'
  end.

Definition nl : string := String "010"%char EmptyString.

(** ** Regular expressions as the source writes them *)

Module Regex.

(** The members of a bracketed class. *)
Inductive class_item :=
| CChar (c : N)        (* a literal character *)
| CSpace               (* \s *)
| CNonSpace.           (* \S *)

Inductive atom :=
| Chr (c : N)                                    (* a pattern character *)
| Class (negated : bool) (items : list class_item).   (* [...] and [^...] *)

Inductive regex :=
| Eps
| Atom (a : atom)
| Cat (r1 r2 : regex)
| Alt (r1 r2 : regex)
| Star (lazy : bool) (r : regex)      (* r* and r*? *)
| Plus (lazy : bool) (r : regex).     (* r+ and r+? *)

(** A quoted pattern fragment, character by character. *)
Fixpoint lit (s : string) (k : regex) : regex :=
  match s with
  | EmptyString => k
  | String a s' => Cat (Atom (Chr (N_of_ascii a))) (lit s' k)
  end.

(** WhiteSpace and LineTerminator code units, the meaning of \s. *)
Definition is_space (c : N) : bool :=
  ((9 <=? c) && (c <=? 13) || (c =? 32) || (c =? 160) || (c =? 5760)
   || ((8192 <=? c) && (c <=? 8202)) || (c =? 8232) || (c =? 8233)
   || (c =? 8239) || (c =? 8287) || (c =? 12288) || (c =? 65279))%N.

Section Matcher.
(** The simple upper-case mapping of a code unit outside ASCII (the code
    unit itself when its upper-case form is not a single code unit). *)
Variable unicode_upper : N -> N.

(** Canonicalize of the ECMAScript pattern semantics, for a pattern
    without the [u] flag. *)
Definition canonicalize (ignoreCase : bool) (c : N) : N :=
  if ignoreCase then
    if (c <? 128)%N then
      if ((97 <=? c) && (c <=? 122))%N then (c - 32)%N else c
    else
      let cu := unicode_upper c in
      if (cu <? 128)%N then c else cu
  else c.

Definition item_matches (i : bool) (it : class_item) (x : N) : bool :=
  match it with
  | CChar c => (canonicalize i c =? canonicalize i x)%N
  | CSpace => is_space x
  | CNonSpace => negb (is_space x)
  end.

Definition atom_matches (i : bool) (a : atom) (x : N) : bool :=
  match a with
  | Chr c => (canonicalize i c =? canonicalize i x)%N
  | Class negated items =>
      xorb negated (existsb (fun it => item_matches i it x) items)
  end.

(** The words a pattern matches. *)
Inductive matches (i : bool) : regex -> text -> Prop :=
| m_eps : matches i Eps []
| m_atom a x : atom_matches i a x = true -> matches i (Atom a) [x]
| m_cat r1 r2 s1 s2 :
    matches i r1 s1 -> matches i r2 s2 -> matches i (Cat r1 r2) (s1 ++ s2)
| m_alt_l r1 r2 s : matches i r1 s -> matches i (Alt r1 r2) s
| m_alt_r r1 r2 s : matches i r2 s -> matches i (Alt r1 r2) s
| m_star_nil l r : matches i (Star l r) []
| m_star_app l r s1 s2 :
    matches i r s1 -> matches i (Star l r) s2 -> matches i (Star l r) (s1 ++ s2)
| m_plus l r s1 s2 :
    matches i r s1 -> matches i (Star l r) s2 -> matches i (Plus l r) (s1 ++ s2).

(** An executable matcher by derivatives.  Whether a quantifier is lazy
    changes which match is found, never whether there is one. *)
Fixpoint nullable (r : regex) : bool :=
  match r with
  | Eps => true
  | Atom _ => false
  | Cat r1 r2 => nullable r1 && nullable r2
  | Alt r1 r2 => nullable r1 || nullable r2
  | Star _ _ => true
  | Plus _ r => nullable r
  end.

(** [None] is the pattern that matches nothing. *)
Definition cat' (o : option regex) (r2 : regex) : option regex :=
  match o with Some r1 => Some (Cat r1 r2) | None => None end.

Definition alt' (o1 o2 : option regex) : option regex :=
  match o1, o2 with
  | Some r1, Some r2 => Some (Alt r1 r2)
  | Some r1, None => Some r1
  | None, o => o
  end.

Fixpoint deriv (i : bool) (x : N) (r : regex) : option regex :=
  match r with
  | Eps => None
  | Atom a => if atom_matches i a x then Some Eps else None
  | Cat r1 r2 =>
      alt' (cat' (deriv i x r1) r2)
           (if nullable r1 then deriv i x r2 else None)
  | Alt r1 r2 => alt' (deriv i x r1) (deriv i x r2)
  | Star l r1 => cat' (deriv i x r1) (Star l r1)
  | Plus l r1 => cat' (deriv i x r1) (Star l r1)
  end.

(** Some prefix of [s] matches [r]. *)
Fixpoint match_here (i : bool) (r : regex) (s : text) : bool :=
  nullable r ||
  match s with
  | [] => false
  | x :: s' =>
      match deriv i x r with
      | Some r' => match_here i r' s'
      | None => false
      end
  end.

(** [RegExp.prototype.test] on a fresh pattern object ([lastIndex] 0):
    a match is tried at every start position. *)
Fixpoint test (i : bool) (r : regex) (s : text) : bool :=
  match_here i r s ||
  match s with
  | [] => false
  | _ :: s' => test i r s'
  end.
End Matcher.

End Regex.

Import Regex.

(** ** The content detectors *)

Section Detectors.
Variable unicode_upper : N -> N.

Definition any_char : atom := Class false [CSpace; CNonSpace].    (* [\s\S] *)
Definition no_dollar_nl : atom := Class true [CChar 36; CChar 10]. (* [^$\n] *)

(** /```mermaid[\s\S]*?```/i *)
Definition mermaid_pattern : regex :=
  lit "```mermaid" (Cat (Star true (Atom any_char)) (lit "```" Eps)).

(** /\$\$[\s\S]*?\$\$|\$[^$\n]+\$/g *)
Definition katex_pattern : regex :=
  Alt (lit "$$" (Cat (Star true (Atom any_char)) (lit "$$" Eps)))
      (lit "$" (Cat (Plus false (Atom no_dollar_nl)) (lit "$" Eps))).

Definition hasMermaidContent (markdown : text) : bool :=
  test unicode_upper true mermaid_pattern markdown.

(** The [g] flag is inert here: the pattern literal is evaluated, and its
    object created with [lastIndex] 0, on every call. *)
Definition hasKaTeXContent (markdown : text) : bool :=
  test unicode_upper false katex_pattern markdown.
End Detectors.

(** ** JavaScript [Map] with string keys

    A [Map] iterates its keys in insertion order; [set] on a present key keeps
    its position, [delete] removes the entry. *)

Section JsMap.
Context {V : Type}.

Fixpoint Map_get (k : string) (m : list (string * V)) : option V :=
  match m with
  | [] => None
  | (k', v) :: m' => if String.eqb k k' then Some v else Map_get k m'
  end.

Definition Map_has (k : string) (m : list (string * V)) : bool :=
  match Map_get k m with Some _ => true | None => false end.

Fixpoint Map_set (k : string) (v : V) (m : list (string * V)) : list (string * V) :=
  match m with
  | [] => [(k, v)]
  | (k', v') :: m' =>
      if String.eqb k k' then (k', v) :: m' else (k', v') :: Map_set k v m'
  end.

Fixpoint Map_delete (k : string) (m : list (string * V)) : list (string * V) :=
  match m with
  | [] => []
  | (k', v') :: m' =>
      if String.eqb k k' then Map_delete k m' else (k', v') :: Map_delete k m'
  end.

Definition Map_keys (m : list (string * V)) : list string := map fst m.
End JsMap.

(** ** Values, promises and jobs *)

Definition pid := nat.          (* a promise object, by identity *)
Definition module := nat.       (* a module namespace object, by identity *)

Inductive value :=
| Namespace (m : module)        (* what [import(...)] fulfils with *)
| DefaultExport (m : module)    (* its [.default] *)
| Undefined.

Inductive error :=
| ImportError (n : nat)         (* what [import(...)] rejects with *)
| LibraryError (n : nat)        (* what a call into a library throws *)
| TypeError.

Inductive outcome :=
| Fulfilled (v : value)
| Rejected (e : error).

(** The closures of the source that are passed to [then], [catch] and
    [await], each named after what it does. *)
Inductive on_value :=
| on_loaded (moduleName : string)   (* module => { ... } of lazyLoad *)
| after_mermaid                     (* loadMermaid after its await *)
| after_katex                       (* loadKaTeX after its await *)
| after_html2pdf                    (* loadHtml2Pdf after its await *)
| after_docx.                       (* loadDocx after its await *)

Inductive on_error :=
| on_failed (moduleName : string)   (* error => { ... } of lazyLoad *)
| swallow.                          (* () => { } of preloadInBackground *)

Record reaction := {
  on_fulfilled : option on_value;
  on_rejected : option on_error;
  target : pid                      (* the promise [then] returned *)
}.

Record promise := {
  settled : option outcome;         (* [None] while pending *)
  reactions : list reaction
}.

Inductive job :=
| ReactionJob (r : reaction) (o : outcome)
| ThenableJob (t : pid) (thenable : pid).   (* an async function returned a promise *)

(** What a [lazyLoad] call answered with. *)
Inductive answer :=
| FromCache (v : value)
| Joined (l : pid)
| Started (l : pid).

(** The effects of a run, oldest first.  [Invoked] and [Requested] also name
    the promises involved. *)
Inductive event :=
| Invoked (moduleName : string) (i t l : pid)      (* importFn() *)
| CacheSet (moduleName : string) (v : value)       (* moduleCache.set *)
| ConsoleError (moduleName : string) (e : error)   (* console.error *)
| Requested (moduleName : string) (r : pid) (a : answer)
| Initialize (m : module)                          (* mermaid.default.initialize *)
| AppendLink (href : string)                       (* document.head.appendChild *)
| InitializeThrew (m : module) (e : error).        (* the same call, which threw *)

Record idle_request := {
  idle_modules : list string;       (* the [modules] the callback closes over *)
  idle_timeout : N
}.

Record state := {
  moduleCache : list (string * value);
  loadingPromises : list (string * pid);
  heap : list promise;
  microtasks : list job;
  imports : list pid;               (* the promises of [import(...)] calls *)
  hasRequestIdleCallback : bool;    (* 'requestIdleCallback' in window *)
  idleCallbacks : list idle_request;
  initialized : list module;        (* default exports with isInitialized set *)
  links : list string;              (* href of the document's link elements *)
  trace : list event
}.

Definition set_moduleCache (f : list (string * value) -> list (string * value)) (s : state) : state :=
  {| moduleCache := f (moduleCache s); loadingPromises := loadingPromises s;
     heap := heap s; microtasks := microtasks s; imports := imports s;
     hasRequestIdleCallback := hasRequestIdleCallback s;
     idleCallbacks := idleCallbacks s; initialized := initialized s;
     links := links s; trace := trace s |}.

Definition set_loadingPromises (f : list (string * pid) -> list (string * pid)) (s : state) : state :=
  {| moduleCache := moduleCache s; loadingPromises := f (loadingPromises s);
     heap := heap s; microtasks := microtasks s; imports := imports s;
     hasRequestIdleCallback := hasRequestIdleCallback s;
     idleCallbacks := idleCallbacks s; initialized := initialized s;
     links := links s; trace := trace s |}.

Definition set_heap (f : list promise -> list promise) (s : state) : state :=
  {| moduleCache := moduleCache s; loadingPromises := loadingPromises s;
     heap := f (heap s); microtasks := microtasks s; imports := imports s;
     hasRequestIdleCallback := hasRequestIdleCallback s;
     idleCallbacks := idleCallbacks s; initialized := initialized s;
     links := links s; trace := trace s |}.

Definition set_microtasks (f : list job -> list job) (s : state) : state :=
  {| moduleCache := moduleCache s; loadingPromises := loadingPromises s;
     heap := heap s; microtasks := f (microtasks s); imports := imports s;
     hasRequestIdleCallback := hasRequestIdleCallback s;
     idleCallbacks := idleCallbacks s; initialized := initialized s;
     links := links s; trace := trace s |}.

Definition set_imports (f : list pid -> list pid) (s : state) : state :=
  {| moduleCache := moduleCache s; loadingPromises := loadingPromises s;
     heap := heap s; microtasks := microtasks s; imports := f (imports s);
     hasRequestIdleCallback := hasRequestIdleCallback s;
     idleCallbacks := idleCallbacks s; initialized := initialized s;
     links := links s; trace := trace s |}.

Definition set_idleCallbacks (f : list idle_request -> list idle_request) (s : state) : state :=
  {| moduleCache := moduleCache s; loadingPromises := loadingPromises s;
     heap := heap s; microtasks := microtasks s; imports := imports s;
     hasRequestIdleCallback := hasRequestIdleCallback s;
     idleCallbacks := f (idleCallbacks s); initialized := initialized s;
     links := links s; trace := trace s |}.

Definition set_initialized (f : list module -> list module) (s : state) : state :=
  {| moduleCache := moduleCache s; loadingPromises := loadingPromises s;
     heap := heap s; microtasks := microtasks s; imports := imports s;
     hasRequestIdleCallback := hasRequestIdleCallback s;
     idleCallbacks := idleCallbacks s; initialized := f (initialized s);
     links := links s; trace := trace s |}.

Definition set_links (f : list string -> list string) (s : state) : state :=
  {| moduleCache := moduleCache s; loadingPromises := loadingPromises s;
     heap := heap s; microtasks := microtasks s; imports := imports s;
     hasRequestIdleCallback := hasRequestIdleCallback s;
     idleCallbacks := idleCallbacks s; initialized := initialized s;
     links := f (links s); trace := trace s |}.

Definition set_trace (f : list event -> list event) (s : state) : state :=
  {| moduleCache := moduleCache s; loadingPromises := loadingPromises s;
     heap := heap s; microtasks := microtasks s; imports := imports s;
     hasRequestIdleCallback := hasRequestIdleCallback s;
     idleCallbacks := idleCallbacks s; initialized := initialized s;
     links := links s; trace := f (trace s) |}.

(** ** The state monad of a synchronous run of code *)

Definition M (A : Type) : Type := state -> A * state.

Definition ret {A} (a : A) : M A := fun s => (a, s).

Definition bind {A B} (m : M A) (f : A -> M B) : M B :=
  fun s => let (a, s') := m s in f a s'.

Definition get : M state := fun s => (s, s).

Definition modify (f : state -> state) : M unit := fun s => (tt, f s).

Notation "x <- m ;; k" := (bind m (fun x => k))
  (at level 100, m at next level, right associativity).
Notation "m ;;; k" := (bind m (fun _ => k))
  (at level 100, right associativity).

Definition log (e : event) : M unit := modify (set_trace (fun t => t ++ [e])).

(** ** Promise operations of the runtime *)

Definition new_promise (o : option outcome) : M pid :=
  fun s => (length (heap s),
            set_heap (fun h => h ++ [{| settled := o; reactions := [] |}]) s).

Definition enqueue (j : job) : M unit :=
  modify (set_microtasks (fun q => q ++ [j])).

(** PerformPromiseThen: a pending promise keeps the reaction, a settled one
    schedules it at once. *)
Definition subscribe (p : pid) (r : reaction) : M unit :=
  fun s =>
    match heap s !! p with
    | Some {| settled := None; reactions := rs |} =>
        (tt, set_heap (fun h => <[p := {| settled := None; reactions := rs ++ [r] |}]> h) s)
    | Some {| settled := Some o; reactions := _ |} => enqueue (ReactionJob r o) s
    | None => (tt, s)
    end.

(** [p.then(f, g)]; [p.catch(g)] is [p.then(undefined, g)]. *)
Definition then_ (p : pid) (f : option on_value) (g : option on_error) : M pid :=
  t <- new_promise None ;;
  subscribe p {| on_fulfilled := f; on_rejected := g; target := t |} ;;;
  ret t.

(** FulfillPromise and RejectPromise: only a pending promise changes. *)
Definition settle (p : pid) (o : outcome) : M unit :=
  fun s =>
    match heap s !! p with
    | Some {| settled := None; reactions := rs |} =>
        (tt, set_microtasks (fun q => q ++ ((fun r => ReactionJob r o) <$> rs))
               (set_heap (fun h => <[p := {| settled := Some o; reactions := [] |}]> h) s))
    | _ => (tt, s)
    end.

(** The promise an async function hands to its caller. *)
Definition async_return_value (v : value) : M pid :=
  new_promise (Some (Fulfilled v)).

Definition async_return_promise (p : pid) : M pid :=
  r <- new_promise None ;;
  enqueue (ThenableJob r p) ;;;
  ret r.

(** [import(specifier)]: a promise that the module loader settles later. *)
Definition import_ (specifier : string) : M pid :=
  i <- new_promise None ;;
  modify (set_imports (fun l => l ++ [i])) ;;;
  ret i.

(** ** lazy-loader.js *)

(** Generic lazy loader with caching.  [importFn] is, at each of its call
    sites, [() => import(specifier)]. *)
Definition lazyLoad (moduleName specifier : string) : M pid :=
  s <- get ;;
  match Map_get moduleName (moduleCache s) with
  | Some module =>
      (* return cached module if available *)
      r <- async_return_value module ;;
      log (Requested moduleName r (FromCache module)) ;;;
      ret r
  | None =>
      match Map_get moduleName (loadingPromises s) with
      | Some loading =>
          (* return existing promise if already loading *)
          r <- async_return_promise loading ;;
          log (Requested moduleName r (Joined loading)) ;;;
          ret r
      | None =>
          (* start loading *)
          i <- import_ specifier ;;
          t <- then_ i (Some (on_loaded moduleName)) None ;;
          loadPromise <- then_ t None (Some (on_failed moduleName)) ;;
          log (Invoked moduleName i t loadPromise) ;;;
          modify (set_loadingPromises (Map_set moduleName loadPromise)) ;;;
          r <- async_return_promise loadPromise ;;
          log (Requested moduleName r (Started loadPromise)) ;;;
          ret r
      end
  end.

Record mermaid_config := {
  startOnLoad : bool;
  theme : string;
  securityLevel : string;
  fontFamily : string;
  logLevel : string;
  flowchart_useMaxWidth : bool;
  flowchart_htmlLabels : bool
}.

Definition mermaid_settings : mermaid_config :=
  {| startOnLoad := false; theme := "default"; securityLevel := "loose";
     fontFamily := "inherit"; logLevel := "error";
     flowchart_useMaxWidth := true; flowchart_htmlLabels := true |}.

(** What the loaded library does when the code of a microtask reaches into
    it: the namespace may have no default export, and [initialize] may
    throw. *)
Inductive library_fault :=
| no_default_export
| initialize_throws (e : error).

(** [namespace.default] is an object, not [undefined]. *)
Definition has_default_export (x : option library_fault) : bool :=
  match x with
  | Some no_default_export => false
  | _ => true
  end.

(** [mermaid.default.initialize(config)]: the call returns normally
    ([None]) or throws. *)
Definition mermaid_initialize (x : option library_fault) (m : module)
    (config : mermaid_config) : M (option error) :=
  match x with
  | Some (initialize_throws e) => log (InitializeThrew m e) ;;; ret (Some e)
  | _ => log (Initialize m) ;;; ret None
  end.

Definition isInitialized (m : module) (s : state) : bool :=
  bool_decide (m ∈ initialized s).

Fixpoint includes (needle hay : string) : bool :=
  String.prefix needle hay ||
  match hay with
  | EmptyString => false
  | String _ hay' => includes needle hay'
  end.

(** [document.querySelector('link[href*="katex"]')] finds an element. *)
Definition has_katex_link (s : state) : bool :=
  existsb (includes "katex") (links s).

Definition katex_css : string :=
  "https://cdn.jsdelivr.net/npm/katex@0.16.9/dist/katex.min.css".

(** The fulfilment handlers.  A handler returns normally ([Fulfilled]) or
    throws ([Rejected]): reading [.default] of a value that is no namespace
    object throws, reading [.isInitialized] of a missing default export
    throws, and what [initialize] throws leaves the handler before the flag
    is set. *)
Definition call_value (x : option library_fault) (f : on_value) (v : value) : M outcome :=
  match f with
  | on_loaded moduleName =>
      modify (set_moduleCache (Map_set moduleName v)) ;;;
      log (CacheSet moduleName v) ;;;
      modify (set_loadingPromises (Map_delete moduleName)) ;;;
      ret (Fulfilled v)
  | after_mermaid =>
      match v with
      | Namespace m =>
          if has_default_export x then
            s <- get ;;
            if negb (isInitialized m s) then
              thrown <- mermaid_initialize x m mermaid_settings ;;
              match thrown with
              | Some e => ret (Rejected e)
              | None =>
                  modify (set_initialized (fun l => m :: l)) ;;;
                  ret (Fulfilled (DefaultExport m))
              end
            else ret (Fulfilled (DefaultExport m))
          else ret (Rejected TypeError)
      | _ => ret (Rejected TypeError)
      end
  | after_katex =>
      s <- get ;;
      (if negb (has_katex_link s) then
         log (AppendLink katex_css) ;;;
         modify (set_links (fun l => l ++ [katex_css]))
       else ret tt) ;;;
      match v with
      | Namespace m => ret (Fulfilled (DefaultExport m))
      | _ => ret (Rejected TypeError)
      end
  | after_html2pdf =>
      match v with
      | Namespace m => ret (Fulfilled (DefaultExport m))
      | _ => ret (Rejected TypeError)
      end
  | after_docx => ret (Fulfilled v)
  end.

(** The rejection handlers. *)
Definition call_error (g : on_error) (e : error) : M outcome :=
  match g with
  | on_failed moduleName =>
      modify (set_loadingPromises (Map_delete moduleName)) ;;;
      log (ConsoleError moduleName e) ;;;
      ret (Rejected e)                       (* throw error *)
  | swallow => ret (Fulfilled Undefined)
  end.

Definition loadMermaid : M pid :=
  mermaid <- lazyLoad "mermaid" "mermaid" ;;
  then_ mermaid (Some after_mermaid) None.

Definition loadKaTeX : M pid :=
  katex <- lazyLoad "katex" "katex" ;;
  then_ katex (Some after_katex) None.

Definition loadHtml2Pdf : M pid :=
  html2pdf <- lazyLoad "html2pdf" "html2pdf.js" ;;
  then_ html2pdf (Some after_html2pdf) None.

Definition loadDocx : M pid :=
  docx <- lazyLoad "docx" "docx" ;;
  then_ docx (Some after_docx) None.

(** The body of the idle callback: [modules.forEach(mod => { switch ... })]. *)
Fixpoint preload_each (modules : list string) : M unit :=
  match modules with
  | [] => ret tt
  | mod_ :: rest =>
      (if String.eqb mod_ "mermaid" then
         p <- loadMermaid ;; _ <- then_ p None (Some swallow) ;; ret tt
       else if String.eqb mod_ "katex" then
         p <- loadKaTeX ;; _ <- then_ p None (Some swallow) ;; ret tt
       else ret tt) ;;;
      preload_each rest
  end.

Definition preloadInBackground (modules : option (list string)) : M unit :=
  let modules := default ["mermaid"; "katex"] modules in
  s <- get ;;
  if hasRequestIdleCallback s then
    modify (set_idleCallbacks
              (fun l => l ++ [{| idle_modules := modules; idle_timeout := 5000 |}]))
  else ret tt.

Record loading_status := {
  loaded : list string;
  loading : list string
}.

Definition getLoadingStatus (s : state) : loading_status :=
  {| loaded := Map_keys (moduleCache s);
     loading := Map_keys (loadingPromises s) |}.

(** ** The event loop *)

(** NewPromiseReactionJob: the handler for the outcome runs, if there is one,
    and what it returns or throws settles the promise [then] returned;
    without a handler the outcome passes through. *)
Definition handle (x : option library_fault) (r : reaction) (o : outcome) : M outcome :=
  match o with
  | Fulfilled v =>
      match on_fulfilled r with
      | Some f => call_value x f v
      | None => ret o
      end
  | Rejected e =>
      match on_rejected r with
      | Some g => call_error g e
      | None => ret o
      end
  end.

(** One job of the microtask queue. *)
Definition run_job (x : option library_fault) (j : job) : M unit :=
  match j with
  | ReactionJob r o => o' <- handle x r o ;; settle (target r) o'
  | ThenableJob t p =>
      subscribe p {| on_fulfilled := None; on_rejected := None; target := t |}
  end.

(** What can happen next: a call of an exported function, the browser
    running a registered idle callback, the module loader settling an
    import, or the next microtask, in which the library behaves or
    shows a fault. *)
Inductive label :=
| CallLoadMermaid
| CallLoadKaTeX
| CallLoadHtml2Pdf
| CallLoadDocx
| CallPreloadInBackground (modules : option (list string))
| IdleCallback (n : nat)
| ImportFulfils (i : pid) (m : module)
| ImportRejects (i : pid) (e : error)
| Microtask
| MicrotaskFault (x : library_fault).

Definition host_settle (i : pid) (o : outcome) : M unit :=
  s <- get ;;
  if bool_decide (i ∈ imports s) then settle i o else ret tt.

(** The job at the head of the queue runs. *)
Definition run_microtask (x : option library_fault) (s : state) : state :=
  match microtasks s with
  | j :: q => (run_job x j (set_microtasks (fun _ => q) s)).2
  | [] => s
  end.

Arguments run_microtask x s /.

Definition step (l : label) (s : state) : state :=
  match l with
  | CallLoadMermaid => (loadMermaid s).2
  | CallLoadKaTeX => (loadKaTeX s).2
  | CallLoadHtml2Pdf => (loadHtml2Pdf s).2
  | CallLoadDocx => (loadDocx s).2
  | CallPreloadInBackground modules => (preloadInBackground modules s).2
  | IdleCallback n =>
      match idleCallbacks s !! n with
      | Some req =>
          (preload_each (idle_modules req)
             (set_idleCallbacks (fun l => take n l ++ drop (S n) l) s)).2
      | None => s
      end
  | ImportFulfils i m => (host_settle i (Fulfilled (Namespace m)) s).2
  | ImportRejects i e => (host_settle i (Rejected e) s).2
  | Microtask => run_microtask None s
  | MicrotaskFault x => run_microtask (Some x) s
  end.

Definition exec (ls : list label) (s : state) : state :=
  fold_left (fun s l => step l s) ls s.

(** The steps that run a job, as opposed to calls and the host's steps. *)
Definition is_microtask (l : label) : bool :=
  match l with Microtask | MicrotaskFault _ => true | _ => false end.

Definition fault_of (l : label) : option library_fault :=
  match l with MicrotaskFault x => Some x | _ => None end.

(** The page as the module is first evaluated. *)
Definition init (ric : bool) (page_links : list string) : state :=
  {| moduleCache := []; loadingPromises := []; heap := []; microtasks := [];
     imports := []; hasRequestIdleCallback := ric; idleCallbacks := [];
     initialized := []; links := page_links; trace := [] |}.

(** ** Reading a state *)

#[global] Instance value_eq_dec : EqDecision value.
Proof. solve_decision. Defined.

#[global] Instance error_eq_dec : EqDecision error.
Proof. solve_decision. Defined.

#[global] Instance outcome_eq_dec : EqDecision outcome.
Proof. solve_decision. Defined.

(** [Some None] for a pending promise, [Some (Some o)] for a settled one. *)
Definition status (s : state) (p : pid) : option (option outcome) :=
  settled <$> (heap s !! p).

(** Reaction [r] waits on promise [p]. *)
Definition reg (s : state) (p : pid) (r : reaction) : Prop :=
  exists pr, heap s !! p = Some pr /\ r ∈ reactions pr.

Definition queued (s : state) (j : job) : Prop := j ∈ microtasks s.

(** Reaction [r] is still to run: it waits on a promise or sits in a job. *)
Definition live (s : state) (r : reaction) : Prop :=
  (exists p, reg s p r) \/ (exists o, queued s (ReactionJob r o)).

Definition job_target (j : job) : pid :=
  match j with
  | ReactionJob r _ => target r
  | ThenableJob t _ => t
  end.

Definition heap_targets (h : list promise) : list pid :=
  h ≫= (fun p => target <$> reactions p).

(** The promises that some reaction or job is going to settle. *)
Definition targets (s : state) : list pid :=
  heap_targets (heap s) ++ (job_target <$> microtasks s).

Definition forward (r : pid) : reaction :=
  {| on_fulfilled := None; on_rejected := None; target := r |}.

Definition then_loaded (k : string) (t : pid) : reaction :=
  {| on_fulfilled := Some (on_loaded k); on_rejected := None; target := t |}.

Definition catch_failed (k : string) (l : pid) : reaction :=
  {| on_fulfilled := None; on_rejected := Some (on_failed k); target := l |}.

(** The state of one key, as the cache and the in-flight table show it. *)
Inductive key_state :=
| Unloaded
| Loading (l : pid) (fresh : bool)   (* [fresh]: invoked, its starter not yet answered *)
| Loaded (v : value).

Definition key_status (k : string) (s : state) : key_state :=
  match Map_get k (moduleCache s) with
  | Some v => Loaded v
  | None =>
      match Map_get k (loadingPromises s) with
      | Some l => Loading l false
      | None => Unloaded
      end
  end.

(** The same state machine, driven by the events of a run. *)
Definition key_step (k : string) (st : key_state) (e : event) : option key_state :=
  match e with
  | Invoked k' _ _ l =>
      if String.eqb k k' then
        match st with Unloaded => Some (Loading l true) | _ => None end
      else Some st
  | Requested k' _ a =>
      if String.eqb k k' then
        match st, a with
        | Loaded v, FromCache v' => if decide (v = v') then Some st else None
        | Loading l true, Started l' =>
            if decide (l = l') then Some (Loading l false) else None
        | Loading l false, Joined l' => if decide (l = l') then Some st else None
        | _, _ => None
        end
      else Some st
  | CacheSet k' v =>
      if String.eqb k k' then
        match st with Loading _ false => Some (Loaded v) | _ => None end
      else Some st
  | ConsoleError k' _ =>
      if String.eqb k k' then
        match st with Loading _ false => Some Unloaded | _ => None end
      else Some st
  | Initialize _ | AppendLink _ | InitializeThrew _ _ => Some st
  end.

Fixpoint key_run (k : string) (st : key_state) (evs : list event) : option key_state :=
  match evs with
  | [] => Some st
  | e :: evs' =>
      match key_step k st e with
      | Some st' => key_run k st' evs'
      | None => None
      end
  end.

(** Load promise [l] of key [k]: its catch handler is still to run, or it
    failed, or it succeeded and the cache holds its value. *)
Definition served (s : state) (k : string) (l : pid) : Prop :=
  (exists r, live s r /\ target r = l /\ on_rejected r = Some (on_failed k))
  \/ (exists e, status s l = Some (Some (Rejected e)))
  \/ (exists v, status s l = Some (Some (Fulfilled v))
                /\ Map_get k (moduleCache s) = Some v).

(** Promise [r] was resolved with promise [l]: it is on its way to, or has,
    the outcome of [l]. *)
Definition follows (s : state) (r l : pid) : Prop :=
  (status s r = Some None /\
     (queued s (ThenableJob r l)
      \/ reg s l (forward r)
      \/ exists o, status s l = Some (Some o) /\ queued s (ReactionJob (forward r) o)))
  \/ (exists o, status s r = Some (Some o) /\ status s l = Some (Some o)).

Definition request_ok (s : state) (k : string) (r : pid) (a : answer) : Prop :=
  match a with
  | FromCache v =>
      status s r = Some (Some (Fulfilled v)) /\ Map_get k (moduleCache s) = Some v
  | Joined l | Started l => served s k l /\ follows s r l
  end.

Definition is_initialize (e : event) : bool :=
  match e with Initialize _ => true | _ => false end.

Record Inv (s : state) : Prop := {
  (* the promise graph *)
  inv_nodup : NoDup (targets s);
  inv_pending : forall t, t ∈ targets s -> status s t = Some None;
  inv_imports : forall i, i ∈ imports s -> i < length (heap s) /\ i ∉ targets s;
  inv_thenable : forall t p, queued s (ThenableJob t p) -> p < length (heap s);
  (* the handlers of lazyLoad *)
  inv_then : forall r k, live s r -> on_fulfilled r = Some (on_loaded k) ->
    on_rejected r = None /\ exists l, reg s (target r) (catch_failed k l);
  inv_catch_reg : forall p r k, reg s p r -> on_rejected r = Some (on_failed k) ->
    on_fulfilled r = None /\ Map_get k (loadingPromises s) = Some (target r)
    /\ exists r', live s r' /\ target r' = p /\ on_fulfilled r' = Some (on_loaded k);
  inv_catch_job : forall r o k, queued s (ReactionJob r o) ->
    on_rejected r = Some (on_failed k) ->
    on_fulfilled r = None /\
    match o with
    | Rejected _ => Map_get k (loadingPromises s) = Some (target r)
    | Fulfilled v => Map_get k (moduleCache s) = Some v
    end;
  (* the two tables *)
  inv_exclusive : forall k v, Map_get k (moduleCache s) = Some v ->
    Map_get k (loadingPromises s) = None;
  inv_loading : forall k l, Map_get k (loadingPromises s) = Some l ->
    exists r, live s r /\ target r = l /\ on_rejected r = Some (on_failed k);
  inv_cache_keys : NoDup (Map_keys (moduleCache s));
  inv_loading_keys : NoDup (Map_keys (loadingPromises s));
  (* the history *)
  inv_history : forall k, key_run k Unloaded (trace s) = Some (key_status k s);
  inv_requests : forall k r a, Requested k r a ∈ trace s -> request_ok s k r a;
  (* mermaid *)
  inv_mermaid_reg : forall p r, reg s p r -> on_fulfilled r = Some after_mermaid ->
    exists a, Requested "mermaid" p a ∈ trace s;
  inv_mermaid_job : forall r v, queued s (ReactionJob r (Fulfilled v)) ->
    on_fulfilled r = Some after_mermaid ->
    Map_get "mermaid" (moduleCache s) = Some v;
  inv_initialized : forall m, m ∈ initialized s ->
    Map_get "mermaid" (moduleCache s) = Some (Namespace m);
  inv_initialized_nodup : NoDup (initialized s);
  inv_initialize_count :
    length (List.filter is_initialize (trace s)) = length (initialized s)
}.

(** ** Reading a history *)

(** The calls of [initialize]: those that returned are counted by
    [is_initialize], those that threw by [is_initialize_throw]. *)
Definition is_initialize_throw (e : event) : bool :=
  match e with InitializeThrew _ _ => true | _ => false end.

Definition is_initialize_call (e : event) : bool :=
  is_initialize e || is_initialize_throw e.

(** The keys requested, in order. *)
Fixpoint requested (evs : list event) : list string :=
  match evs with
  | [] => []
  | Requested k _ _ :: evs' => k :: requested evs'
  | _ :: evs' => requested evs'
  end.

Definition is_invoked (k : string) (e : event) : bool :=
  match e with Invoked k' _ _ _ => String.eqb k k' | _ => false end.

Definition is_cache_set (k : string) (e : event) : bool :=
  match e with CacheSet k' _ => String.eqb k k' | _ => false end.

Definition is_failure (k : string) (e : event) : bool :=
  match e with ConsoleError k' _ => String.eqb k k' | _ => false end.

(** The load of [k] settles: its then or its catch handler runs. *)
Definition is_settlement (k : string) (e : event) : bool :=
  is_cache_set k e || is_failure k e.

Definition is_request (k : string) (e : event) : bool :=
  match e with Requested k' _ _ => String.eqb k k' | _ => false end.

Definition about (k : string) (e : event) : bool :=
  is_invoked k e || is_settlement k e || is_request k e.

(** The factory invocations for [k], each with its load promise. *)
Fixpoint invocations (k : string) (evs : list event) : list pid :=
  match evs with
  | [] => []
  | Invoked k' _ _ l :: evs' =>
      if String.eqb k k' then l :: invocations k evs' else invocations k evs'
  | _ :: evs' => invocations k evs'
  end.

(** The lazyLoad calls for [k]: the promise each returned and its answer. *)
Fixpoint answers (k : string) (evs : list event) : list (pid * answer) :=
  match evs with
  | [] => []
  | Requested k' r a :: evs' =>
      if String.eqb k k' then (r, a) :: answers k evs' else answers k evs'
  | _ :: evs' => answers k evs'
  end.

Definition is_Loading (st : key_state) : bool :=
  match st with Loading _ _ => true | _ => false end.

Definition is_Loaded (st : key_state) : bool :=
  match st with Loaded _ => true | _ => false end.

(** The keys the idle callback has a case for. *)
Definition preloadable (m : string) : bool :=
  String.eqb m "mermaid" || String.eqb m "katex".

(** ** What a handler changes *)

(** Events that come with no change of a table or of the flag. *)
Definition quiet (e : event) : Prop :=
  match e with AppendLink _ | InitializeThrew _ _ => True | _ => False end.

(** The four ways a reaction job can treat the tables and the history. *)
Inductive handled (r : reaction) (o : outcome) (s0 s1 : state) (o' : outcome) : Prop :=
| handled_loaded k v :
    o = Fulfilled v -> on_fulfilled r = Some (on_loaded k) -> o' = o ->
    moduleCache s1 = Map_set k v (moduleCache s0) ->
    loadingPromises s1 = Map_delete k (loadingPromises s0) ->
    trace s1 = trace s0 ++ [CacheSet k v] ->
    initialized s1 = initialized s0 ->
    handled r o s0 s1 o'
| handled_failed k e :
    o = Rejected e -> on_rejected r = Some (on_failed k) -> o' = o ->
    moduleCache s1 = moduleCache s0 ->
    loadingPromises s1 = Map_delete k (loadingPromises s0) ->
    trace s1 = trace s0 ++ [ConsoleError k e] ->
    initialized s1 = initialized s0 ->
    handled r o s0 s1 o'
| handled_init m :
    o = Fulfilled (Namespace m) -> on_fulfilled r = Some after_mermaid ->
    m ∉ initialized s0 ->
    moduleCache s1 = moduleCache s0 ->
    loadingPromises s1 = loadingPromises s0 ->
    trace s1 = trace s0 ++ [Initialize m] ->
    initialized s1 = m :: initialized s0 ->
    handled r o s0 s1 o'
| handled_quiet evs :
    (forall k v, o = Fulfilled v -> on_fulfilled r <> Some (on_loaded k)) ->
    (forall k e, o = Rejected e -> on_rejected r <> Some (on_failed k)) ->
    (match o with
     | Fulfilled _ => on_fulfilled r = None
     | Rejected _ => on_rejected r = None
     end -> o' = o) ->
    moduleCache s1 = moduleCache s0 ->
    loadingPromises s1 = loadingPromises s0 ->
    trace s1 = trace s0 ++ evs -> Forall quiet evs ->
    initialized s1 = initialized s0 ->
    handled r o s0 s1 o'.

(** The continuations of the exported loaders. *)
Definition is_after (f : on_value) : Prop :=
  match f with on_loaded _ => False | _ => True end.

(** ** Settled promises and the queue *)

(** A settled promise has no reactions left. *)
Definition tidy_promise (pr : promise) : Prop :=
  settled pr <> None -> reactions pr = [].

Definition tidy (s : state) : Prop :=
  forall p pr, heap s !! p = Some pr -> tidy_promise pr.

(** From [s] to [s']: what is settled stays settled, with its outcome, and
    tidiness is kept. *)
Definition evolves (s s' : state) : Prop :=
  (forall p o, status s p = Some (Some o) -> status s' p = Some (Some o)) /\
  (tidy s -> tidy s').

(** The next [n] microtasks. *)
Definition drain (n : nat) : list label := repeat Microtask n.

(** ** Sample texts and runs *)

Definition diagram_fence : text := units ("```diagram" ++ nl ++ "A->B" ++ nl ++ "```")%string.
Definition mermaid_fence : text := units ("```mermaid" ++ nl ++ "A->B" ++ nl ++ "```")%string.
Definition two_prices : text := units "costs $5 and $10 total".


Definition load_succeeds : list label :=
  [CallLoadMermaid; ImportFulfils 0 7; Microtask; Microtask].

Definition load_fails : list label :=
  [CallLoadDocx; ImportRejects 0 (ImportError 1); Microtask; Microtask; Microtask].

Definition mixed_preload : list string := ["mermaid"; "html2pdf"; "katex"].

(** The import of mermaid has just been fulfilled. *)
Definition import_fulfilled : list label := [CallLoadMermaid; ImportFulfils 0 7].

(** loadMermaid twice; [initialize] throws when the first call resumes. *)
Definition initialize_throws_once : list label :=
  [CallLoadMermaid; ImportFulfils 0 7; Microtask; Microtask; Microtask; Microtask;
   MicrotaskFault (initialize_throws (LibraryError 1));
   CallLoadMermaid; Microtask].


(** ** Reading a text *)

(** ASCII upper-casing of a code unit. *)
Definition ascii_fold (c : N) : N :=
  if ((97 <=? c) && (c <=? 122))%N then (c - 32)%N else c.

Definition dollar : N := 36.
Definition newline : N := 10.

(** The number of dollar signs of a text. *)
Definition dollars (md : text) : nat := length (List.filter (N.eqb dollar) md).

(** ** The tables as a function of the history *)

Record tables := {
  t_cache : list (string * value);
  t_loading : list (string * pid);
  t_initialized : list module;
  t_links : list string
}.

Definition tables_of (s : state) : tables :=
  {| t_cache := moduleCache s; t_loading := loadingPromises s;
     t_initialized := initialized s; t_links := links s |}.

(** What the statement that logs an event does to the tables. *)
Definition apply_event (e : event) (T : tables) : tables :=
  match e with
  | Invoked k _ _ l =>
      {| t_cache := t_cache T; t_loading := Map_set k l (t_loading T);
         t_initialized := t_initialized T; t_links := t_links T |}
  | CacheSet k v =>
      {| t_cache := Map_set k v (t_cache T); t_loading := Map_delete k (t_loading T);
         t_initialized := t_initialized T; t_links := t_links T |}
  | ConsoleError k _ =>
      {| t_cache := t_cache T; t_loading := Map_delete k (t_loading T);
         t_initialized := t_initialized T; t_links := t_links T |}
  | Requested _ _ _ => T
  | Initialize m =>
      {| t_cache := t_cache T; t_loading := t_loading T;
         t_initialized := m :: t_initialized T; t_links := t_links T |}
  | AppendLink h =>
      {| t_cache := t_cache T; t_loading := t_loading T;
         t_initialized := t_initialized T; t_links := t_links T ++ [h] |}
  | InitializeThrew _ _ => T
  end.

Definition replay (evs : list event) (T : tables) : tables :=
  fold_left (fun T e => apply_event e T) evs T.

(** The test under which the code reaches the statement that logs the event. *)
Definition guard (e : event) (T : tables) : bool :=
  match e with
  | Invoked k _ _ _ => negb (Map_has k (t_cache T)) && negb (Map_has k (t_loading T))
  | Initialize m | InitializeThrew m _ => negb (bool_decide (m ∈ t_initialized T))
  | AppendLink h =>
      String.eqb h katex_css && negb (existsb (includes "katex") (t_links T))
  | _ => true
  end.

Fixpoint guarded (evs : list event) (T : tables) : bool :=
  match evs with
  | [] => true
  | e :: evs' => guard e T && guarded evs' (apply_event e T)
  end.

(** Events logged by a call of lazyLoad; the others are logged by handlers. *)
Definition is_call_event (e : event) : bool :=
  match e with Invoked _ _ _ _ | Requested _ _ _ => true | _ => false end.

(** From [s] to [s'] the events [evs] were logged, each under its guard, and
    the tables changed as the events say. *)
Definition delta (s s' : state) (evs : list event) : Prop :=
  trace s' = trace s ++ evs /\
  tables_of s' = replay evs (tables_of s) /\
  guarded evs (tables_of s) = true /\
  hasRequestIdleCallback s' = hasRequestIdleCallback s.

(** The keys whose load succeeded, in that order. *)
Fixpoint loaded_order (evs : list event) : list string :=
  match evs with
  | [] => []
  | CacheSet k _ :: evs' => k :: loaded_order evs'
  | _ :: evs' => loaded_order evs'
  end.

(** The keys whose load is pending, in the order the loads started. *)
Definition loading_step (ks : list string) (e : event) : list string :=
  match e with
  | Invoked k _ _ _ => ks ++ [k]
  | CacheSet k _ | ConsoleError k _ => List.filter (fun k' => negb (String.eqb k k')) ks
  | _ => ks
  end.

Definition loading_order (evs : list event) : list string :=
  fold_left loading_step evs [].

(** The moves of one key in one step. *)
Inductive key_move : key_state -> key_state -> Prop :=
| move_none st : key_move st st
| move_start l : key_move Unloaded (Loading l false)
| move_done l v : key_move (Loading l false) (Loaded v)
| move_fail l : key_move (Loading l false) Unloaded.

(** ** How the promise heap grows *)

(** A settled promise stays as it is; a pending one keeps its reactions
    while it is pending. *)
Definition promise_le (pr pr' : promise) : Prop :=
  match settled pr with
  | Some _ => pr' = pr
  | None => settled pr' = None -> forall x, x ∈ reactions pr -> x ∈ reactions pr'
  end.

Definition grows (s s' : state) : Prop :=
  (forall p pr, heap s !! p = Some pr ->
     exists pr', heap s' !! p = Some pr' /\ promise_le pr pr') /\
  (forall i, i ∈ imports s -> i ∈ imports s').

(** The promises of one factory invocation: the import [i] carries the
    then handler of lazyLoad, whose promise [t] carries the catch handler,
    whose promise is the load promise [l]. *)
Definition chained (s : state) (k : string) (i t l : pid) : Prop :=
  i ∈ imports s /\
  (status s i = Some None -> reg s i (then_loaded k t)) /\
  (status s t = Some None -> reg s t (catch_failed k l)).

Definition Chain (s : state) : Prop :=
  forall k i t l, Invoked k i t l ∈ trace s ->
    i < length (heap s) /\ t < length (heap s) /\ chained s k i t l.

Definition advances (s s' : state) : Prop :=
  grows s s' /\ (Chain s -> Chain s').

(** A state with the three invariants of the reachable states. *)
Definition Sound (s : state) : Prop := Inv s /\ tidy s /\ Chain s.

(** ** The stages of a load *)

(** Where the promises [i], [t], [l] of one factory invocation for [k]
    stand: the load promise exists; an import that has settled has its
    outcome on the way to the then handler, whose promise, once settled, has
    its outcome on the way to the catch handler; each promise settles with
    the outcome of the one before; and a value the then handler has
    fulfilled [t] with is the cache entry. *)
Definition staged (s : state) (k : string) (i t l : pid) : Prop :=
  (exists x, status s l = Some x) /\
  (forall o, status s i = Some (Some o) -> status s t = Some None ->
     queued s (ReactionJob (then_loaded k t) o)) /\
  (forall o, status s t = Some (Some o) -> status s l = Some None ->
     queued s (ReactionJob (catch_failed k l) o)) /\
  (forall o, status s t = Some (Some o) -> status s i = Some (Some o)) /\
  (forall o, status s l = Some (Some o) -> status s t = Some (Some o)) /\
  (forall v, status s t = Some (Some (Fulfilled v)) ->
     Map_get k (moduleCache s) = Some v).

(** Every invocation of the history is staged, and every cache write was
    made by the then handler of an invocation. *)
Definition Staged (s : state) : Prop :=
  (forall k i t l, Invoked k i t l ∈ trace s -> staged s k i t l) /\
  (forall k v, CacheSet k v ∈ trace s ->
     exists i t l, Invoked k i t l ∈ trace s /\
                   status s t = Some (Some (Fulfilled v))).

(** What a call may log: an invocation whose promises are pending, and no
    cache write. *)
Definition fresh_event (s' : state) (e : event) : Prop :=
  match e with
  | Invoked _ i t l =>
      status s' i = Some None /\ status s' t = Some None /\ status s' l = Some None
  | CacheSet _ _ => False
  | _ => True
  end.

(** From [s] to [s'] no promise of [s] changed its status, no reaction job
    left the queue and the cache is the same. *)
Definition extends (s s' : state) : Prop :=
  (forall p x, status s p = Some x -> status s' p = Some x) /\
  (forall r o, queued s (ReactionJob r o) -> queued s' (ReactionJob r o)) /\
  moduleCache s' = moduleCache s /\
  exists evs, trace s' = trace s ++ evs /\ forall e, e ∈ evs -> fresh_event s' e.

(** ** The continuation of loadMermaid *)

(** The code of loadMermaid after its await is the next job, for module [m]
    and the promise [p] of the call.  What the job makes of [p] and of the
    flag, by what the library does: it behaves; the module has no default
    export; [initialize] throws [e], if it is called. *)
Definition loadMermaid_continues (m : module) (p : pid) (sh : state) : Prop :=
  (let s' := step Microtask sh in
   status s' p = Some (Some (Fulfilled (DefaultExport m))) /\
   isInitialized m s' = true) /\
  (let s' := step (MicrotaskFault no_default_export) sh in
   status s' p = Some (Some (Rejected TypeError)) /\
   initialized s' = initialized sh /\ trace s' = trace sh) /\
  (forall e,
     let s' := step (MicrotaskFault (initialize_throws e)) sh in
     isInitialized m s' = isInitialized m sh /\
     if isInitialized m sh
     then status s' p = Some (Some (Fulfilled (DefaultExport m))) /\ trace s' = trace sh
     else status s' p = Some (Some (Rejected e)) /\
          trace s' = trace sh ++ [InitializeThrew m e]).

(** * Properties *)

(** ** The matcher decides the patterns *)

Section MatcherFacts.
Variable up : N -> N.
Variable i : bool.

Local Abbreviation matches := (Regex.matches up i).
Local Abbreviation deriv := (Regex.deriv up i).
Local Abbreviation match_here := (Regex.match_here up i).
Local Abbreviation test := (Regex.test up i).

Lemma matches_nil_nullable r : matches r [] -> nullable r = true.
Proof.
  intros H. remember [] as w eqn:Hw. revert Hw.
  induction H as [|a y Ha|r1 r2 s1 s2 H1 IH1 H2 IH2|r1 r2 w H IH|r1 r2 w H IH
                 |l r|l r s1 s2 H1 IH1 H2 IH2|l r s1 s2 H1 IH1 H2 IH2];
    intros Hw; simpl; try discriminate; auto.
  - apply app_eq_nil in Hw as [-> ->]. rewrite IH1, IH2; auto.
  - rewrite IH; auto.
  - rewrite IH; auto. apply orb_true_r.
  - apply app_eq_nil in Hw as [-> ->]. auto.
Qed.

Lemma nullable_matches_nil r : nullable r = true -> matches r [].
Proof.
  induction r as [|a|r1 IH1 r2 IH2|r1 IH1 r2 IH2|l r IH|l r IH]; simpl; intros H.
  - constructor.
  - discriminate.
  - apply andb_true_iff in H as [H1 H2].
    change (@nil N) with (@nil N ++ []). constructor; auto.
  - apply orb_true_iff in H as [H|H]; [apply m_alt_l|apply m_alt_r]; auto.
  - constructor.
  - change (@nil N) with (@nil N ++ []). constructor; auto. constructor.
Qed.

Lemma alt'_l o1 o2 r1 s :
  o1 = Some r1 -> matches r1 s -> exists r', alt' o1 o2 = Some r' /\ matches r' s.
Proof.
  intros -> H. destruct o2 as [r2|]; simpl; eexists; split; eauto.
  apply m_alt_l; auto.
Qed.

Lemma alt'_r o1 o2 r2 s :
  o2 = Some r2 -> matches r2 s -> exists r', alt' o1 o2 = Some r' /\ matches r' s.
Proof.
  intros -> H. destruct o1 as [r1|]; simpl; eexists; split; eauto.
  apply m_alt_r; auto.
Qed.

Lemma alt'_inv o1 o2 r' s :
  alt' o1 o2 = Some r' -> matches r' s ->
  (exists r1, o1 = Some r1 /\ matches r1 s) \/ (exists r2, o2 = Some r2 /\ matches r2 s).
Proof.
  destruct o1 as [r1|], o2 as [r2|]; simpl; intros E H; inversion E; subst; eauto.
  inversion H; subst; eauto.
Qed.

Lemma deriv_complete r x s :
  matches r (x :: s) -> exists r', deriv x r = Some r' /\ matches r' s.
Proof.
  intros H. remember (x :: s) as w eqn:Hw. revert x s Hw.
  induction H as [|a y Ha|r1 r2 s1 s2 H1 IH1 H2 IH2|r1 r2 w H IH|r1 r2 w H IH
                 |l r|l r s1 s2 H1 IH1 H2 IH2|l r s1 s2 H1 IH1 H2 IH2];
    intros x s Hw; simpl.
  - discriminate.
  - inversion Hw; subst. rewrite Ha. eexists; split; eauto. constructor.
  - destruct s1 as [|y s1'].
    + simpl in Hw. subst s2. destruct (IH2 _ _ eq_refl) as (r' & E & Hr').
      rewrite (matches_nil_nullable _ H1). eapply alt'_r; eauto.
    + inversion Hw; subst. destruct (IH1 _ _ eq_refl) as (r' & E & Hr').
      eapply alt'_l; [rewrite E; reflexivity|]. constructor; auto.
  - destruct (IH _ _ Hw) as (r' & E & Hr'). eapply alt'_l; eauto.
  - destruct (IH _ _ Hw) as (r' & E & Hr'). eapply alt'_r; eauto.
  - discriminate.
  - destruct s1 as [|y s1'].
    + simpl in Hw. apply (IH2 _ _ Hw).
    + inversion Hw; subst. destruct (IH1 _ _ eq_refl) as (r' & E & Hr').
      rewrite E. simpl. eexists; split; eauto. constructor; auto.
  - destruct s1 as [|y s1'].
    + simpl in Hw. apply (IH2 _ _ Hw).
    + inversion Hw; subst. destruct (IH1 _ _ eq_refl) as (r' & E & Hr').
      rewrite E. simpl. eexists; split; eauto. constructor; auto.
Qed.

Lemma cat'_inv o r2 r' s :
  cat' o r2 = Some r' -> matches r' s ->
  exists r1 s1 s2, o = Some r1 /\ s = s1 ++ s2 /\ matches r1 s1 /\ matches r2 s2.
Proof.
  destruct o as [r1|]; simpl; intros E H; inversion E; subst.
  inversion H; subst. eauto 10.
Qed.

Lemma deriv_sound r : forall x r' s,
  deriv x r = Some r' -> matches r' s -> matches r (x :: s).
Proof.
  induction r as [|a|r1 IH1 r2 IH2|r1 IH1 r2 IH2|l r IH|l r IH];
    simpl; intros x r' s E H.
  - discriminate.
  - destruct (atom_matches up i a x) eqn:Ha; inversion E; subst.
    inversion H; subst. constructor; auto.
  - destruct (alt'_inv _ _ _ _ E H) as [(q & Eq & Hq)|(q & Eq & Hq)].
    + destruct (cat'_inv _ _ _ _ Eq Hq) as (q1 & s1 & s2 & E1 & -> & Hq1 & Hq2).
      change (x :: s1 ++ s2) with ((x :: s1) ++ s2). constructor; eauto.
    + destruct (nullable r1) eqn:Hn; [|discriminate].
      change (x :: s) with ([] ++ x :: s). constructor; eauto.
      apply nullable_matches_nil; auto.
  - destruct (alt'_inv _ _ _ _ E H) as [(q & Eq & Hq)|(q & Eq & Hq)].
    + apply m_alt_l; eauto.
    + apply m_alt_r; eauto.
  - destruct (cat'_inv _ _ _ _ E H) as (q1 & s1 & s2 & E1 & -> & Hq1 & Hq2).
    change (x :: s1 ++ s2) with ((x :: s1) ++ s2). constructor; eauto.
  - destruct (cat'_inv _ _ _ _ E H) as (q1 & s1 & s2 & E1 & -> & Hq1 & Hq2).
    change (x :: s1 ++ s2) with ((x :: s1) ++ s2). constructor; eauto.
Qed.

(** [match_here] finds exactly the words with a matching prefix. *)
Lemma match_here_spec s : forall r,
  match_here r s = true <-> exists p q, s = p ++ q /\ matches r p.
Proof.
  induction s as [|x s IH]; intros r; simpl.
  - rewrite orb_false_r. split.
    + intros H. exists [], []. split; auto. apply nullable_matches_nil; auto.
    + intros (p & q & E & H). symmetry in E. apply app_eq_nil in E as [-> ->].
      apply matches_nil_nullable; auto.
  - split.
    + intros H. apply orb_true_iff in H as [H|H].
      * exists [], (x :: s). split; auto. apply nullable_matches_nil; auto.
      * destruct (deriv x r) as [r'|] eqn:E; [|discriminate].
        apply IH in H as (p & q & -> & H).
        exists (x :: p), q. split; auto. eapply deriv_sound; eauto.
    + intros (p & q & E & H). destruct p as [|y p].
      * rewrite (matches_nil_nullable _ H). reflexivity.
      * inversion E; subst. apply deriv_complete in H as (r' & -> & H).
        apply orb_true_iff. right. apply IH. eauto.
Qed.

(** [test] finds exactly the texts with a matching substring. *)
Lemma test_spec r s :
  test r s = true <-> exists a p b, s = a ++ p ++ b /\ matches r p.
Proof.
  induction s as [|x s IH]; cbn [Regex.test].
  - rewrite orb_false_r, match_here_spec. split.
    + intros (p & q & E & H). exists [], p, q. auto.
    + intros (a & p & b & E & H). symmetry in E.
      apply app_eq_nil in E as [-> E]. apply app_eq_nil in E as [-> ->].
      exists [], []. auto.
  - rewrite orb_true_iff, match_here_spec, IH. split.
    + intros [(p & q & E & H)|(a & p & b & E & H)].
      * exists [], p, q. auto.
      * exists (x :: a), p, b. rewrite E. auto.
    + intros (a & p & b & E & H). destruct a as [|y a].
      * left. exists p, b. auto.
      * right. inversion E; subst. exists a, p, b. auto.
Qed.
End MatcherFacts.

(** ** The detectors on concrete and on arbitrary texts *)

Lemma star_atom_all up i l a s :
  Forall (fun c => atom_matches up i a c = true) s ->
  Regex.matches up i (Star l (Atom a)) s.
Proof.
  induction 1 as [|c s Hc _ IH].
  - constructor.
  - change (c :: s) with ([c] ++ s). constructor; auto. constructor; auto.
Qed.

Lemma any_char_all up i c : atom_matches up i any_char c = true.
Proof. simpl. destruct (is_space c); reflexivity. Qed.

(** A fence tagged mermaid, in any letter case, is detected wherever it
    stands. *)
Lemma mermaid_fence_detected up pre body post :
  hasMermaidContent up
    (pre ++ units "```MerMaid" ++ body ++ units "```" ++ post) = true.
Proof.
  apply test_spec. exists pre, (units "```MerMaid" ++ body ++ units "```"), post.
  split; [by rewrite <- !app_assoc|].
  unfold mermaid_pattern. simpl.
  repeat (match goal with
          | |- Regex.matches _ _ (Cat (Atom _) _) (?c :: ?s) =>
              change (c :: s) with ([c] ++ s); constructor;
              [constructor; reflexivity|]
          end).
  constructor.
  - apply star_atom_all. apply Forall_forall. intros c _. apply any_char_all.
  - repeat (match goal with
          | |- Regex.matches _ _ (Cat (Atom _) _) (?c :: ?s) =>
              change (c :: s) with ([c] ++ s); constructor;
              [constructor; reflexivity|]
          end).
    constructor.
Qed.

(** C6 (as the code has it): the diagram detector looks for a fence tagged
    mermaid; on the fence tagged diagram it answers false, on the same block
    tagged mermaid it answers true. *)
Theorem C6_detector_wants_mermaid_tag : forall up,
  hasMermaidContent up diagram_fence = false /\
  hasMermaidContent up mermaid_fence = true.
Proof. intros up. split; vm_compute; reflexivity. Qed.

(** C6 (as stated) fails: whatever the case table of the runtime, the
    detector does not answer true on the fence tagged diagram. *)
Lemma C6_diagram_fence_not_detected :
  ~ exists up, hasMermaidContent up diagram_fence = true.
Proof. intros [up H]. vm_compute in H. discriminate. Qed.

(** C10: a dollar sign, then one or more characters that are neither a
    dollar sign nor a newline, then another dollar sign: the math detector
    answers true, wherever in the text this stands. *)
Theorem C10_dollar_pair_detected : forall up (pre mid post : text),
  mid <> [] ->
  Forall (fun c => c <> 36%N /\ c <> 10%N) mid ->
  hasKaTeXContent up (pre ++ [36%N] ++ mid ++ [36%N] ++ post) = true.
Proof.
  intros up pre mid post Hne Hmid.
  apply test_spec. exists pre, ([36%N] ++ mid ++ [36%N]), post.
  split; [by rewrite <- !app_assoc|].
  unfold katex_pattern. apply m_alt_r. simpl.
  change (36%N :: mid ++ [36%N]) with ([36%N] ++ mid ++ [36%N] ++ []).
  constructor; [constructor; reflexivity|].
  constructor.
  - destruct mid as [|c mid]; [done|].
    inversion Hmid as [|? ? [Hc1 Hc2] Hrest]; subst.
    assert (Hok : forall d, d <> 36%N /\ d <> 10%N ->
                     atom_matches up false no_dollar_nl d = true).
    { intros d [Hd1 Hd2].
      unfold atom_matches, no_dollar_nl, existsb, item_matches, canonicalize.
      rewrite (proj2 (N.eqb_neq 36 d)), (proj2 (N.eqb_neq 10 d)) by congruence.
      reflexivity. }
    change (c :: mid) with ([c] ++ mid). constructor.
    + constructor. apply Hok; auto.
    + apply star_atom_all. eapply Forall_impl; eauto.
  - constructor; [constructor; reflexivity|constructor].
Qed.

Lemma C10_two_prices_witness :
  units "5 and " <> [] /\
  Forall (fun c => c <> 36%N /\ c <> 10%N) (units "5 and ") /\
  hasKaTeXContent (fun c => c) two_prices = true.
Proof.
  assert (H1 : units "5 and " <> []) by discriminate.
  assert (H2 : Forall (fun c => c <> 36%N /\ c <> 10%N) (units "5 and ")).
  { repeat constructor; discriminate. }
  split; [exact H1|]. split; [exact H2|].
  exact (C10_dollar_pair_detected (fun c => c) (units "costs ") (units "5 and ")
           (units "10 total") H1 H2).
Defined.

(** ** Facts about [Map] *)

Section MapFacts.
Context {V : Type}.
Implicit Types (m : list (string * V)) (k : string) (v : V).

Lemma Map_get_set_eq k v m : Map_get k (Map_set k v m) = Some v.
Proof.
  induction m as [|[k' v'] m IH]; simpl.
  - by rewrite String.eqb_refl.
  - destruct (String.eqb_spec k k') as [->|Hne]; simpl.
    + by rewrite String.eqb_refl.
    + destruct (String.eqb_spec k k'); [done|auto].
Qed.

Lemma Map_get_set_ne k k' v m : k <> k' -> Map_get k' (Map_set k v m) = Map_get k' m.
Proof.
  intros Hne. induction m as [|[k1 v1] m IH]; simpl.
  - destruct (String.eqb_spec k' k); [congruence|done].
  - destruct (String.eqb_spec k k1) as [->|Hne1]; simpl.
    + destruct (String.eqb_spec k' k1); [congruence|done].
    + destruct (String.eqb_spec k' k1); auto.
Qed.

Lemma Map_get_delete_eq k m : Map_get k (Map_delete k m) = None.
Proof.
  induction m as [|[k1 v1] m IH]; simpl; [done|].
  destruct (String.eqb_spec k k1) as [->|Hne]; simpl; [done|].
  destruct (String.eqb_spec k k1); [done|auto].
Qed.

Lemma Map_get_delete_ne k k' m : k <> k' -> Map_get k' (Map_delete k m) = Map_get k' m.
Proof.
  intros Hne. induction m as [|[k1 v1] m IH]; simpl; [done|].
  destruct (String.eqb_spec k k1) as [->|Hne1]; simpl.
  - destruct (String.eqb_spec k' k1); [congruence|auto].
  - destruct (String.eqb_spec k' k1); auto.
Qed.

Lemma Map_keys_get k m : k ∈ Map_keys m <-> Map_get k m <> None.
Proof.
  unfold Map_keys. induction m as [|[k1 v1] m IH]; simpl.
  - split; [intros H; inversion H|done].
  - rewrite elem_of_cons, IH. destruct (String.eqb_spec k k1) as [->|Hne].
    + split; [done|auto].
    + split; [intros [?|?]; done|auto].
Qed.

Lemma Map_keys_delete k k' m : k' ∈ Map_keys (Map_delete k m) -> k' ∈ Map_keys m.
Proof.
  rewrite !Map_keys_get. destruct (decide (k = k')) as [->|Hne].
  - by rewrite Map_get_delete_eq.
  - by rewrite Map_get_delete_ne.
Qed.

Lemma Map_keys_delete_nodup k m : NoDup (Map_keys m) -> NoDup (Map_keys (Map_delete k m)).
Proof.
  unfold Map_keys. induction m as [|[k1 v1] m IH]; simpl; [done|].
  intros Hnd. apply NoDup_cons in Hnd as [Hnin Hnd].
  destruct (String.eqb_spec k k1); simpl; [auto|].
  apply NoDup_cons. split; [|auto].
  intros Hin. apply Hnin. by apply (Map_keys_delete k).
Qed.

Lemma Map_keys_set_absent k v m :
  Map_get k m = None -> Map_keys (Map_set k v m) = Map_keys m ++ [k].
Proof.
  unfold Map_keys. induction m as [|[k1 v1] m IH]; simpl; [done|].
  destruct (String.eqb_spec k k1); [done|]. intros H. simpl. by rewrite IH.
Qed.

Lemma Map_keys_set_present k v m :
  Map_get k m <> None -> Map_keys (Map_set k v m) = Map_keys m.
Proof.
  unfold Map_keys. induction m as [|[k1 v1] m IH]; simpl; [done|].
  destruct (String.eqb_spec k k1); [done|]. intros H. simpl. by rewrite IH.
Qed.

Lemma Map_keys_set_nodup k v m : NoDup (Map_keys m) -> NoDup (Map_keys (Map_set k v m)).
Proof.
  intros Hnd. destruct (Map_get k m) eqn:E.
  - rewrite Map_keys_set_present; [done|congruence].
  - rewrite Map_keys_set_absent by done.
    apply NoDup_app. split; [done|]. split; [|apply NoDup_singleton].
    intros x Hx Hx'. apply list_elem_of_singleton in Hx' as ->.
    apply Map_keys_get in Hx. done.
Qed.
End MapFacts.


(** ** The promise graph under the operations of the runtime *)

Lemma status_Some_lt s p x : status s p = Some x -> p < length (heap s).
Proof.
  unfold status. destruct (heap s !! p) eqn:E; [|done].
  intros _. by eapply lookup_lt_Some.
Qed.

Lemma status_pending s p :
  status s p = Some None <->
  exists rs, heap s !! p = Some {| settled := None; reactions := rs |}.
Proof.
  unfold status. split.
  - destruct (heap s !! p) as [[st rs]|]; simpl; [|done].
    intros [= ->]. eauto.
  - intros [rs ->]. done.
Qed.

Lemma heap_targets_app h1 h2 :
  heap_targets (h1 ++ h2) = heap_targets h1 ++ heap_targets h2.
Proof. unfold heap_targets. apply bind_app. Qed.

Lemma heap_targets_cons p h :
  heap_targets (p :: h) = (target <$> reactions p) ++ heap_targets h.
Proof. done. Qed.

Lemma heap_targets_insert h p pr :
  h !! p = Some pr ->
  exists A B, heap_targets h = A ++ (target <$> reactions pr) ++ B /\
    forall pr', heap_targets (<[p := pr']> h) = A ++ (target <$> reactions pr') ++ B.
Proof.
  intros Hp. exists (heap_targets (take p h)), (heap_targets (drop (S p) h)).
  split.
  - rewrite <- (take_drop_middle h p pr Hp) at 1.
    by rewrite heap_targets_app, heap_targets_cons.
  - intros pr'. rewrite insert_take_drop by (by eapply lookup_lt_Some).
    by rewrite heap_targets_app, heap_targets_cons.
Qed.

Lemma elem_of_heap_targets t h :
  t ∈ heap_targets h <->
  exists p pr r, h !! p = Some pr /\ r ∈ reactions pr /\ target r = t.
Proof.
  unfold heap_targets. rewrite list_elem_of_bind. split.
  - intros (pr & Ht & Hpr). apply list_elem_of_fmap in Ht as (r & -> & Hr).
    apply list_elem_of_lookup in Hpr as [p Hp]. eauto 6.
  - intros (p & pr & r & Hp & Hr & <-). exists pr. split.
    + apply list_elem_of_fmap. eauto.
    + eapply list_elem_of_lookup_2; eauto.
Qed.

Lemma elem_of_targets t s :
  t ∈ targets s <->
  (exists p r, reg s p r /\ target r = t) \/ (exists j, queued s j /\ job_target j = t).
Proof.
  unfold targets, reg, queued. rewrite elem_of_app, elem_of_heap_targets, list_elem_of_fmap.
  split; intros [H|H].
  - left. destruct H as (p & pr & r & ? & ? & ?). eauto 6.
  - right. destruct H as (j & ? & ?). eauto.
  - left. destruct H as (p & r & (pr & ? & ?) & ?). eauto 6.
  - right. destruct H as (j & ? & ?). eauto.
Qed.

Lemma live_target s r : live s r -> target r ∈ targets s.
Proof.
  intros [[p Hp]|[o Ho]]; apply elem_of_targets.
  - left. eauto.
  - right. exists (ReactionJob r o). eauto.
Qed.

(** With targets all distinct, a reaction is found by its target alone. *)
Lemma heap_targets_inj h p1 p2 pr1 pr2 r1 r2 :
  NoDup (heap_targets h) ->
  h !! p1 = Some pr1 -> h !! p2 = Some pr2 ->
  r1 ∈ reactions pr1 -> r2 ∈ reactions pr2 ->
  target r1 = target r2 -> p1 = p2.
Proof.
  revert p1 p2. induction h as [|pr h IH]; intros p1 p2 Hnd H1 H2 Hr1 Hr2 Ht; [done|].
  rewrite heap_targets_cons in Hnd. apply NoDup_app in Hnd as (Hnd1 & Hdisj & Hnd2).
  destruct p1 as [|p1], p2 as [|p2]; simpl in H1, H2.
  - done.
  - exfalso. injection H1 as ->. eapply (Hdisj (target r1)).
    + apply list_elem_of_fmap. eauto.
    + rewrite Ht. apply elem_of_heap_targets. eauto 6.
  - exfalso. injection H2 as ->. eapply (Hdisj (target r2)).
    + apply list_elem_of_fmap. eauto.
    + rewrite <- Ht. apply elem_of_heap_targets. eauto 6.
  - f_equal. eapply IH; eauto.
Qed.

Lemma reg_inj s p1 p2 r1 r2 :
  NoDup (targets s) -> reg s p1 r1 -> reg s p2 r2 -> target r1 = target r2 -> p1 = p2.
Proof.
  unfold targets. intros Hnd (pr1 & H1 & Hr1) (pr2 & H2 & Hr2) Ht.
  apply NoDup_app in Hnd as (Hnd & _ & _). eapply heap_targets_inj; eauto.
Qed.

Lemma reg_queued_apart s p r j :
  NoDup (targets s) -> reg s p r -> queued s j -> target r <> job_target j.
Proof.
  unfold targets. intros Hnd (pr & H1 & Hr1) Hj Ht.
  apply NoDup_app in Hnd as (_ & Hdisj & _). eapply (Hdisj (target r)).
  - apply elem_of_heap_targets. eauto 6.
  - rewrite Ht. apply list_elem_of_fmap. eauto.
Qed.

Lemma head_job_unique s j q x :
  NoDup (targets s) -> microtasks s = j :: q -> x ∈ q -> job_target x <> job_target j.
Proof.
  unfold targets. intros Hnd Hq Hx Ht. rewrite Hq in Hnd.
  apply NoDup_app in Hnd as (_ & _ & Hnd). rewrite fmap_cons in Hnd.
  apply NoDup_cons in Hnd as [Hnin _]. apply Hnin. rewrite <- Ht.
  apply list_elem_of_fmap. eauto.
Qed.

Lemma queued_inj s j1 j2 :
  NoDup (targets s) -> queued s j1 -> queued s j2 ->
  job_target j1 = job_target j2 -> j1 = j2.
Proof.
  unfold targets, queued. intros Hnd H1 H2 Ht.
  apply NoDup_app in Hnd as (_ & _ & Hnd).
  apply list_elem_of_lookup in H1 as [i1 H1]. apply list_elem_of_lookup in H2 as [i2 H2].
  assert (i1 = i2).
  { eapply NoDup_lookup; [exact Hnd| |].
    - rewrite list_lookup_fmap, H1. done.
    - rewrite list_lookup_fmap, H2. simpl. by rewrite Ht. }
  congruence.
Qed.

(** ** What [settle] and [subscribe] change *)

Lemma settle_pending s t o rs :
  heap s !! t = Some {| settled := None; reactions := rs |} ->
  (settle t o s).2 =
    set_microtasks (fun q => q ++ ((fun r => ReactionJob r o) <$> rs))
      (set_heap (fun h => <[t := {| settled := Some o; reactions := [] |}]> h) s).
Proof. intros H. unfold settle. by rewrite H. Qed.

Lemma settle_not_pending s t o :
  status s t <> Some None -> (settle t o s).2 = s.
Proof.
  unfold settle, status. destruct (heap s !! t) as [[[o1|] rs]|]; simpl; done.
Qed.

Section SettleFacts.
Variables (s : state) (t : pid) (o : outcome) (rs : list reaction).
Hypothesis Ht : heap s !! t = Some {| settled := None; reactions := rs |}.

Let s' := (settle t o s).2.

Lemma settle_heap :
  heap s' = <[t := {| settled := Some o; reactions := [] |}]> (heap s).
Proof. unfold s'. by rewrite (settle_pending _ _ _ _ Ht). Qed.

Lemma settle_microtasks :
  microtasks s' = microtasks s ++ ((fun r => ReactionJob r o) <$> rs).
Proof. unfold s'. by rewrite (settle_pending _ _ _ _ Ht). Qed.

Lemma settle_status p :
  status s' p = if decide (p = t) then Some (Some o) else status s p.
Proof.
  unfold status. rewrite settle_heap. destruct (decide (p = t)) as [->|Hne].
  - rewrite list_lookup_insert_eq; [done|]. by eapply lookup_lt_Some.
  - by rewrite list_lookup_insert_ne.
Qed.

Lemma settle_reg p r : reg s' p r <-> reg s p r /\ p <> t.
Proof.
  unfold reg. rewrite settle_heap. destruct (decide (p = t)) as [->|Hne].
  - rewrite list_lookup_insert_eq by (by eapply lookup_lt_Some). split.
    + intros (pr & [= <-] & Hr). simpl in Hr. inversion Hr.
    + intros [_ ?]. done.
  - rewrite list_lookup_insert_ne by done. naive_solver.
Qed.

Lemma settle_queued j :
  queued s' j <-> queued s j \/ exists r, reg s t r /\ j = ReactionJob r o.
Proof.
  unfold queued. rewrite settle_microtasks, elem_of_app, list_elem_of_fmap.
  unfold reg. rewrite Ht. split; intros [H|H]; auto.
  - right. destruct H as (r & -> & Hr). exists r. split; [|done]. eauto.
  - right. destruct H as (r & (pr & [= <-] & Hr) & ->). eauto.
Qed.

Lemma settle_targets : targets s' ≡ₚ targets s.
Proof.
  unfold targets. rewrite settle_heap, settle_microtasks.
  destruct (heap_targets_insert _ _ _ Ht) as (A & B & -> & Hins).
  rewrite Hins. simpl. rewrite fmap_app, <- list_fmap_compose.
  rewrite <- !app_assoc.
  apply Permutation_app_head.
  change (job_target ∘ (λ r : reaction, ReactionJob r o)) with target.
  rewrite (Permutation_app_comm (target <$> rs)).
  by rewrite <- !app_assoc.
Qed.
End SettleFacts.

Lemma subscribe_pending s p r rs :
  heap s !! p = Some {| settled := None; reactions := rs |} ->
  (subscribe p r s).2 =
    set_heap (fun h => <[p := {| settled := None; reactions := rs ++ [r] |}]> h) s.
Proof. intros H. unfold subscribe. by rewrite H. Qed.

Lemma subscribe_settled s p r o rs :
  heap s !! p = Some {| settled := Some o; reactions := rs |} ->
  (subscribe p r s).2 = set_microtasks (fun q => q ++ [ReactionJob r o]) s.
Proof. intros H. unfold subscribe. by rewrite H. Qed.

Section SubscribeFacts.
Variables (s : state) (p : pid) (r : reaction) (rs : list reaction).
Hypothesis Hp : heap s !! p = Some {| settled := None; reactions := rs |}.

Let s' := (subscribe p r s).2.

Lemma subscribe_heap :
  heap s' = <[p := {| settled := None; reactions := rs ++ [r] |}]> (heap s).
Proof. unfold s'. by rewrite (subscribe_pending _ _ _ _ Hp). Qed.

Lemma subscribe_status p' : status s' p' = status s p'.
Proof.
  unfold status. rewrite subscribe_heap. destruct (decide (p' = p)) as [->|Hne].
  - rewrite list_lookup_insert_eq by (by eapply lookup_lt_Some). by rewrite Hp.
  - by rewrite list_lookup_insert_ne.
Qed.

Lemma subscribe_reg p' r' : reg s' p' r' <-> reg s p' r' \/ (p' = p /\ r' = r).
Proof.
  unfold reg. rewrite subscribe_heap. destruct (decide (p' = p)) as [->|Hne].
  - rewrite list_lookup_insert_eq by (by eapply lookup_lt_Some). rewrite Hp. split.
    + intros (pr & [= <-] & Hr). simpl in Hr.
      apply elem_of_app in Hr as [Hr|Hr]; [left; eauto|].
      apply list_elem_of_singleton in Hr. auto.
    + intros [(pr & [= <-] & Hr)|[_ ->]]; eexists; (split; [done|]); simpl;
        apply elem_of_app; [left|right]; [done|]. by apply list_elem_of_singleton.
  - rewrite list_lookup_insert_ne by done. naive_solver.
Qed.

Lemma subscribe_targets : targets s' ≡ₚ target r :: targets s.
Proof.
  unfold targets. rewrite subscribe_heap.
  replace (microtasks s') with (microtasks s)
    by (unfold s'; by rewrite (subscribe_pending _ _ _ _ Hp)).
  destruct (heap_targets_insert _ _ _ Hp) as (A & B & -> & Hins).
  rewrite Hins. simpl. rewrite fmap_app. simpl.
  rewrite <- !app_assoc. simpl.
  rewrite (Permutation_middle A). apply Permutation_app_head.
  rewrite (Permutation_middle (target <$> rs)). done.
Qed.
End SubscribeFacts.

(** ** What a handler changes *)

Lemma handle_frame x r o s :
  heap (handle x r o s).2 = heap s /\
  microtasks (handle x r o s).2 = microtasks s /\
  imports (handle x r o s).2 = imports s.
Proof.
  destruct o as [v|e]; simpl.
  - destruct (on_fulfilled r) as [[k| | | |]|]; simpl; auto.
    + destruct v as [m| |]; simpl; auto.
      destruct x as [[|e]|]; simpl; auto;
        unfold bind, get; simpl; destruct (isInitialized m s); simpl; auto.
    + unfold bind, get. simpl. destruct (has_katex_link s), v; simpl; auto.
    + destruct v; simpl; auto.
  - destruct (on_rejected r) as [[k|]|]; simpl; auto.
Qed.

Lemma handle_handled x r o s :
  handled r o s (handle x r o s).2 (handle x r o s).1.
Proof.
  destruct o as [v|e]; simpl.
  - destruct (on_fulfilled r) as [[k| | | |]|] eqn:Ef; simpl.
    + eapply handled_loaded; eauto.
    + destruct v as [m| |]; simpl.
      * destruct x as [[|e]|]; simpl.
        -- apply (handled_quiet _ _ _ _ _ []); simpl; try done; try congruence.
           by rewrite app_nil_r.
        -- unfold bind, get, isInitialized. simpl.
           destruct (bool_decide_reflect (m ∈ initialized s)); simpl.
           ++ apply (handled_quiet _ _ _ _ _ []); simpl; try done; try congruence.
              by rewrite app_nil_r.
           ++ apply (handled_quiet _ _ _ _ _ [InitializeThrew m e]); simpl;
                try done; try congruence. by repeat constructor.
        -- unfold bind, get, isInitialized. simpl.
           destruct (bool_decide_reflect (m ∈ initialized s)); simpl.
           ++ apply (handled_quiet _ _ _ _ _ []); simpl; try done; try congruence.
              by rewrite app_nil_r.
           ++ eapply handled_init; eauto.
      * apply (handled_quiet _ _ _ _ _ []); simpl; try done; try congruence.
        by rewrite app_nil_r.
      * apply (handled_quiet _ _ _ _ _ []); simpl; try done; try congruence.
        by rewrite app_nil_r.
    + unfold bind, get. simpl. destruct (has_katex_link s); simpl.
      * destruct v; simpl; apply (handled_quiet _ _ _ _ _ []); simpl;
          try done; try congruence; by rewrite app_nil_r.
      * destruct v; simpl;
          apply (handled_quiet _ _ _ _ _ [AppendLink katex_css]); simpl;
            try done; try congruence; by repeat constructor.
    + destruct v; simpl; apply (handled_quiet _ _ _ _ _ []); simpl;
        try done; try congruence; by rewrite app_nil_r.
    + apply (handled_quiet _ _ _ _ _ []); simpl; try done; try congruence.
      by rewrite app_nil_r.
    + apply (handled_quiet _ _ _ _ _ []); simpl; try done; try congruence.
      by rewrite app_nil_r.
  - destruct (on_rejected r) as [[k|]|] eqn:Eg; simpl.
    + eapply handled_failed; eauto.
    + apply (handled_quiet _ _ _ _ _ []); simpl; try done; try congruence.
      by rewrite app_nil_r.
    + apply (handled_quiet _ _ _ _ _ []); simpl; try done; try congruence.
      by rewrite app_nil_r.
Qed.

(** ** Facts about the history *)

Lemma key_run_app k st a b :
  key_run k st (a ++ b) =
  match key_run k st a with Some st' => key_run k st' b | None => None end.
Proof.
  revert st. induction a as [|e a IH]; intros st; simpl; [done|].
  destruct (key_step k st e); auto.
Qed.

Lemma key_run_quiet k st evs : Forall quiet evs -> key_run k st evs = Some st.
Proof.
  induction 1 as [|e evs He _ IH]; simpl; [done|].
  destruct e; simpl in He; done.
Qed.

Lemma filter_initialize_quiet evs :
  Forall quiet evs -> List.filter is_initialize evs = [].
Proof.
  induction 1 as [|e evs He _ IH]; simpl; [done|].
  destruct e; simpl in He; done.
Qed.

Lemma key_status_eq k s s' :
  Map_get k (moduleCache s') = Map_get k (moduleCache s) ->
  Map_get k (loadingPromises s') = Map_get k (loadingPromises s) ->
  key_status k s' = key_status k s.
Proof. unfold key_status. by intros -> ->. Qed.

(** ** A reaction job preserves the invariant *)

Section ReactionStep.
Variables (lf : option library_fault) (s : state) (r : reaction) (o : outcome)
  (q : list job).
Hypothesis HInv : Inv s.
Hypothesis Hq : microtasks s = ReactionJob r o :: q.

Let t := target r.
Let s0 := set_microtasks (fun _ => q) s.
Let s1 := (handle lf r o s0).2.
Let o' := (handle lf r o s0).1.
Let s' := (settle t o' s1).2.

Lemma step_reaction : run_microtask lf s = s'.
Proof.
  unfold run_microtask. rewrite Hq. unfold run_job, bind.
  unfold s', s1, o', s0, t. by destruct (handle lf r o _).
Qed.

Lemma rs_head_queued : queued s (ReactionJob r o).
Proof. unfold queued. rewrite Hq. apply list_elem_of_here. Qed.

Lemma rs_head_live : live s r.
Proof. right. exists o. apply rs_head_queued. Qed.

Lemma rs_target_pending : exists rs, heap s !! t = Some {| settled := None; reactions := rs |}.
Proof.
  apply status_pending. apply (inv_pending _ HInv).
  apply elem_of_targets. right. exists (ReactionJob r o). split; [apply rs_head_queued|done].
Qed.

Lemma rs_heap1 : heap s1 = heap s.
Proof. unfold s1. by destruct (handle_frame lf r o s0) as (-> & _ & _). Qed.

Lemma rs_queue1 : microtasks s1 = q.
Proof. unfold s1. by destruct (handle_frame lf r o s0) as (_ & -> & _). Qed.

Lemma rs_imports1 : imports s1 = imports s.
Proof. unfold s1. by destruct (handle_frame lf r o s0) as (_ & _ & ->). Qed.

Lemma rs_handled : handled r o s s1 o'.
Proof.
  pose proof (handle_handled lf r o s0) as H. fold s1 o' in H.
  destruct H; [eapply handled_loaded|eapply handled_failed
              |eapply handled_init|eapply handled_quiet]; eauto.
Qed.

Lemma rs_status p :
  status s' p = if decide (p = t) then Some (Some o') else status s p.
Proof.
  destruct rs_target_pending as [rs Hrs]. rewrite <- rs_heap1 in Hrs.
  unfold s'. rewrite (settle_status _ _ _ _ Hrs).
  unfold status. by rewrite rs_heap1.
Qed.

Lemma rs_reg p x : reg s' p x <-> reg s p x /\ p <> t.
Proof.
  destruct rs_target_pending as [rs Hrs]. rewrite <- rs_heap1 in Hrs.
  unfold s'. rewrite (settle_reg _ _ _ _ Hrs).
  unfold reg. by rewrite rs_heap1.
Qed.

Lemma rs_queued x :
  queued s' x <-> x ∈ q \/ exists r1, reg s t r1 /\ x = ReactionJob r1 o'.
Proof.
  destruct rs_target_pending as [rs Hrs]. rewrite <- rs_heap1 in Hrs.
  unfold s'. rewrite (settle_queued _ _ _ _ Hrs).
  unfold queued, reg. by rewrite rs_heap1, rs_queue1.
Qed.

Lemma rs_targets : targets s ≡ₚ t :: targets s'.
Proof.
  destruct rs_target_pending as [rs Hrs]. rewrite <- rs_heap1 in Hrs.
  unfold s'. rewrite (settle_targets _ _ _ _ Hrs).
  unfold targets. rewrite rs_heap1, rs_queue1, Hq. simpl.
  by rewrite <- Permutation_middle.
Qed.

Lemma rs_heap_length : length (heap s') = length (heap s).
Proof.
  destruct rs_target_pending as [rs Hrs]. rewrite <- rs_heap1 in Hrs.
  unfold s'. rewrite (settle_heap _ _ _ _ Hrs), length_insert. by rewrite rs_heap1.
Qed.

Lemma rs_nodup : NoDup (targets s') /\ t ∉ targets s'.
Proof.
  pose proof (inv_nodup _ HInv) as Hnd. rewrite rs_targets in Hnd.
  apply NoDup_cons in Hnd. tauto.
Qed.

Lemma rs_targets_sub x : x ∈ targets s' -> x ∈ targets s /\ x <> t.
Proof.
  intros Hx. split.
  - rewrite rs_targets. by apply elem_of_cons; right.
  - intros ->. by apply rs_nodup.
Qed.

Lemma rs_queue_sub x : x ∈ q -> queued s x /\ job_target x <> t.
Proof.
  intros Hx. split.
  - unfold queued. rewrite Hq. by apply elem_of_cons; right.
  - eapply (head_job_unique s _ q x (inv_nodup _ HInv) Hq Hx).
Qed.

Lemma rs_reg_apart p x : reg s p x -> target x <> t.
Proof. intros Hx. apply (reg_queued_apart _ _ _ _ (inv_nodup _ HInv) Hx rs_head_queued). Qed.

Lemma rs_live_back x : live s' x -> live s x /\ target x <> t.
Proof.
  intros Hx. split.
  - destruct Hx as [[p Hp]|[o1 Ho1]].
    + left. exists p. by apply rs_reg in Hp as [? _].
    + apply rs_queued in Ho1 as [Hin|(r1 & Hr1 & [= -> ->])].
      * right. exists o1. by apply rs_queue_sub.
      * left. eauto.
  - apply live_target in Hx. by apply rs_targets_sub in Hx as [_ ?].
Qed.

Lemma rs_live_keep x : live s x -> target x <> t -> live s' x.
Proof.
  intros [[p Hp]|[o1 Ho1]] Hne.
  - destruct (decide (p = t)) as [->|Hpt].
    + right. exists o'. apply rs_queued. right. eauto.
    + left. exists p. by apply rs_reg.
  - right. exists o1. apply rs_queued. left.
    unfold queued in Ho1. rewrite Hq in Ho1.
    apply elem_of_cons in Ho1 as [[= -> ->]|?]; [done|done].
Qed.

Lemma rs_live_head x : live s x -> target x = t -> x = r.
Proof.
  intros [[p Hp]|[o1 Ho1]] Heq.
  - by apply rs_reg_apart in Hp.
  - pose proof (queued_inj _ _ _ (inv_nodup _ HInv) Ho1 rs_head_queued Heq) as [= -> ->]. done.
Qed.

Lemma rs_loading_of_then k :
  on_fulfilled r = Some (on_loaded k) ->
  on_rejected r = None /\
  exists l, reg s t (catch_failed k l) /\ Map_get k (loadingPromises s) = Some l.
Proof.
  intros Hf. destruct (inv_then _ HInv r k rs_head_live Hf) as (Hg & l & Hl).
  split; [done|]. exists l. split; [done|].
  by destruct (inv_catch_reg _ HInv _ _ k Hl eq_refl) as (_ & ? & _).
Qed.

(** A cache entry survives the job. *)
Lemma rs_cache_kept k v :
  Map_get k (moduleCache s) = Some v -> Map_get k (moduleCache s') = Some v.
Proof.
  intros Hc.
  assert (Hs' : moduleCache s' = moduleCache s1).
  { unfold s'. destruct (status s1 t) as [[?|]|] eqn:E.
    - rewrite settle_not_pending; [done|congruence].
    - apply status_pending in E as [rs E]. by rewrite (settle_pending _ _ _ _ E).
    - rewrite settle_not_pending; [done|congruence]. }
  rewrite Hs'.
  destruct rs_handled as [k0 v0 Ho Hf _ Hc1 _ _ _|k0 e0 _ _ _ Hc1 _ _ _
                         |m _ _ _ Hc1 _ _ _|evs _ _ _ Hc1 _ _ _ _]; rewrite Hc1; auto.
  destruct (decide (k0 = k)) as [->|Hne]; [|by rewrite Map_get_set_ne].
  destruct (rs_loading_of_then _ Hf) as (_ & l & _ & Hl).
  by rewrite (inv_exclusive _ HInv _ _ Hc) in Hl.
Qed.

Lemma rs_tables :
  moduleCache s' = moduleCache s1 /\ loadingPromises s' = loadingPromises s1 /\
  trace s' = trace s1 /\ initialized s' = initialized s1 /\ imports s' = imports s.
Proof.
  destruct rs_target_pending as [rs Hrs]. rewrite <- rs_heap1 in Hrs.
  unfold s'. rewrite (settle_pending _ _ _ _ Hrs). simpl.
  by rewrite rs_imports1.
Qed.

Lemma rs_inv_graph :
  NoDup (targets s') /\
  (forall x, x ∈ targets s' -> status s' x = Some None) /\
  (forall i, i ∈ imports s' -> i < length (heap s') /\ i ∉ targets s') /\
  (forall a b, queued s' (ThenableJob a b) -> b < length (heap s')).
Proof.
  split; [apply rs_nodup|]. split; [|split].
  - intros x Hx. apply rs_targets_sub in Hx as [Hx Hne].
    rewrite rs_status. destruct (decide (x = t)); [done|].
    by apply (inv_pending _ HInv).
  - intros i Hi. destruct rs_tables as (_ & _ & _ & _ & Himp). rewrite Himp in Hi.
    destruct (inv_imports _ HInv i Hi) as [Hlt Hnin].
    rewrite rs_heap_length. split; [done|].
    intros Hx. by apply rs_targets_sub in Hx as [? _].
  - intros a b Hab. rewrite rs_heap_length.
    apply rs_queued in Hab as [Hin|(r1 & _ & [=])].
    apply rs_queue_sub in Hin as [Hin _]. by apply (inv_thenable _ HInv a b).
Qed.

Lemma rs_inv_then x k :
  live s' x -> on_fulfilled x = Some (on_loaded k) ->
  on_rejected x = None /\ exists l, reg s' (target x) (catch_failed k l).
Proof.
  intros Hx Hf. apply rs_live_back in Hx as [Hx Hne].
  destruct (inv_then _ HInv x k Hx Hf) as (Hg & l & Hl).
  split; [done|]. exists l. by apply rs_reg.
Qed.

Lemma rs_loading_kept k l :
  Map_get k (loadingPromises s) = Some l -> l <> t ->
  (forall l', reg s t (catch_failed k l') -> l' <> l) ->
  Map_get k (loadingPromises s') = Some l.
Proof.
  intros Hl Hne Hreg. destruct rs_tables as (_ & -> & _).
  destruct rs_handled as [k0 v0 Ho Hf _ _ Hl1 _ _|k0 e0 Ho Hg _ _ Hl1 _ _
                         |m _ _ _ _ Hl1 _ _|evs _ _ _ _ Hl1 _ _ _]; rewrite Hl1; auto.
  - destruct (decide (k0 = k)) as [->|Hk]; [|by rewrite Map_get_delete_ne].
    destruct (rs_loading_of_then _ Hf) as (_ & l0 & Hl0 & Hl0').
    exfalso. apply (Hreg l0 Hl0). congruence.
  - destruct (decide (k0 = k)) as [->|Hk]; [|by rewrite Map_get_delete_ne].
    destruct (inv_catch_job _ HInv r o k rs_head_queued Hg) as [_ Hlt].
    rewrite Ho in Hlt. exfalso. apply Hne. fold t in Hlt. congruence.
Qed.

Lemma rs_inv_catch_reg p x k :
  reg s' p x -> on_rejected x = Some (on_failed k) ->
  on_fulfilled x = None /\ Map_get k (loadingPromises s') = Some (target x)
  /\ exists r', live s' r' /\ target r' = p /\ on_fulfilled r' = Some (on_loaded k).
Proof.
  intros Hx Hg. apply rs_reg in Hx as [Hx Hpt].
  destruct (inv_catch_reg _ HInv p x k Hx Hg) as (Hf & Hl & r' & Hr' & Htr' & Hfr').
  split; [done|]. split.
  - apply rs_loading_kept; [done|by eapply rs_reg_apart|].
    intros l' Hl' ->. apply Hpt.
    by apply (reg_inj s p t x (catch_failed k (target x)) (inv_nodup _ HInv)).
  - exists r'. split; [|done]. apply rs_live_keep; [done|congruence].
Qed.

Lemma rs_inv_catch_job x o1 k :
  queued s' (ReactionJob x o1) -> on_rejected x = Some (on_failed k) ->
  on_fulfilled x = None /\
  match o1 with
  | Rejected _ => Map_get k (loadingPromises s') = Some (target x)
  | Fulfilled v => Map_get k (moduleCache s') = Some v
  end.
Proof.
  intros Hx Hg. apply rs_queued in Hx as [Hin|(r1 & Hr1 & [= -> ->])].
  - apply rs_queue_sub in Hin as [Hin Hne]. simpl in Hne.
    destruct (inv_catch_job _ HInv x o1 k Hin Hg) as [Hf Ho1].
    split; [done|]. destruct o1 as [v1|e1].
    + by apply rs_cache_kept.
    + apply rs_loading_kept; [done|done|].
      intros l' Hl' ->.
      by apply (reg_queued_apart _ _ _ _ (inv_nodup _ HInv) Hl' Hin).
  - destruct (inv_catch_reg _ HInv t r1 k Hr1 Hg) as (Hf & Hl & r' & Hr' & Htr' & Hfr').
    split; [done|].
    apply rs_live_head in Hr'; [|done]. subst r'.
    destruct (rs_loading_of_then _ Hfr') as (Hgr & _).
    destruct rs_tables as (Hc & Hlo & _).
    destruct rs_handled as [k0 v0 Ho Hf0 -> Hc1 Hl1 _ _|k0 e0 Ho Hg0 _ _ _ _ _
                           |m _ Hf0 _ _ _ _ _|evs Hnl _ Ho' Hc1 Hl1 _ _ _].
    + rewrite Ho, Hc, Hc1. rewrite Hfr' in Hf0. injection Hf0 as <-.
      apply Map_get_set_eq.
    + congruence.
    + congruence.
    + destruct o as [v|e]; [by destruct (Hnl k v eq_refl)|].
      rewrite (Ho' Hgr). rewrite Hlo, Hl1. done.
Qed.

Lemma rs_inv_tables :
  (forall k v, Map_get k (moduleCache s') = Some v ->
               Map_get k (loadingPromises s') = None) /\
  NoDup (Map_keys (moduleCache s')) /\ NoDup (Map_keys (loadingPromises s')).
Proof.
  destruct rs_tables as (-> & -> & _).
  pose proof (inv_exclusive _ HInv) as Hex.
  pose proof (inv_cache_keys _ HInv) as Hck.
  pose proof (inv_loading_keys _ HInv) as Hlk.
  destruct rs_handled as [k0 v0 _ _ _ -> -> _ _|k0 e0 _ _ _ -> -> _ _
                         |m _ _ _ -> -> _ _|evs _ _ _ -> -> _ _ _].
  - split; [|split]; [|by apply Map_keys_set_nodup|by apply Map_keys_delete_nodup].
    intros k v. destruct (decide (k0 = k)) as [->|Hk].
    + intros _. apply Map_get_delete_eq.
    + rewrite Map_get_set_ne, Map_get_delete_ne by done. apply Hex.
  - split; [|split]; [|done|by apply Map_keys_delete_nodup].
    intros k v. destruct (decide (k0 = k)) as [->|Hk].
    + intros _. apply Map_get_delete_eq.
    + rewrite Map_get_delete_ne by done. apply Hex.
  - done.
  - done.
Qed.

Lemma rs_inv_loading k l :
  Map_get k (loadingPromises s') = Some l ->
  exists x, live s' x /\ target x = l /\ on_rejected x = Some (on_failed k).
Proof.
  intros Hl'.
  assert (Hl : Map_get k (loadingPromises s) = Some l).
  { destruct rs_tables as (_ & Hlo & _). rewrite Hlo in Hl'.
    destruct rs_handled as [k0 v0 _ _ _ _ Hl1 _ _|k0 e0 _ _ _ _ Hl1 _ _
                           |m _ _ _ _ Hl1 _ _|evs _ _ _ _ Hl1 _ _ _];
      rewrite Hl1 in Hl'; auto.
    - destruct (decide (k0 = k)) as [->|Hk];
        [by rewrite Map_get_delete_eq in Hl'|by rewrite Map_get_delete_ne in Hl'].
    - destruct (decide (k0 = k)) as [->|Hk];
        [by rewrite Map_get_delete_eq in Hl'|by rewrite Map_get_delete_ne in Hl']. }
  destruct (inv_loading _ HInv k l Hl) as (x & Hx & Htx & Hgx).
  exists x. split; [|done]. apply rs_live_keep; [done|].
  intros Heq. pose proof (rs_live_head x Hx Heq) as ->.
  destruct (inv_catch_job _ HInv r o k rs_head_queued Hgx) as [Hfr Hor].
  destruct rs_tables as (_ & Hlo & _). rewrite Hlo in Hl'.
  destruct rs_handled as [k0 v0 _ Hf0 _ _ _ _ _|k0 e0 _ Hg0 _ _ Hl1 _ _
                         |m _ Hf0 _ _ _ _ _|evs _ Hnf _ _ _ _ _ _].
  - congruence.
  - rewrite Hgx in Hg0. injection Hg0 as <-.
    by rewrite Hl1, Map_get_delete_eq in Hl'.
  - congruence.
  - destruct o as [v|e]; [|by destruct (Hnf k e eq_refl)].
    by rewrite (inv_exclusive _ HInv _ _ Hor) in Hl.
Qed.

Lemma rs_inv_history k : key_run k Unloaded (trace s') = Some (key_status k s').
Proof.
  destruct rs_tables as (Hc & Hlo & Htr & _). rewrite Htr.
  pose proof (inv_history _ HInv k) as Hh.
  destruct rs_handled as [k0 v0 Ho Hf _ Hc1 Hl1 -> _|k0 e0 Ho Hg _ Hc1 Hl1 -> _
                         |m _ _ _ Hc1 Hl1 -> _|evs _ _ _ Hc1 Hl1 -> Hev _].
  - rewrite key_run_app, Hh. simpl.
    destruct (rs_loading_of_then _ Hf) as (_ & l & _ & Hl).
    destruct (String.eqb_spec k k0) as [->|Hk].
    + unfold key_status. rewrite Hl, Hc, Hc1, Map_get_set_eq.
      destruct (Map_get k0 (moduleCache s)) eqn:Ec; [|done].
      by rewrite (inv_exclusive _ HInv _ _ Ec) in Hl.
    + f_equal. symmetry. apply key_status_eq.
      * rewrite Hc, Hc1. by apply Map_get_set_ne.
      * rewrite Hlo, Hl1. by apply Map_get_delete_ne.
  - rewrite key_run_app, Hh. simpl.
    destruct (inv_catch_job _ HInv r o k0 rs_head_queued Hg) as [_ Hl].
    rewrite Ho in Hl.
    destruct (String.eqb_spec k k0) as [->|Hk].
    + unfold key_status. rewrite Hl, Hc, Hc1, Hlo, Hl1, Map_get_delete_eq.
      destruct (Map_get k0 (moduleCache s)) eqn:Ec; [|done].
      by rewrite (inv_exclusive _ HInv _ _ Ec) in Hl.
    + f_equal. symmetry. apply key_status_eq.
      * by rewrite Hc, Hc1.
      * rewrite Hlo, Hl1. by apply Map_get_delete_ne.
  - rewrite key_run_app, Hh. simpl. f_equal. symmetry.
    apply key_status_eq; congruence.
  - rewrite key_run_app, Hh. rewrite key_run_quiet by done. f_equal. symmetry.
    apply key_status_eq; congruence.
Qed.

Lemma rs_trace_requested k x a :
  Requested k x a ∈ trace s' <-> Requested k x a ∈ trace s.
Proof.
  destruct rs_tables as (_ & _ & -> & _).
  destruct rs_handled as [k0 v0 _ _ _ _ _ -> _|k0 e0 _ _ _ _ _ -> _
                         |m _ _ _ _ _ -> _|evs _ _ _ _ _ -> Hev _];
    rewrite elem_of_app; split; auto; intros [?|Hin]; auto.
  - by apply list_elem_of_singleton in Hin.
  - by apply list_elem_of_singleton in Hin.
  - by apply list_elem_of_singleton in Hin.
  - rewrite Forall_forall in Hev. by apply Hev in Hin.
Qed.

Lemma rs_status_settled p x :
  status s p = Some (Some x) -> status s' p = Some (Some x).
Proof.
  intros Hp. rewrite rs_status. destruct (decide (p = t)) as [->|]; [|done].
  destruct rs_target_pending as [rs Hrs]. unfold status in Hp. by rewrite Hrs in Hp.
Qed.

Lemma rs_status_target p :
  p ∈ targets s -> p <> t -> status s' p = Some None.
Proof.
  intros Hp Hne. rewrite rs_status. destruct (decide (p = t)); [done|].
  by apply (inv_pending _ HInv).
Qed.

Lemma rs_served k l : served s k l -> served s' k l.
Proof.
  intros [(x & Hx & Htx & Hgx)|[[e He]|(v & Hv & Hc)]].
  - destruct (decide (target x = t)) as [Heq|Hne].
    + pose proof (rs_live_head x Hx Heq) as ->.
      destruct (inv_catch_job _ HInv r o k rs_head_queued Hgx) as [Hfr Hor].
      assert (Hst : status s' l = Some (Some o')).
      { rewrite rs_status. rewrite <- Htx. fold t. by destruct (decide (t = t)). }
      destruct rs_tables as (Hc & _).
      destruct rs_handled as [k0 v0 _ Hf0 _ _ _ _ _|k0 e0 Ho Hg0 Ho' _ _ _ _
                             |m _ Hf0 _ _ _ _ _|evs _ Hnf Ho' Hc1 _ _ _ _].
      * congruence.
      * right. left. exists e0. by rewrite Hst, Ho', Ho.
      * congruence.
      * destruct o as [v|e]; [|by destruct (Hnf k e eq_refl)].
        right. right. exists v. rewrite Hst, (Ho' Hfr). split; [done|].
        by rewrite Hc, Hc1.
    + left. exists x. split; [|done]. by apply rs_live_keep.
  - right. left. exists e. by apply rs_status_settled.
  - right. right. exists v. split; [by apply rs_status_settled|by apply rs_cache_kept].
Qed.

Lemma rs_follows x l : follows s x l -> follows s' x l.
Proof.
  intros [[Hx [Hth|[Hreg|(o1 & Hl & Hjob)]]]|(o1 & Hx & Hl)].
  - left. unfold queued in Hth. rewrite Hq in Hth.
    apply elem_of_cons in Hth as [[=]|Hin].
    pose proof (rs_queue_sub _ Hin) as [Hqd Hne]. simpl in Hne.
    split.
    + apply rs_status_target; [|done]. apply elem_of_targets. right.
      exists (ThenableJob x l). done.
    + left. apply rs_queued. by left.
  - left. pose proof (rs_reg_apart _ _ Hreg) as Hne. simpl in Hne. split.
    + apply rs_status_target; [|done]. apply elem_of_targets. left.
      exists l, (forward x). done.
    + destruct (decide (l = t)) as [->|Hlt].
      * right. right. exists o'. split.
        -- rewrite rs_status. by destruct (decide (t = t)).
        -- apply rs_queued. right. eauto.
      * right. left. by apply rs_reg.
  - unfold queued in Hjob. rewrite Hq in Hjob.
    apply elem_of_cons in Hjob as [[= Hr Ho]|Hin].
    + right. exists o1. split; [|by apply rs_status_settled].
      assert (Hxt : x = t) by (unfold t; by rewrite <- Hr).
      rewrite rs_status. destruct (decide (x = t)); [|done].
      do 2 f_equal. rewrite Ho.
      destruct rs_handled as [k0 v0 _ Hf0 _ _ _ _ _|k0 e0 _ Hg0 _ _ _ _ _
                             |m _ Hf0 _ _ _ _ _|evs _ _ Ho' _ _ _ _ _];
        try (rewrite <- Hr in *; discriminate).
      apply Ho'. rewrite <- Hr. by destruct o.
    + pose proof (rs_queue_sub _ Hin) as [Hqd Hne]. simpl in Hne.
      left. split.
      * apply rs_status_target; [|done]. apply elem_of_targets. right.
        exists (ReactionJob (forward x) o1). done.
      * right. right. exists o1. split; [by apply rs_status_settled|].
        apply rs_queued. by left.
  - right. exists o1. split; by apply rs_status_settled.
Qed.

Lemma rs_inv_requests k x a : Requested k x a ∈ trace s' -> request_ok s' k x a.
Proof.
  intros Hin. apply rs_trace_requested in Hin.
  pose proof (inv_requests _ HInv k x a Hin) as Hok.
  destruct a as [v|l|l]; simpl in *.
  - destruct Hok as [Hst Hc]. split; [by apply rs_status_settled|by apply rs_cache_kept].
  - destruct Hok as [Hsv Hfo]. split; [by apply rs_served|by apply rs_follows].
  - destruct Hok as [Hsv Hfo]. split; [by apply rs_served|by apply rs_follows].
Qed.

Lemma rs_trace_sub e : e ∈ trace s -> e ∈ trace s'.
Proof.
  intros He. destruct rs_tables as (_ & _ & -> & _).
  destruct rs_handled as [k0 v0 _ _ _ _ _ -> _|k0 e0 _ _ _ _ _ -> _
                         |m _ _ _ _ _ -> _|evs _ _ _ _ _ -> _ _];
    apply elem_of_app; by left.
Qed.

Lemma rs_inv_mermaid_reg p x :
  reg s' p x -> on_fulfilled x = Some after_mermaid ->
  exists a, Requested "mermaid" p a ∈ trace s'.
Proof.
  intros Hx Hf. apply rs_reg in Hx as [Hx _].
  destruct (inv_mermaid_reg _ HInv p x Hx Hf) as [a Ha].
  exists a. by apply rs_trace_sub.
Qed.

(** The job that settles a pending result of lazyLoad is the one that
    forwards the outcome of its load promise. *)
Lemma rs_target_request k a :
  Requested k t a ∈ trace s ->
  exists l, served s k l /\ status s l = Some (Some o) /\ r = forward t.
Proof.
  intros Ha. pose proof (inv_requests _ HInv k t a Ha) as Hok.
  destruct rs_target_pending as [rs Hrs].
  assert (Hpend : status s t = Some None) by (unfold status; by rewrite Hrs).
  assert (Hfo : exists l, served s k l /\ follows s t l).
  { destruct a as [v|l|l]; simpl in Hok; [|eauto|eauto].
    destruct Hok as [Hst _]. congruence. }
  destruct Hfo as (l & Hsv & [[_ [Hth|[Hreg|(o1 & Hl & Hjob)]]]|(o1 & Hx & _)]).
  - by pose proof (queued_inj _ _ _ (inv_nodup _ HInv) Hth rs_head_queued eq_refl).
  - by pose proof (rs_reg_apart _ _ Hreg).
  - pose proof (queued_inj _ _ _ (inv_nodup _ HInv) Hjob rs_head_queued eq_refl)
      as [= Hr Ho].
    exists l. rewrite <- Ho. done.
  - congruence.
Qed.

Lemma rs_inv_mermaid_job x v :
  queued s' (ReactionJob x (Fulfilled v)) -> on_fulfilled x = Some after_mermaid ->
  Map_get "mermaid" (moduleCache s') = Some v.
Proof.
  intros Hx Hf. apply rs_cache_kept.
  apply rs_queued in Hx as [Hin|(r1 & Hr1 & [= -> Ho'])].
  - apply rs_queue_sub in Hin as [Hin _].
    by apply (inv_mermaid_job _ HInv x v).
  - destruct (inv_mermaid_reg _ HInv t r1 Hr1 Hf) as [a Ha].
    destruct (rs_target_request _ _ Ha) as (l & Hsv & Hl & Hr).
    assert (Ho : o = Fulfilled v).
    { rewrite Ho'.
      destruct rs_handled as [k0 v0 _ Hf0 _ _ _ _ _|k0 e0 _ Hg0 _ _ _ _ _
                             |m _ Hf0 _ _ _ _ _|evs _ _ Ho1 _ _ _ _ _];
        try (rewrite Hr in *; discriminate).
      symmetry. apply Ho1. rewrite Hr. by destruct o. }
    rewrite Ho in Hl.
    destruct Hsv as [(y & Hy & Hty & _)|[[e He]|(v1 & Hv1 & Hc)]].
    + apply live_target in Hy. apply (inv_pending _ HInv) in Hy. congruence.
    + congruence.
    + congruence.
Qed.

Lemma rs_inv_initialized :
  (forall m, m ∈ initialized s' ->
             Map_get "mermaid" (moduleCache s') = Some (Namespace m)) /\
  NoDup (initialized s') /\
  length (List.filter is_initialize (trace s')) = length (initialized s').
Proof.
  pose proof (inv_initialized _ HInv) as H1.
  pose proof (inv_initialized_nodup _ HInv) as H2.
  pose proof (inv_initialize_count _ HInv) as H3.
  split.
  - intros m Hm. apply rs_cache_kept.
    destruct rs_tables as (_ & _ & _ & Hi & _). rewrite Hi in Hm.
    destruct rs_handled as [k0 v0 _ _ _ _ _ _ Hi1|k0 e0 _ _ _ _ _ _ Hi1
                           |m0 Ho Hf _ _ _ _ Hi1|evs _ _ _ _ _ _ _ Hi1];
      rewrite Hi1 in Hm; auto.
    apply elem_of_cons in Hm as [->|Hm]; auto.
    apply (inv_mermaid_job _ HInv r); [|done].
    rewrite <- Ho. apply rs_head_queued.
  - destruct rs_tables as (_ & _ & -> & -> & _).
    destruct rs_handled as [k0 v0 _ _ _ _ _ -> ->|k0 e0 _ _ _ _ _ -> ->
                           |m0 Ho Hf Hnin _ _ -> ->|evs _ _ _ _ _ -> Hev ->];
      rewrite List.filter_app; simpl; rewrite ?app_nil_r; auto.
    + split; [by apply NoDup_cons|]. rewrite length_app. simpl. lia.
    + rewrite (filter_initialize_quiet _ Hev), app_nil_r. auto.
Qed.

Lemma inv_reaction_job : Inv s'.
Proof.
  destruct rs_inv_graph as (G1 & G2 & G3 & G4).
  destruct rs_inv_tables as (T1 & T2 & T3).
  destruct rs_inv_initialized as (I1 & I2 & I3).
  constructor; auto.
  - apply rs_inv_then.
  - apply rs_inv_catch_reg.
  - apply rs_inv_catch_job.
  - apply rs_inv_loading.
  - apply rs_inv_history.
  - apply rs_inv_requests.
  - apply rs_inv_mermaid_reg.
  - apply rs_inv_mermaid_job.
Qed.
End ReactionStep.

(** ** The module loader settling an import preserves the invariant *)

Section HostStep.
Variables (s : state) (i : pid) (o : outcome) (rs : list reaction).
Hypothesis HInv : Inv s.
Hypothesis Hi : i ∈ imports s.
Hypothesis Hp : heap s !! i = Some {| settled := None; reactions := rs |}.

Let s' := (settle i o s).2.

Lemma hs_fresh : i ∉ targets s.
Proof. by destruct (inv_imports _ HInv i Hi). Qed.

Lemma hs_status_target x : x ∈ targets s -> status s' x = Some None.
Proof.
  intros Hx. unfold s'. rewrite (settle_status _ _ _ _ Hp).
  destruct (decide (x = i)) as [->|]; [by destruct hs_fresh|].
  by apply (inv_pending _ HInv).
Qed.

Lemma hs_status_settled x y :
  status s x = Some (Some y) -> status s' x = Some (Some y).
Proof.
  intros Hx. unfold s'. rewrite (settle_status _ _ _ _ Hp).
  destruct (decide (x = i)) as [->|]; [|done].
  unfold status in Hx. by rewrite Hp in Hx.
Qed.

Lemma hs_reg p x : reg s' p x <-> reg s p x /\ p <> i.
Proof. apply (settle_reg _ _ _ _ Hp). Qed.

Lemma hs_queued x :
  queued s' x <-> queued s x \/ exists r1, reg s i r1 /\ x = ReactionJob r1 o.
Proof. apply (settle_queued _ _ _ _ Hp). Qed.

Lemma hs_live_keep x : live s x -> live s' x.
Proof.
  intros [[p Hx]|[o1 Ho1]].
  - destruct (decide (p = i)) as [->|Hne].
    + right. exists o. apply hs_queued. right. eauto.
    + left. exists p. by apply hs_reg.
  - right. exists o1. apply hs_queued. by left.
Qed.

Lemma hs_live_back x : live s' x -> live s x.
Proof.
  intros [[p Hx]|[o1 Ho1]].
  - left. exists p. by apply hs_reg in Hx as [? _].
  - apply hs_queued in Ho1 as [?|(r1 & Hr1 & [= -> ->])].
    + right. eauto.
    + left. eauto.
Qed.

Lemma hs_reg_keep p x : reg s p x -> p ∈ targets s -> reg s' p x.
Proof.
  intros Hx Hin. apply hs_reg. split; [done|]. intros ->. by apply hs_fresh.
Qed.

Lemma hs_tables :
  moduleCache s' = moduleCache s /\ loadingPromises s' = loadingPromises s /\
  trace s' = trace s /\ initialized s' = initialized s /\ imports s' = imports s.
Proof. unfold s'. by rewrite (settle_pending _ _ _ _ Hp). Qed.

Lemma hs_served k l : served s k l -> served s' k l.
Proof.
  destruct hs_tables as (Hc & _).
  intros [(x & Hx & Htx & Hgx)|[[e He]|(v & Hv & Hcv)]].
  - left. exists x. split; [by apply hs_live_keep|done].
  - right. left. exists e. by apply hs_status_settled.
  - right. right. exists v. split; [by apply hs_status_settled|by rewrite Hc].
Qed.

Lemma hs_not_loading k l : served s k l -> l <> i.
Proof.
  intros [(x & Hx & Htx & Hgx)|[[e He]|(v & Hv & Hcv)]] ->.
  - apply hs_fresh. rewrite <- Htx. by apply live_target.
  - unfold status in He. by rewrite Hp in He.
  - unfold status in Hv. by rewrite Hp in Hv.
Qed.

Lemma hs_follows x l : l <> i -> follows s x l -> follows s' x l.
Proof.
  intros Hne [[Hx [Hth|[Hreg|(o1 & Hl & Hjob)]]]|(o1 & Hx & Hl)].
  - left. split.
    + apply hs_status_target. apply elem_of_targets. right.
      exists (ThenableJob x l). done.
    + left. apply hs_queued. by left.
  - left. split.
    + apply hs_status_target. apply elem_of_targets. left.
      exists l, (forward x). done.
    + right. left. by apply hs_reg.
  - left. split.
    + apply hs_status_target. apply elem_of_targets. right.
      exists (ReactionJob (forward x) o1). done.
    + right. right. exists o1. split; [by apply hs_status_settled|].
      apply hs_queued. by left.
  - right. exists o1. split; by apply hs_status_settled.
Qed.

(** No result of lazyLoad is an import promise. *)
Lemma hs_not_request k a : Requested k i a ∈ trace s -> False.
Proof.
  intros Ha. pose proof (inv_requests _ HInv k i a Ha) as Hok.
  assert (Hpend : status s i = Some None) by (unfold status; by rewrite Hp).
  assert (Hfo : exists l, follows s i l).
  { destruct a as [v|l|l]; simpl in Hok; [|by destruct Hok; eauto..].
    destruct Hok as [Hst _]. congruence. }
  destruct Hfo as (l & [[_ [Hth|[Hreg|(o1 & Hl & Hjob)]]]|(o1 & Hx & _)]).
  - apply hs_fresh, elem_of_targets. right. exists (ThenableJob i l). done.
  - apply hs_fresh, elem_of_targets. left. exists l, (forward i). done.
  - apply hs_fresh, elem_of_targets. right. exists (ReactionJob (forward i) o1). done.
  - congruence.
Qed.

Lemma inv_host_settle : Inv s'.
Proof.
  destruct hs_tables as (Hc & Hlo & Htr & Hin & Him).
  constructor; rewrite ?Hc, ?Hlo, ?Htr, ?Hin, ?Him; try apply HInv.
  - unfold s'. rewrite (settle_targets _ _ _ _ Hp). apply HInv.
  - intros x Hx. unfold s' in Hx. rewrite (settle_targets _ _ _ _ Hp) in Hx.
    by apply hs_status_target.
  - intros j Hj. destruct (inv_imports _ HInv j Hj) as [Hlt Hnin]. split.
    + unfold s'. by rewrite (settle_heap _ _ _ _ Hp), length_insert.
    + unfold s'. by rewrite (settle_targets _ _ _ _ Hp).
  - intros a b Hab. unfold s' at 1. rewrite (settle_heap _ _ _ _ Hp), length_insert.
    apply hs_queued in Hab as [Hab|(r1 & _ & [=])]. by apply (inv_thenable _ HInv a b).
  - intros x k Hx Hf. apply hs_live_back in Hx.
    destruct (inv_then _ HInv x k Hx Hf) as (Hg & l & Hl).
    split; [done|]. exists l. apply hs_reg_keep; [done|]. by apply live_target.
  - intros p x k Hx Hg. apply hs_reg in Hx as [Hx Hne].
    destruct (inv_catch_reg _ HInv p x k Hx Hg) as (Hf & Hl & r' & Hr' & Htr' & Hfr').
    split; [done|]. split; [done|]. exists r'. split; [by apply hs_live_keep|done].
  - intros x o1 k Hx Hg. apply hs_queued in Hx as [Hx|(r1 & Hr1 & [= -> ->])].
    + by apply (inv_catch_job _ HInv).
    + destruct (inv_catch_reg _ HInv i r1 k Hr1 Hg) as (_ & _ & r' & Hr' & Htr' & _).
      destruct hs_fresh. rewrite <- Htr'. by apply live_target.
  - intros k l Hl. destruct (inv_loading _ HInv k l Hl) as (x & Hx & Hrest).
    exists x. split; [by apply hs_live_keep|done].
  - intros k. rewrite (inv_history _ HInv). f_equal. symmetry.
    apply key_status_eq; congruence.
  - intros k x a Ha. pose proof (inv_requests _ HInv k x a Ha) as Hok.
    destruct a as [v|l|l]; simpl in *.
    + destruct Hok as [Hst Hcv]. split; [by apply hs_status_settled|by rewrite Hc].
    + destruct Hok as [Hsv Hfo]. split; [by apply hs_served|].
      apply hs_follows; [by eapply hs_not_loading|done].
    + destruct Hok as [Hsv Hfo]. split; [by apply hs_served|].
      apply hs_follows; [by eapply hs_not_loading|done].
  - intros p x Hx Hf. apply hs_reg in Hx as [Hx _].
    by apply (inv_mermaid_reg _ HInv p x).
  - intros x v Hx Hf. apply hs_queued in Hx as [Hx|(r1 & Hr1 & [= -> _])].
    + by apply (inv_mermaid_job _ HInv x).
    + destruct (inv_mermaid_reg _ HInv i r1 Hr1 Hf) as [a Ha].
      by destruct (hs_not_request _ _ Ha).
Qed.
End HostStep.

Lemma inv_host_step s i o : Inv s -> Inv (host_settle i o s).2.
Proof.
  intros HInv. unfold host_settle, bind, get. simpl.
  destruct (bool_decide_reflect (i ∈ imports s)) as [Hi|Hi]; [|done].
  destruct (status s i) as [[x|]|] eqn:E.
  - rewrite settle_not_pending; [done|congruence].
  - apply status_pending in E as [rs E]. by eapply inv_host_settle.
  - rewrite settle_not_pending; [done|congruence].
Qed.

Lemma status_None_ge s p : status s p = None -> length (heap s) <= p.
Proof.
  unfold status. destruct (heap s !! p) eqn:E; [done|].
  intros _. by apply lookup_ge_None.
Qed.

(** ** Subscribing a reaction that is no handler of lazyLoad *)

Section SubscribeStep.
Variables (s s0 : state) (p : pid) (x : reaction).
Hypothesis HInv : Inv s.
Hypothesis H0heap : heap s0 = heap s.
Hypothesis H0tab :
  moduleCache s0 = moduleCache s /\ loadingPromises s0 = loadingPromises s /\
  trace s0 = trace s /\ initialized s0 = initialized s /\ imports s0 = imports s.
Hypothesis Hsub : forall j, queued s0 j -> queued s j.
Hypothesis Hsup : forall j, queued s j ->
  queued s0 j \/ (j = ThenableJob (target x) p /\ x = forward (target x)).
Hypothesis Hnd : NoDup (target x :: targets s0).
Hypothesis Htsub : forall y, y ∈ targets s0 -> y ∈ targets s.
Hypothesis Hpend : status s (target x) = Some None.
Hypothesis Himp : target x ∉ imports s.
Hypothesis Hp : p < length (heap s).
Hypothesis Hharm1 : forall k, on_fulfilled x <> Some (on_loaded k).
Hypothesis Hharm2 : forall k, on_rejected x <> Some (on_failed k).
Hypothesis Hmer : on_fulfilled x = Some after_mermaid ->
  exists a, Requested "mermaid" p a ∈ trace s.

Let s' := (subscribe p x s0).2.

Lemma ss_cases :
  (exists rs, heap s0 !! p = Some {| settled := None; reactions := rs |}) \/
  (exists o rs, heap s0 !! p = Some {| settled := Some o; reactions := rs |}).
Proof.
  rewrite H0heap. destruct (lookup_lt_is_Some_2 _ _ Hp) as [[[o|] rs] E]; eauto.
Qed.

Lemma ss_heap_length : length (heap s') = length (heap s).
Proof.
  unfold s'. destruct ss_cases as [[rs E]|(o & rs & E)].
  - by rewrite (subscribe_heap _ _ _ _ E), length_insert, H0heap.
  - by rewrite (subscribe_settled _ _ _ _ _ E); simpl; rewrite H0heap.
Qed.

Lemma ss_status y : status s' y = status s y.
Proof.
  unfold s'. destruct ss_cases as [[rs E]|(o & rs & E)].
  - rewrite (subscribe_status _ _ _ _ E). unfold status. by rewrite H0heap.
  - rewrite (subscribe_settled _ _ _ _ _ E). unfold status. simpl. by rewrite H0heap.
Qed.

Lemma ss_reg q y :
  reg s' q y <-> reg s q y \/ (q = p /\ y = x /\ status s p = Some None).
Proof.
  unfold s'. destruct ss_cases as [[rs E]|(o & rs & E)].
  - rewrite (subscribe_reg _ _ _ _ E). unfold reg, status.
    rewrite H0heap in *. rewrite E. simpl. naive_solver.
  - rewrite (subscribe_settled _ _ _ _ _ E). unfold reg, status. simpl.
    rewrite H0heap in *. rewrite E. simpl. naive_solver.
Qed.

Lemma ss_queued j :
  queued s' j <->
  queued s0 j \/ (exists o, status s p = Some (Some o) /\ j = ReactionJob x o).
Proof.
  unfold s'. destruct ss_cases as [[rs E]|(o & rs & E)].
  - rewrite (subscribe_pending _ _ _ _ E). unfold queued, status. simpl.
    rewrite H0heap in *. rewrite E. simpl. naive_solver.
  - rewrite (subscribe_settled _ _ _ _ _ E). unfold queued, status. simpl.
    rewrite H0heap in *. rewrite E. simpl.
    rewrite elem_of_app, list_elem_of_singleton. naive_solver.
Qed.

Lemma ss_targets : targets s' ≡ₚ target x :: targets s0.
Proof.
  unfold s'. destruct ss_cases as [[rs E]|(o & rs & E)].
  - apply (subscribe_targets _ _ _ _ E).
  - rewrite (subscribe_settled _ _ _ _ _ E). unfold targets. simpl.
    rewrite fmap_app. simpl. rewrite app_assoc.
    by rewrite <- Permutation_cons_append.
Qed.

Lemma ss_tables :
  moduleCache s' = moduleCache s /\ loadingPromises s' = loadingPromises s /\
  trace s' = trace s /\ initialized s' = initialized s /\ imports s' = imports s.
Proof.
  unfold s'. destruct ss_cases as [[rs E]|(o & rs & E)].
  - by rewrite (subscribe_pending _ _ _ _ E).
  - by rewrite (subscribe_settled _ _ _ _ _ E).
Qed.

Lemma ss_queued_keep r o : queued s (ReactionJob r o) -> queued s' (ReactionJob r o).
Proof.
  intros Hj. apply ss_queued. left. by destruct (Hsup _ Hj) as [?|[[=] _]].
Qed.

Lemma ss_live_keep y : live s y -> live s' y.
Proof.
  intros [[q Hy]|[o Ho]].
  - left. exists q. apply ss_reg. by left.
  - right. exists o. by apply ss_queued_keep.
Qed.

Lemma ss_live_back y : live s' y -> live s y \/ y = x.
Proof.
  intros [[q Hy]|[o Ho]].
  - apply ss_reg in Hy as [Hy|(_ & -> & _)]; [left; left; eauto|by right].
  - apply ss_queued in Ho as [Ho|(o1 & _ & [= -> _])]; [|by right].
    left. right. exists o. by apply Hsub.
Qed.

Lemma ss_served k l : served s k l -> served s' k l.
Proof.
  destruct ss_tables as (Hc & _).
  intros [(y & Hy & Hty & Hgy)|[[e He]|(v & Hv & Hcv)]].
  - left. exists y. split; [by apply ss_live_keep|done].
  - right. left. exists e. by rewrite ss_status.
  - right. right. exists v. by rewrite ss_status, Hc.
Qed.

Lemma ss_follows y l : follows s y l -> follows s' y l.
Proof.
  intros [[Hy [Hth|[Hreg|(o1 & Hl & Hjob)]]]|(o1 & Hy & Hl)].
  - left. split; [by rewrite ss_status|].
    destruct (Hsup _ Hth) as [Hth0|[[= -> ->] Hx]].
    + left. apply ss_queued. by left.
    + destruct (status s p) as [[o|]|] eqn:E.
      * right. right. exists o. split; [by rewrite ss_status|].
        apply ss_queued. right. exists o. by rewrite <- Hx.
      * right. left. apply ss_reg. right. by rewrite <- Hx.
      * apply status_None_ge in E. lia.
  - left. split; [by rewrite ss_status|]. right. left. apply ss_reg. by left.
  - left. split; [by rewrite ss_status|]. right. right. exists o1.
    split; [by rewrite ss_status|by apply ss_queued_keep].
  - right. exists o1. by rewrite !ss_status.
Qed.

Lemma ss_mermaid_value v :
  on_fulfilled x = Some after_mermaid ->
  status s p = Some (Some (Fulfilled v)) ->
  Map_get "mermaid" (moduleCache s) = Some v.
Proof.
  intros Hf Hst. destruct (Hmer Hf) as [a Ha].
  pose proof (inv_requests _ HInv _ _ _ Ha) as Hok.
  assert (Hcase : (exists v', a = FromCache v') \/
                  exists l, served s "mermaid" l /\ follows s p l).
  { destruct a as [v'|l|l]; simpl in Hok; [left; eauto|right; eauto..]. }
  destruct Hcase as [[v' ->]|(l & Hsv & Hfo)].
  - simpl in Hok. destruct Hok as [Hst' Hc]. congruence.
  - destruct Hfo as [[Hpp _]|(o1 & Hp1 & Hl1)]; [congruence|].
    assert (o1 = Fulfilled v) as -> by congruence.
    destruct Hsv as [(y & Hy & Hty & _)|[[e He]|(v1 & Hv1 & Hc)]].
    + apply live_target in Hy. apply (inv_pending _ HInv) in Hy. congruence.
    + congruence.
    + congruence.
Qed.

Lemma inv_subscribe : Inv s'.
Proof.
  destruct ss_tables as (Hc & Hlo & Htr & Hin & Him).
  constructor; rewrite ?Hc, ?Hlo, ?Htr, ?Hin, ?Him; try apply HInv.
  - rewrite ss_targets. done.
  - intros y Hy. rewrite ss_targets in Hy. rewrite ss_status.
    apply elem_of_cons in Hy as [->|Hy]; [done|].
    by apply (inv_pending _ HInv), Htsub.
  - intros j Hj. destruct (inv_imports _ HInv j Hj) as [Hlt Hnin]. split.
    + by rewrite ss_heap_length.
    + rewrite ss_targets. intros Hin'.
      apply elem_of_cons in Hin' as [->|Hin']; [done|]. by apply Hnin, Htsub.
  - intros a b Hab. rewrite ss_heap_length.
    apply ss_queued in Hab as [Hab|(o & _ & [=])].
    by apply (inv_thenable _ HInv a b), Hsub.
  - intros y k Hy Hf. apply ss_live_back in Hy as [Hy| ->]; [|by destruct (Hharm1 k)].
    destruct (inv_then _ HInv y k Hy Hf) as (Hg & l & Hl).
    split; [done|]. exists l. apply ss_reg. by left.
  - intros q y k Hy Hg.
    apply ss_reg in Hy as [Hy|(_ & -> & _)]; [|by destruct (Hharm2 k)].
    destruct (inv_catch_reg _ HInv q y k Hy Hg) as (Hf & Hl & r' & Hr' & Hrest).
    split; [done|]. split; [done|]. exists r'. split; [by apply ss_live_keep|done].
  - intros y o1 k Hy Hg.
    apply ss_queued in Hy as [Hy|(o2 & _ & [= -> _])]; [|by destruct (Hharm2 k)].
    apply (inv_catch_job _ HInv y o1 k); [by apply Hsub|done].
  - intros k l Hl. destruct (inv_loading _ HInv k l Hl) as (y & Hy & Hrest).
    exists y. split; [by apply ss_live_keep|done].
  - intros k. rewrite (inv_history _ HInv). f_equal. symmetry.
    apply key_status_eq; congruence.
  - intros k y a Ha. pose proof (inv_requests _ HInv k y a Ha) as Hok.
    destruct a as [v|l|l]; simpl in *.
    + destruct Hok as [Hst Hcv]. by rewrite ss_status, Hc.
    + destruct Hok as [Hsv Hfo]. split; [by apply ss_served|by apply ss_follows].
    + destruct Hok as [Hsv Hfo]. split; [by apply ss_served|by apply ss_follows].
  - intros q y Hy Hf. apply ss_reg in Hy as [Hy|(-> & -> & _)]; [|by apply Hmer].
    by apply (inv_mermaid_reg _ HInv q y).
  - intros y v Hy Hf. apply ss_queued in Hy as [Hy|(o2 & Hst & [= -> <-])].
    + apply (inv_mermaid_job _ HInv y v); [by apply Hsub|done].
    + by apply ss_mermaid_value.
Qed.
End SubscribeStep.

(** ** A thenable job, and the microtask step as a whole *)

Lemma inv_thenable_job s a b q :
  Inv s -> microtasks s = ThenableJob a b :: q ->
  Inv (subscribe b (forward a) (set_microtasks (fun _ => q) s)).2.
Proof.
  intros HInv Hq.
  assert (Hhead : queued s (ThenableJob a b)).
  { unfold queued. rewrite Hq. apply list_elem_of_here. }
  assert (Ha : a ∈ targets s).
  { apply elem_of_targets. right. by exists (ThenableJob a b). }
  assert (Hperm : targets s ≡ₚ a :: targets (set_microtasks (fun _ => q) s)).
  { unfold targets. simpl. rewrite Hq. simpl. by rewrite <- Permutation_middle. }
  apply (inv_subscribe s); simpl; auto.
  - intros j Hj. unfold queued in *. simpl in Hj. rewrite Hq.
    apply elem_of_cons. by right.
  - intros j Hj. unfold queued in *. simpl. rewrite Hq in Hj.
    apply elem_of_cons in Hj as [->|Hj]; auto.
  - rewrite <- Hperm. apply HInv.
  - intros y Hy. rewrite Hperm. apply elem_of_cons. by right.
  - by apply (inv_pending _ HInv).
  - intros Hin. by destruct (inv_imports _ HInv a Hin).
  - by apply (inv_thenable _ HInv a b).
  - discriminate.
Qed.

Lemma inv_step_microtask x s : Inv s -> Inv (run_microtask x s).
Proof.
  intros HInv. destruct (microtasks s) as [|[r o|a b] q] eqn:Hq.
  - unfold run_microtask. by rewrite Hq.
  - rewrite (step_reaction x s r o q Hq). by apply inv_reaction_job.
  - unfold run_microtask. rewrite Hq. simpl. by apply inv_thenable_job.
Qed.

(** ** Calls only add promises, jobs and events *)

Section Extension.
Variables (s s' : state) (news : list promise) (newjobs : list job).
Variables (newimps : list pid) (evs : list event).
Hypothesis HInv : Inv s.
Hypothesis Eheap : heap s' = heap s ++ news.
Hypothesis Equeue : microtasks s' = microtasks s ++ newjobs.
Hypothesis Eimp : imports s' = imports s ++ newimps.
Hypothesis Ecache : moduleCache s' = moduleCache s.
Hypothesis Etrace : trace s' = trace s ++ evs.
Hypothesis Einit : initialized s' = initialized s.
Hypothesis Eload : forall k l,
  Map_get k (loadingPromises s) = Some l -> Map_get k (loadingPromises s') = Some l.

Let n := length (heap s).
Let newt := heap_targets news ++ (job_target <$> newjobs).

Lemma ex_status_keep p x : status s p = Some x -> status s' p = Some x.
Proof.
  intros Hp. pose proof (status_Some_lt _ _ _ Hp) as Hlt.
  unfold status in *. by rewrite Eheap, lookup_app_l.
Qed.

Lemma ex_reg_keep p x : reg s p x -> reg s' p x.
Proof.
  intros (pr & Hp & Hx). exists pr. split; [|done].
  rewrite Eheap, lookup_app_l; [done|]. by eapply lookup_lt_Some.
Qed.

Lemma ex_reg_back p x :
  reg s' p x ->
  reg s p x \/ (n <= p /\ exists pr, news !! (p - n) = Some pr /\ x ∈ reactions pr).
Proof.
  intros (pr & Hp & Hx). rewrite Eheap in Hp.
  apply lookup_app_Some in Hp as [Hp|[Hge Hp]].
  - left. exists pr. done.
  - right. split; [done|]. exists pr. done.
Qed.

Lemma ex_queued j : queued s' j <-> queued s j \/ j ∈ newjobs.
Proof. unfold queued. by rewrite Equeue, elem_of_app. Qed.

Lemma ex_live_keep x : live s x -> live s' x.
Proof.
  intros [[p Hp]|[o Ho]].
  - left. exists p. by apply ex_reg_keep.
  - right. exists o. apply ex_queued. by left.
Qed.

Lemma ex_targets : targets s' ≡ₚ targets s ++ newt.
Proof.
  unfold targets, newt. rewrite Eheap, Equeue, heap_targets_app, fmap_app.
  rewrite <- !app_assoc. apply Permutation_app_head.
  rewrite !app_assoc. apply Permutation_app_tail. apply Permutation_app_comm.
Qed.

Lemma ex_targets_old t : t ∈ targets s -> t < n.
Proof.
  intros Ht. apply (inv_pending _ HInv) in Ht. by apply status_Some_lt in Ht.
Qed.

Lemma ex_served k l : served s k l -> served s' k l.
Proof.
  intros [(y & Hy & Hty & Hgy)|[[e He]|(v & Hv & Hcv)]].
  - left. exists y. split; [by apply ex_live_keep|done].
  - right. left. exists e. by apply ex_status_keep.
  - right. right. exists v. split; [by apply ex_status_keep|by rewrite Ecache].
Qed.

Lemma ex_follows y l : follows s y l -> follows s' y l.
Proof.
  intros [[Hy [Hth|[Hreg|(o1 & Hl & Hjob)]]]|(o1 & Hy & Hl)].
  - left. split; [by apply ex_status_keep|]. left. apply ex_queued. by left.
  - left. split; [by apply ex_status_keep|]. right. left. by apply ex_reg_keep.
  - left. split; [by apply ex_status_keep|]. right. right. exists o1.
    split; [by apply ex_status_keep|]. apply ex_queued. by left.
  - right. exists o1. split; by apply ex_status_keep.
Qed.

Hypothesis O_nodup : NoDup newt.
Hypothesis O_pending : forall t, t ∈ newt -> n <= t /\ status s' t = Some None.
Hypothesis O_imports : forall i, i ∈ newimps ->
  n <= i /\ i < length (heap s') /\ i ∉ newt.
Hypothesis O_thenable : forall a b, ThenableJob a b ∈ newjobs -> b < length (heap s').
Hypothesis O_then : forall x k,
  (exists j pr, news !! j = Some pr /\ x ∈ reactions pr)
  \/ (exists o, ReactionJob x o ∈ newjobs) ->
  on_fulfilled x = Some (on_loaded k) ->
  on_rejected x = None /\ exists l, reg s' (target x) (catch_failed k l).
Hypothesis O_catch_reg : forall j pr x k,
  news !! j = Some pr -> x ∈ reactions pr ->
  on_rejected x = Some (on_failed k) ->
  on_fulfilled x = None /\ Map_get k (loadingPromises s') = Some (target x)
  /\ exists r', live s' r' /\ target r' = n + j /\ on_fulfilled r' = Some (on_loaded k).
Hypothesis O_catch_job : forall x o k,
  ReactionJob x o ∈ newjobs -> on_rejected x = Some (on_failed k) -> False.
Hypothesis O_exclusive : forall k v,
  Map_get k (moduleCache s') = Some v -> Map_get k (loadingPromises s') = None.
Hypothesis O_loading : forall k l,
  Map_get k (loadingPromises s') = Some l ->
  Map_get k (loadingPromises s) = Some l \/
  exists x, live s' x /\ target x = l /\ on_rejected x = Some (on_failed k).
Hypothesis O_loading_keys : NoDup (Map_keys (loadingPromises s')).
Hypothesis O_history : forall k,
  key_run k (key_status k s) evs = Some (key_status k s').
Hypothesis O_requests : forall k x a,
  Requested k x a ∈ evs -> request_ok s' k x a.
Hypothesis O_mermaid_reg : forall j pr x,
  news !! j = Some pr -> x ∈ reactions pr ->
  on_fulfilled x = Some after_mermaid ->
  exists a, Requested "mermaid" (n + j) a ∈ trace s'.
Hypothesis O_mermaid_job : forall x v,
  ReactionJob x (Fulfilled v) ∈ newjobs -> on_fulfilled x = Some after_mermaid ->
  Map_get "mermaid" (moduleCache s') = Some v.
Hypothesis O_quiet : List.filter is_initialize evs = [].

Lemma ex_live_back x :
  live s' x ->
  live s x \/ (exists j pr, news !! j = Some pr /\ x ∈ reactions pr)
  \/ (exists o, ReactionJob x o ∈ newjobs).
Proof.
  intros [[p Hp]|[o Ho]].
  - apply ex_reg_back in Hp as [Hp|(_ & pr & Hpr & Hx)].
    + left. left. eauto.
    + right. left. eauto.
  - apply ex_queued in Ho as [Ho|Ho].
    + left. right. eauto.
    + right. right. eauto.
Qed.

Lemma inv_extend : Inv s'.
Proof.
  constructor; rewrite ?Ecache, ?Einit; try apply HInv.
  - rewrite ex_targets. apply NoDup_app. split; [apply HInv|]. split; [|done].
    intros t Ht Ht'. apply ex_targets_old in Ht. apply O_pending in Ht' as [? _]. lia.
  - intros t Ht. rewrite ex_targets in Ht. apply elem_of_app in Ht as [Ht|Ht].
    + apply ex_status_keep. by apply (inv_pending _ HInv).
    + by apply O_pending.
  - intros i Hi. rewrite Eimp in Hi. rewrite ex_targets, Eheap, length_app.
    apply elem_of_app in Hi as [Hi|Hi].
    + destruct (inv_imports _ HInv i Hi) as [Hlt Hnin]. split; [lia|].
      intros Hin. apply elem_of_app in Hin as [Hin|Hin]; [done|].
      apply O_pending in Hin as [? _]. fold n in Hlt. lia.
    + destruct (O_imports i Hi) as (Hge & Hlt & Hnin).
      rewrite Eheap, length_app in Hlt. split; [done|].
      intros Hin. apply elem_of_app in Hin as [Hin|Hin]; [|done].
      apply ex_targets_old in Hin. lia.
  - intros a b Hab. apply ex_queued in Hab as [Hab|Hab].
    + rewrite Eheap, length_app. pose proof (inv_thenable _ HInv a b Hab). lia.
    + by apply (O_thenable a).
  - intros x k Hx Hf. apply ex_live_back in Hx as [Hx|Hx]; [|by apply O_then].
    destruct (inv_then _ HInv x k Hx Hf) as (Hg & l & Hl).
    split; [done|]. exists l. by apply ex_reg_keep.
  - intros p x k Hx Hg. apply ex_reg_back in Hx as [Hx|(Hge & pr & Hpr & Hx)].
    + destruct (inv_catch_reg _ HInv p x k Hx Hg) as (Hf & Hl & r' & Hr' & Hrest).
      split; [done|]. split; [by apply Eload|].
      exists r'. split; [by apply ex_live_keep|done].
    + destruct (O_catch_reg _ _ _ _ Hpr Hx Hg) as (Hf & Hl & r' & Hr' & Ht & Hfr).
      split; [done|]. split; [done|]. exists r'. split; [done|]. split; [lia|done].
  - intros x o k Hx Hg. apply ex_queued in Hx as [Hx|Hx]; [|by destruct (O_catch_job x o k)].
    destruct (inv_catch_job _ HInv x o k Hx Hg) as [Hf Ho].
    split; [done|]. destruct o; [done|by apply Eload].
  - rewrite <- Ecache. apply O_exclusive.
  - intros k l Hl. destruct (O_loading k l Hl) as [Hl0|?]; [|done].
    destruct (inv_loading _ HInv k l Hl0) as (x & Hx & Hrest).
    exists x. split; [by apply ex_live_keep|done].
  - done.
  - intros k. rewrite Etrace, key_run_app, (inv_history _ HInv). apply O_history.
  - intros k x a Ha. rewrite Etrace in Ha. apply elem_of_app in Ha as [Ha|Ha].
    + pose proof (inv_requests _ HInv k x a Ha) as Hok.
      destruct a as [v|l|l]; simpl in *.
      * destruct Hok as [Hst Hcv]. split; [by apply ex_status_keep|by rewrite Ecache].
      * destruct Hok as [Hsv Hfo]. split; [by apply ex_served|by apply ex_follows].
      * destruct Hok as [Hsv Hfo]. split; [by apply ex_served|by apply ex_follows].
    + by apply O_requests.
  - intros p x Hx Hf. apply ex_reg_back in Hx as [Hx|(Hge & pr & Hpr & Hx)].
    + destruct (inv_mermaid_reg _ HInv p x Hx Hf) as [a Ha]. exists a.
      rewrite Etrace. apply elem_of_app. by left.
    + destruct (O_mermaid_reg _ _ _ Hpr Hx Hf) as [a Ha]. exists a.
      by replace p with (n + (p - n)) by lia.
  - intros x v Hx Hf. apply ex_queued in Hx as [Hx|Hx].
    + by apply (inv_mermaid_job _ HInv x).
    + rewrite <- Ecache. by apply (O_mermaid_job x).
  - rewrite Etrace, List.filter_app, O_quiet, app_nil_r. apply HInv.
Qed.
End Extension.

(** ** The three answers of lazyLoad *)

Lemma lookup_app_plus {A} (h l : list A) j : (h ++ l) !! (length h + j) = l !! j.
Proof. rewrite lookup_app_r by lia. f_equal. lia. Qed.

Lemma status_app_plus s s' news j :
  heap s' = heap s ++ news ->
  status s' (length (heap s) + j) = settled <$> (news !! j).
Proof. intros E. unfold status. by rewrite E, lookup_app_plus. Qed.

Lemma status_fresh s s' pr l :
  heap s' = heap s ++ pr :: l -> status s' (length (heap s)) = Some (settled pr).
Proof. intros E. unfold status. by rewrite E, list_lookup_middle. Qed.

Lemma reg_app_plus s s' news j pr x :
  heap s' = heap s ++ news -> news !! j = Some pr -> x ∈ reactions pr ->
  reg s' (length (heap s) + j) x.
Proof. intros E Hj Hx. exists pr. by rewrite E, lookup_app_plus. Qed.

Lemma state_ext s1 s2 :
  moduleCache s1 = moduleCache s2 -> loadingPromises s1 = loadingPromises s2 ->
  heap s1 = heap s2 -> microtasks s1 = microtasks s2 -> imports s1 = imports s2 ->
  hasRequestIdleCallback s1 = hasRequestIdleCallback s2 ->
  idleCallbacks s1 = idleCallbacks s2 -> initialized s1 = initialized s2 ->
  links s1 = links s2 -> trace s1 = trace s2 -> s1 = s2.
Proof. destruct s1, s2. simpl. by intros -> -> -> -> -> -> -> -> -> ->. Qed.

Lemma subscribe_at s h l p j rs r :
  heap s = h ++ l -> p = length h + j ->
  l !! j = Some {| settled := None; reactions := rs |} ->
  subscribe p r s =
  (tt, set_heap (fun _ => h ++ <[j := {| settled := None; reactions := rs ++ [r] |}]> l) s).
Proof.
  intros Hh -> Hj. unfold subscribe. rewrite Hh.
  rewrite lookup_app_r by lia. replace (length h + j - length h) with j by lia.
  rewrite Hj. f_equal. unfold set_heap. rewrite Hh. by rewrite insert_app_r.
Qed.

Lemma then_at s h l p j rs f g :
  heap s = h ++ l -> p = length h + j ->
  l !! j = Some {| settled := None; reactions := rs |} ->
  then_ p f g s =
  (length h + length l,
   set_heap (fun _ => h ++ <[j := {| settled := None;
        reactions := rs ++ [{| on_fulfilled := f; on_rejected := g;
                               target := length h + length l |}] |}]>
                         (l ++ [{| settled := None; reactions := [] |}])) s).
Proof.
  intros Hh -> Hj. unfold then_, bind, new_promise, ret.
  erewrite (subscribe_at _ h (l ++ [{| settled := None; reactions := [] |}]) _ j rs);
    [| simpl; by rewrite Hh, <- app_assoc | done | by apply lookup_app_l_Some].
  rewrite Hh, length_app. done.
Qed.

Lemma lazyLoad_start k sp s :
  Map_get k (moduleCache s) = None ->
  Map_get k (loadingPromises s) = None ->
  let n := length (heap s) in
  lazyLoad k sp s =
  (n + 3,
   {| moduleCache := moduleCache s;
      loadingPromises := Map_set k (n + 2) (loadingPromises s);
      heap := heap s ++ [ {| settled := None; reactions := [then_loaded k (n + 1)] |};
                          {| settled := None; reactions := [catch_failed k (n + 2)] |};
                          {| settled := None; reactions := [] |};
                          {| settled := None; reactions := [] |} ];
      microtasks := microtasks s ++ [ThenableJob (n + 3) (n + 2)];
      imports := imports s ++ [n];
      hasRequestIdleCallback := hasRequestIdleCallback s;
      idleCallbacks := idleCallbacks s;
      initialized := initialized s;
      links := links s;
      trace := trace s ++ [Invoked k n (n + 1) (n + 2); Requested k (n + 3) (Started (n + 2))] |}).
Proof.
  intros Hc Hl n. unfold lazyLoad.
  cbn [bind ret get]. rewrite Hc, Hl.
  cbn [bind ret get modify log enqueue new_promise import_ async_return_promise].
  unfold bind at 1.
  erewrite (then_at _ (heap s) [_] _ 0); [|simpl; reflexivity|lia|reflexivity].
  unfold bind at 1.
  erewrite (then_at _ (heap s) [_; _] _ 1); [|simpl; reflexivity|simpl; lia|reflexivity].
  cbn [bind ret get modify log enqueue new_promise import_ async_return_promise].
  unfold ret. f_equal.
  - simpl. rewrite !length_app. simpl. lia.
  - apply state_ext; simpl; rewrite ?length_app; simpl; rewrite <- ?app_assoc;
      reflexivity.
Qed.

Lemma lazyLoad_join k sp s l :
  Map_get k (moduleCache s) = None ->
  Map_get k (loadingPromises s) = Some l ->
  let n := length (heap s) in
  lazyLoad k sp s =
  (n, set_trace (fun t => t ++ [Requested k n (Joined l)])
        (set_microtasks (fun q => q ++ [ThenableJob n l])
           (set_heap (fun h => h ++ [{| settled := None; reactions := [] |}]) s))).
Proof.
  intros Hc Hl n. unfold lazyLoad. cbn [bind ret get]. rewrite Hc, Hl. reflexivity.
Qed.

Lemma lazyLoad_cached k sp s v :
  Map_get k (moduleCache s) = Some v ->
  let n := length (heap s) in
  lazyLoad k sp s =
  (n, set_trace (fun t => t ++ [Requested k n (FromCache v)])
        (set_heap (fun h => h ++ [{| settled := Some (Fulfilled v); reactions := [] |}]) s)).
Proof.
  intros Hc n. unfold lazyLoad. cbn [bind ret get]. rewrite Hc. reflexivity.
Qed.

Ltac no_elem :=
  intros;
  match goal with
  | H : _ ∈ [] |- _ => inversion H
  | H : _ ∈ [_] |- _ => apply list_elem_of_singleton in H; discriminate
  end.

Ltac solve_notin :=
  rewrite ?not_elem_of_cons; repeat split; try lia; try apply not_elem_of_nil.

Ltac no_reaction :=
  intros;
  repeat match goal with
  | H : _ \/ _ |- _ => destruct H
  | H : exists _, _ |- _ => destruct H
  | H : _ /\ _ |- _ => destruct H
  end;
  try no_elem;
  match goal with
  | H : [_] !! ?j = Some _ |- _ =>
      destruct j; simpl in H; [injection H as <-|discriminate]
  end;
  simpl in *; no_elem.

Lemma inv_lazyLoad_cached k sp s v :
  Inv s -> Map_get k (moduleCache s) = Some v -> Inv (lazyLoad k sp s).2.
Proof.
  intros HInv Hc. rewrite (lazyLoad_cached k sp s v Hc). simpl.
  eapply (inv_extend s _ [{| settled := Some (Fulfilled v); reactions := [] |}] [] []
            [Requested k (length (heap s)) (FromCache v)] HInv);
    simpl; rewrite ?app_nil_r; try reflexivity.
  - auto.
  - apply NoDup_nil_2.
  - no_elem.
  - no_elem.
  - no_elem.
  - no_reaction.
  - no_reaction.
  - no_elem.
  - apply HInv.
  - auto.
  - apply HInv.
  - intros k'. destruct (String.eqb_spec k' k) as [->|Hne]; [|done].
    unfold key_status. simpl. rewrite Hc. by destruct (decide (v = v)).
  - intros k' x a Ha. apply list_elem_of_singleton in Ha as [= -> -> ->]. simpl.
    split; [|done].
    by apply (status_fresh s _ {| settled := Some (Fulfilled v); reactions := [] |} []).
  - no_reaction.
  - no_elem.
Qed.

Lemma inv_lazyLoad_join k sp s l :
  Inv s -> Map_get k (moduleCache s) = None ->
  Map_get k (loadingPromises s) = Some l -> Inv (lazyLoad k sp s).2.
Proof.
  intros HInv Hc Hl. rewrite (lazyLoad_join k sp s l Hc Hl). simpl.
  set (n := length (heap s)).
  assert (Hsv : served s k l) by (left; by apply (inv_loading _ HInv)).
  assert (Hlt : l < n).
  { destruct (inv_loading _ HInv k l Hl) as (x & Hx & <- & _).
    apply live_target, (inv_pending _ HInv) in Hx. by apply status_Some_lt in Hx. }
  assert (Hst : forall s', heap s' = heap s ++ [{| settled := None; reactions := [] |}] ->
                      status s' n = Some None).
  { intros s' E. by apply (status_fresh s _ {| settled := None; reactions := [] |} []). }
  eapply (inv_extend s _ [{| settled := None; reactions := [] |}] [ThenableJob n l] []
            [Requested k n (Joined l)] HInv);
    simpl; rewrite ?app_nil_r; try reflexivity.
  - auto.
  - apply NoDup_singleton.
  - intros t Ht. apply list_elem_of_singleton in Ht as ->. split; [done|]. by apply Hst.
  - no_elem.
  - intros a b Hab. apply list_elem_of_singleton in Hab as [= -> ->].
    rewrite length_app. fold n. lia.
  - no_reaction.
  - no_reaction.
  - no_elem.
  - apply HInv.
  - auto.
  - apply HInv.
  - intros k'. destruct (String.eqb_spec k' k) as [->|Hne]; [|done].
    unfold key_status. simpl. rewrite Hc, Hl. by destruct (decide (l = l)).
  - intros k' x a Ha. apply list_elem_of_singleton in Ha as [= -> -> ->]. simpl. split.
    + eapply (ex_served s); simpl; eauto.
    + left. split; [by apply Hst|]. left. unfold queued. simpl.
      apply elem_of_app. right. apply list_elem_of_here.
  - no_reaction.
  - no_elem.
Qed.

Lemma inv_lazyLoad_start k sp s :
  Inv s -> Map_get k (moduleCache s) = None ->
  Map_get k (loadingPromises s) = None -> Inv (lazyLoad k sp s).2.
Proof.
  intros HInv Hc Hl. rewrite (lazyLoad_start k sp s Hc Hl). cbv zeta. simpl.
  set (n := length (heap s)).
  set (news := [ {| settled := None; reactions := [then_loaded k (n + 1)] |};
                 {| settled := None; reactions := [catch_failed k (n + 2)] |};
                 {| settled := None; reactions := [] |};
                 {| settled := None; reactions := [] |} ]).
  match goal with |- Inv ?st => set (s' := st) end.
  assert (E : heap s' = heap s ++ news) by done.
  assert (Hreg1 : reg s' (n + 1) (catch_failed k (n + 2))).
  { apply (reg_app_plus s s' news 1 _ _ E eq_refl). apply list_elem_of_here. }
  assert (Hreg0 : reg s' (n + 0) (then_loaded k (n + 1))).
  { apply (reg_app_plus s s' news 0 _ _ E eq_refl). apply list_elem_of_here. }
  assert (Hnew : forall j pr x, news !! j = Some pr -> x ∈ reactions pr ->
            (j = 0 /\ x = then_loaded k (n + 1)) \/ (j = 1 /\ x = catch_failed k (n + 2))).
  { intros j pr x Hj Hx.
    destruct j as [|[|[|[|j]]]]; simpl in Hj; try done; injection Hj as <-;
      simpl in Hx; try (by inversion Hx);
      apply list_elem_of_singleton in Hx; auto. }
  eapply (inv_extend s s' news [ThenableJob (n + 3) (n + 2)] [n]
            [Invoked k n (n + 1) (n + 2); Requested k (n + 3) (Started (n + 2))] HInv);
    try done.
  - intros k' l' Hl'. simpl. rewrite Map_get_set_ne; [done|]. intros ->. congruence.
  - simpl. repeat (apply NoDup_cons; split; [solve_notin|]). apply NoDup_nil_2.
  - intros t Ht. simpl in Ht. fold n.
    assert (Hc3 : t = n + 1 \/ t = n + 2 \/ t = n + 3).
    { repeat (apply elem_of_cons in Ht as [->|Ht]); auto. inversion Ht. }
    split; [lia|].
    destruct Hc3 as [->|[->| ->]]; by rewrite (status_app_plus s s' news _ E).
  - intros i Hi. apply list_elem_of_singleton in Hi as ->. fold n.
    rewrite E, length_app. fold n. simpl. split; [lia|]. split; [lia|].
    solve_notin.
  - intros a b Hab. apply list_elem_of_singleton in Hab as [= -> ->].
    rewrite E, length_app. fold n. simpl. lia.
  - intros x k' [(j & pr & Hj & Hx)|[o Ho]] Hf.
    + destruct (Hnew _ _ _ Hj Hx) as [[-> ->]|[-> ->]]; [|done].
      simpl in Hf. injection Hf as <-. split; [done|]. simpl. eauto.
    + apply list_elem_of_singleton in Ho. done.
  - intros j pr x k' Hj Hx Hg.
    destruct (Hnew _ _ _ Hj Hx) as [[-> ->]|[-> ->]]; [done|].
    simpl in Hg. injection Hg as <-. split; [done|]. split.
    + simpl. apply Map_get_set_eq.
    + exists (then_loaded k (n + 1)). split; [|done]. left. eauto.
  - intros x o k' Ho. apply list_elem_of_singleton in Ho. done.
  - intros k' v. simpl. intros Hv. rewrite Map_get_set_ne; [by apply (inv_exclusive _ HInv k' v)|].
    intros ->. congruence.
  - intros k' l'. simpl. destruct (decide (k = k')) as [<-|Hne].
    + rewrite Map_get_set_eq. intros [= <-]. right.
      exists (catch_failed k (n + 2)). split; [|done]. left. eauto.
    + rewrite Map_get_set_ne by done. auto.
  - simpl. apply Map_keys_set_nodup, HInv.
  - intros k'. simpl. destruct (String.eqb_spec k' k) as [->|Hne].
    + unfold key_status. simpl. rewrite Hc, Hl, Map_get_set_eq.
      by rewrite decide_True.
    + f_equal. symmetry. apply key_status_eq; simpl; [done|].
      apply Map_get_set_ne. congruence.
  - intros k' x a Ha.
    apply elem_of_cons in Ha as [[=]|Ha].
    apply list_elem_of_singleton in Ha as [= -> -> ->]. simpl. split.
    + left. exists (catch_failed k (n + 2)). split; [|done]. left. eauto.
    + left. split; [by rewrite (status_app_plus s s' news _ E)|].
      left. unfold queued. simpl. apply elem_of_app. right. apply list_elem_of_here.
  - intros j pr x Hj Hx Hf. by destruct (Hnew _ _ _ Hj Hx) as [[-> ->]|[-> ->]].
  - intros x v' Ho. apply list_elem_of_singleton in Ho. done.
Qed.

(** [lazyLoad] preserves the invariant; its result is allocated and
    recorded as a request for its key. *)
Lemma inv_lazyLoad k sp s :
  Inv s ->
  Inv (lazyLoad k sp s).2 /\
  (lazyLoad k sp s).1 < length (heap (lazyLoad k sp s).2) /\
  exists a, Requested k (lazyLoad k sp s).1 a ∈ trace (lazyLoad k sp s).2.
Proof.
  intros HInv. destruct (Map_get k (moduleCache s)) as [v|] eqn:Hc;
    [|destruct (Map_get k (loadingPromises s)) as [l|] eqn:Hl].
  - split; [by eapply inv_lazyLoad_cached|].
    rewrite (lazyLoad_cached k sp s v Hc). simpl. rewrite length_app. simpl.
    split; [lia|]. eexists. apply elem_of_app. right. apply list_elem_of_here.
  - split; [by eapply inv_lazyLoad_join|].
    rewrite (lazyLoad_join k sp s l Hc Hl). simpl. rewrite length_app. simpl.
    split; [lia|]. eexists. apply elem_of_app. right. apply list_elem_of_here.
  - split; [by eapply inv_lazyLoad_start|].
    rewrite (lazyLoad_start k sp s Hc Hl). simpl. rewrite length_app. simpl.
    split; [lia|]. eexists. apply elem_of_app. right.
    apply elem_of_cons. right. apply list_elem_of_here.
Qed.


(** ** Awaiting a result, and the exported functions *)

Lemma inv_new_promise s : Inv s -> Inv (new_promise None s).2.
Proof.
  intros HInv. simpl.
  eapply (inv_extend s _ [{| settled := None; reactions := [] |}] [] [] [] HInv);
    simpl; rewrite ?app_nil_r; try done; try apply HInv; auto.
  - apply NoDup_nil_2.
  - intros t Ht. inversion Ht.
  - intros i Hi. inversion Hi.
  - intros a b Hab. inversion Hab.
  - intros x k' [(j & pr & Hj & Hx)|[o Ho]] _; [|inversion Ho].
    destruct j as [|j]; simpl in Hj; [|done]. injection Hj as <-. inversion Hx.
  - intros j pr x k' Hj Hx _.
    destruct j as [|j]; simpl in Hj; [|done]. injection Hj as <-. inversion Hx.
  - intros x o k' Ho. inversion Ho.
  - intros x k' a Ha. inversion Ha.
  - intros j pr x Hj Hx _.
    destruct j as [|j]; simpl in Hj; [|done]. injection Hj as <-. inversion Hx.
  - intros x v' Ho. inversion Ho.
Qed.

Lemma subscribe_heap_length s p x :
  length (heap (subscribe p x s).2) = length (heap s).
Proof.
  unfold subscribe. destruct (heap s !! p) as [[[o|] rs]|]; simpl; [done| |done].
  by rewrite length_insert.
Qed.

(** [p.then(f, g)] for handlers other than those of lazyLoad. *)
Lemma inv_then_ s p f g :
  Inv s -> p < length (heap s) ->
  (forall k, f <> Some (on_loaded k)) -> (forall k, g <> Some (on_failed k)) ->
  (f = Some after_mermaid -> exists a, Requested "mermaid" p a ∈ trace s) ->
  Inv (then_ p f g s).2 /\
  (then_ p f g s).1 < length (heap (then_ p f g s).2).
Proof.
  intros HInv Hp Hf Hg Hmer.
  set (s1 := (new_promise None s).2).
  set (x := {| on_fulfilled := f; on_rejected := g; target := length (heap s) |}).
  assert (Hthen : then_ p f g s = (length (heap s), (subscribe p x s1).2)).
  { unfold then_, bind, ret, s1, x. simpl. by destruct (subscribe _ _ _). }
  rewrite Hthen. simpl.
  pose proof (inv_new_promise s HInv) as HInv1. fold s1 in HInv1.
  assert (Hfresh : forall t, t ∈ targets s1 -> t < length (heap s)).
  { intros t Ht. unfold s1, targets in Ht. simpl in Ht.
    rewrite heap_targets_app in Ht. simpl in Ht. rewrite app_nil_r in Ht.
    apply (inv_pending _ HInv) in Ht. by apply status_Some_lt in Ht. }
  assert (Hlen : length (heap s1) = S (length (heap s))).
  { unfold s1. simpl. rewrite length_app. simpl. lia. }
  split.
  - apply (inv_subscribe s1 s1 p x HInv1); auto.
    + apply NoDup_cons. split; [|apply HInv1].
      intros Hin. apply Hfresh in Hin. simpl in Hin. lia.
    + simpl. by apply (status_fresh s _ {| settled := None; reactions := [] |} []).
    + simpl. intros Hin. destruct (inv_imports _ HInv _ Hin). lia.
    + lia.
  - rewrite subscribe_heap_length. lia.
Qed.

(** The shape of the four exported loaders. *)
Lemma inv_load k sp f s :
  Inv s -> is_after f -> (f = after_mermaid -> k = "mermaid") ->
  let c := (r <- lazyLoad k sp ;; then_ r (Some f) None) in
  Inv (c s).2 /\ (c s).1 < length (heap (c s).2).
Proof.
  intros HInv Hf Hk c. unfold c, bind.
  destruct (inv_lazyLoad k sp s HInv) as (HInv1 & Hlt & a & Ha).
  destruct (lazyLoad k sp s) as [r s1]. simpl in *.
  apply inv_then_; auto.
  - intros k' [= ->]. done.
  - intros [= ->]. rewrite <- (Hk eq_refl). eauto.
Qed.

Lemma inv_loadMermaid s :
  Inv s -> Inv (loadMermaid s).2 /\ (loadMermaid s).1 < length (heap (loadMermaid s).2).
Proof. intros H. by apply (inv_load "mermaid" "mermaid" after_mermaid). Qed.

Lemma inv_loadKaTeX s :
  Inv s -> Inv (loadKaTeX s).2 /\ (loadKaTeX s).1 < length (heap (loadKaTeX s).2).
Proof. intros H. by apply (inv_load "katex" "katex" after_katex). Qed.

Lemma inv_loadHtml2Pdf s : Inv s -> Inv (loadHtml2Pdf s).2.
Proof. intros H. by apply (inv_load "html2pdf" "html2pdf.js" after_html2pdf). Qed.

Lemma inv_loadDocx s : Inv s -> Inv (loadDocx s).2.
Proof. intros H. by apply (inv_load "docx" "docx" after_docx). Qed.

Lemma inv_swallowed (c : M pid) s :
  Inv (c s).2 /\ (c s).1 < length (heap (c s).2) ->
  Inv ((p <- c ;; _ <- then_ p None (Some swallow) ;; ret tt) s).2.
Proof.
  intros [HInv Hlt]. unfold bind. destruct (c s) as [p s1]. simpl in *.
  destruct (inv_then_ s1 p None (Some swallow) HInv Hlt) as [H _]; try done.
  by destruct (then_ p None (Some swallow) s1).
Qed.

Lemma inv_preload_each modules : forall s, Inv s -> Inv (preload_each modules s).2.
Proof.
  induction modules as [|m rest IH]; intros s HInv; [done|].
  simpl. unfold bind at 1.
  destruct (String.eqb m "mermaid"); [|destruct (String.eqb m "katex")].
  - pose proof (inv_swallowed loadMermaid s (inv_loadMermaid s HInv)) as H.
    destruct ((p <- loadMermaid;; _ <- then_ p None (Some swallow);; ret ()) s).
    by apply IH.
  - pose proof (inv_swallowed loadKaTeX s (inv_loadKaTeX s HInv)) as H.
    destruct ((p <- loadKaTeX;; _ <- then_ p None (Some swallow);; ret ()) s).
    by apply IH.
  - by apply IH.
Qed.

Lemma inv_idle f s : Inv s -> Inv (set_idleCallbacks f s).
Proof. intros H. constructor; apply H. Qed.

(** ** Every step, and so every run, preserves the invariant *)

Lemma inv_init ric page_links : Inv (init ric page_links).
Proof.
  constructor; simpl; try done; try apply NoDup_nil_2.
  - intros t Ht. inversion Ht.
  - intros i Hi. inversion Hi.
  - intros t p Ht. inversion Ht.
  - intros r k [[p (pr & Hp & _)]|[o Ho]]; [done|inversion Ho].
  - intros p r k (pr & Hp & _). done.
  - intros r o k Ho. inversion Ho.
  - intros k r a Ha. inversion Ha.
  - intros p r (pr & Hp & _). done.
  - intros r v Ho. inversion Ho.
  - intros m Hm. inversion Hm.
Qed.

Lemma inv_step l s : Inv s -> Inv (step l s).
Proof.
  intros HInv. destruct l as [| | | |modules|n|i m|i e| |x]; simpl.
  - by apply inv_loadMermaid.
  - by apply inv_loadKaTeX.
  - by apply inv_loadHtml2Pdf.
  - by apply inv_loadDocx.
  - unfold preloadInBackground, bind, get. simpl.
    destruct (hasRequestIdleCallback s); [by apply inv_idle|done].
  - destruct (idleCallbacks s !! n); [|done].
    by apply inv_preload_each, inv_idle.
  - by apply inv_host_step.
  - by apply inv_host_step.
  - by apply inv_step_microtask.
  - by apply inv_step_microtask.
Qed.

Lemma inv_exec ls : forall s, Inv s -> Inv (exec ls s).
Proof.
  induction ls as [|l ls IH]; intros s HInv; [done|].
  simpl. apply IH. by apply inv_step.
Qed.

Theorem inv_reachable ric page_links ls : Inv (exec ls (init ric page_links)).
Proof. apply inv_exec, inv_init. Qed.


(** ** The history only grows *)

Lemma subscribe_trace p x s : trace (subscribe p x s).2 = trace s.
Proof. unfold subscribe. by destruct (heap s !! p) as [[[o|] rs]|]. Qed.

Lemma settle_trace p o s : trace (settle p o s).2 = trace s.
Proof. unfold settle. by destruct (heap s !! p) as [[[o'|] rs]|]. Qed.

Lemma then_trace p f g s : trace (then_ p f g s).2 = trace s.
Proof.
  unfold then_, bind, ret. simpl.
  match goal with
  | |- context [subscribe ?p ?x ?s0] =>
      pose proof (subscribe_trace p x s0) as H; destruct (subscribe p x s0) as [[] s1]
  end.
  done.
Qed.

Lemma requested_app a b : requested (a ++ b) = requested a ++ requested b.
Proof.
  induction a as [|e a IH]; simpl; [done|]. destruct e; simpl; by rewrite ?IH.
Qed.

(** A lazyLoad call logs its request last, after the invocation if it made
    one. *)
Lemma lazyLoad_trace k sp s :
  exists evs a,
    trace (lazyLoad k sp s).2 = trace s ++ evs ++ [Requested k (lazyLoad k sp s).1 a] /\
    (evs = [] \/ exists i t l, evs = [Invoked k i t l] /\ a = Started l).
Proof.
  destruct (Map_get k (moduleCache s)) as [v|] eqn:Hc;
    [|destruct (Map_get k (loadingPromises s)) as [l|] eqn:Hl].
  - rewrite (lazyLoad_cached k sp s v Hc). simpl. exists [], (FromCache v). auto.
  - rewrite (lazyLoad_join k sp s l Hc Hl). simpl. exists [], (Joined l). auto.
  - rewrite (lazyLoad_start k sp s Hc Hl). simpl.
    eexists [_], _. split; [reflexivity|]. right. eauto.
Qed.

Lemma load_trace k sp f s :
  let c := (r <- lazyLoad k sp ;; then_ r (Some f) None) in
  exists evs, trace (c s).2 = trace s ++ evs /\ requested evs = [k].
Proof.
  intros c. unfold c, bind.
  destruct (lazyLoad_trace k sp s) as (evs & a & Ht & Hevs).
  destruct (lazyLoad k sp s) as [r s1]. simpl in *.
  rewrite then_trace, Ht. exists (evs ++ [Requested k r a]). split; [done|].
  rewrite requested_app. simpl.
  destruct Hevs as [->|(i & t & l & -> & _)]; done.
Qed.

Lemma swallowed_trace (c : M pid) s :
  trace ((p <- c ;; _ <- then_ p None (Some swallow) ;; ret tt) s).2 = trace (c s).2.
Proof.
  unfold bind. destruct (c s) as [p s1]. simpl.
  pose proof (then_trace p None (Some swallow) s1) as H.
  by destruct (then_ p None (Some swallow) s1) as [q s2].
Qed.

Lemma preload_each_trace modules : forall s,
  exists evs, trace (preload_each modules s).2 = trace s ++ evs /\
              requested evs = List.filter preloadable modules.
Proof.
  induction modules as [|m rest IH]; intros s; simpl.
  - exists []. by rewrite app_nil_r.
  - unfold bind at 1. unfold preloadable at 1.
    destruct (String.eqb m "mermaid") eqn:E1; [|destruct (String.eqb m "katex") eqn:E2].
    + apply String.eqb_eq in E1 as ->.
      pose proof (swallowed_trace loadMermaid s) as Hsw.
      destruct (load_trace "mermaid" "mermaid" after_mermaid s) as (evs & Ht & Hr).
      fold loadMermaid in Ht. rewrite Ht in Hsw.
      destruct ((p <- loadMermaid;; _ <- then_ p None (Some swallow);; ret ()) s) as [[] s1].
      simpl in Hsw. destruct (IH s1) as (evs' & Ht' & Hr').
      exists (evs ++ evs'). rewrite Ht', Hsw, requested_app, Hr, Hr', app_assoc. done.
    + apply String.eqb_eq in E2 as ->.
      pose proof (swallowed_trace loadKaTeX s) as Hsw.
      destruct (load_trace "katex" "katex" after_katex s) as (evs & Ht & Hr).
      fold loadKaTeX in Ht. rewrite Ht in Hsw.
      destruct ((p <- loadKaTeX;; _ <- then_ p None (Some swallow);; ret ()) s) as [[] s1].
      simpl in Hsw. destruct (IH s1) as (evs' & Ht' & Hr').
      exists (evs ++ evs'). rewrite Ht', Hsw, requested_app, Hr, Hr', app_assoc. done.
    + simpl. apply IH.
Qed.

Lemma trace_run_microtask x s : exists evs, trace (run_microtask x s) = trace s ++ evs.
Proof.
  unfold run_microtask. destruct (microtasks s) as [|[r o|a b] q] eqn:Hq.
  - exists []. by rewrite app_nil_r.
  - unfold run_job, bind.
    pose proof (handle_handled x r o (set_microtasks (fun _ => q) s)) as Hh.
    destruct (handle x r o _) as [o' s1]. simpl in Hh. rewrite settle_trace.
    destruct Hh as [? ? _ _ _ _ _ -> _|? ? _ _ _ _ _ -> _
                   |? _ _ _ _ _ -> _|evs _ _ _ _ _ -> _ _]; simpl; eauto.
  - exists []. rewrite app_nil_r. simpl. by rewrite subscribe_trace.
Qed.

Lemma trace_step l s : exists evs, trace (step l s) = trace s ++ evs.
Proof.
  destruct l as [| | | |modules|n|i m|i e| |x]; simpl;
    try apply trace_run_microtask.
  - destruct (load_trace "mermaid" "mermaid" after_mermaid s) as (evs & Ht & _). eauto.
  - destruct (load_trace "katex" "katex" after_katex s) as (evs & Ht & _). eauto.
  - destruct (load_trace "html2pdf" "html2pdf.js" after_html2pdf s) as (evs & Ht & _). eauto.
  - destruct (load_trace "docx" "docx" after_docx s) as (evs & Ht & _). eauto.
  - exists []. rewrite app_nil_r. unfold preloadInBackground, bind, get. simpl.
    by destruct (hasRequestIdleCallback s).
  - destruct (idleCallbacks s !! n) as [req|]; [|exists []; by rewrite app_nil_r].
    destruct (preload_each_trace (idle_modules req)
                (set_idleCallbacks (fun l => take n l ++ drop (S n) l) s)) as (evs & Ht & _).
    eauto.
  - exists []. rewrite app_nil_r. unfold host_settle, bind, get. simpl.
    destruct (bool_decide _); [apply settle_trace|done].
  - exists []. rewrite app_nil_r. unfold host_settle, bind, get. simpl.
    destruct (bool_decide _); [apply settle_trace|done].
Qed.

Lemma trace_exec ls : forall s, exists evs, trace (exec ls s) = trace s ++ evs.
Proof.
  induction ls as [|l ls IH]; intros s; simpl.
  - exists []. by rewrite app_nil_r.
  - destruct (trace_step l s) as [evs1 H1]. destruct (IH (step l s)) as [evs2 H2].
    exists (evs1 ++ evs2). by rewrite H2, H1, app_assoc.
Qed.


Lemma answers_elem k evs r a :
  (r, a) ∈ answers k evs <-> Requested k r a ∈ evs.
Proof.
  induction evs as [|e evs IH]; simpl.
  - split; intros H; inversion H.
  - destruct e as [k' i t l|k' v|k' e|k' r' a'|m|h|mth eth];
      try (rewrite elem_of_cons, IH; split; [by right|by intros [?|?]]).
    destruct (String.eqb_spec k k') as [->|Hne].
    + rewrite !elem_of_cons, IH. split; intros [[= -> ->]|?]; auto.
    + rewrite elem_of_cons, IH. split; [by right|].
      intros [[= -> -> ->]|?]; [done|auto].
Qed.

Lemma key_step_not_about k st e : about k e = false -> key_step k st e = Some st.
Proof.
  destruct e as [k'| k'| k'| k'| | |]; simpl; try done;
    unfold about, is_settlement; simpl; rewrite ?orb_false_r; by intros ->.
Qed.

(** [Loaded] is final. *)
Lemma run_loaded k v evs : forall st,
  key_run k (Loaded v) evs = Some st ->
  st = Loaded v /\ invocations k evs = [] /\
  existsb (is_settlement k) evs = false /\
  forall r a, (r, a) ∈ answers k evs -> a = FromCache v.
Proof.
  induction evs as [|e evs IH]; intros st; simpl.
  - intros [= <-]. repeat split; auto. intros r a H. inversion H.
  - destruct e as [k' i t l|k' v'|k' e'|k' r' a'|m|h|mth eth]; simpl;
      unfold is_settlement; simpl; try apply IH;
      destruct (String.eqb_spec k k') as [->|Hne]; simpl; try done; try apply IH.
    destruct a' as [v'|l|l]; try done.
    destruct (decide (v = v')) as [<-|]; [|done].
    intros H. destruct (IH _ H) as (-> & Hi & Hs & Ha). repeat split; auto.
    intros r a Hin. apply elem_of_cons in Hin as [[= -> ->]|Hin]; eauto.
Qed.




Lemma existsb_settlement k evs :
  existsb (is_settlement k) evs =
  existsb (is_cache_set k) evs || existsb (is_failure k) evs.
Proof.
  induction evs as [|e evs IH]; simpl; [done|]. rewrite IH. unfold is_settlement.
  destruct (is_cache_set k e), (is_failure k e), (existsb (is_cache_set k) evs); done.
Qed.

(** The cache against the history. *)
Lemma run_cache_set k evs : forall st0 st,
  key_run k st0 evs = Some st -> is_Loaded st0 = false ->
  forall v, st = Loaded v <-> CacheSet k v ∈ evs.
Proof.
  induction evs as [|e evs IH]; intros st0 st; simpl.
  - intros [= <-] H0 v. split; [by intros ->|intros H; inversion H].
  - destruct (key_step k st0 e) as [st1|] eqn:E; [|done]. intros H H0 v.
    rewrite elem_of_cons.
    destruct e as [k' i t l'|k' v'|k' e'|k' r' a'|m|h|mth eth]; simpl in *;
      try (injection E as <-; rewrite (IH _ _ H H0 v); split; [auto|intros [[=]|?]; auto]).
    + destruct (String.eqb_spec k k') as [->|Hne].
      * destruct st0; try done. injection E as <-.
        rewrite (IH _ _ H eq_refl v). split; [auto|intros [[=]|?]; auto].
      * injection E as <-. rewrite (IH _ _ H H0 v). split; [auto|intros [[=]|?]; auto].
    + destruct (String.eqb_spec k k') as [->|Hne].
      * destruct st0 as [|l [|]|v0]; try done. injection E as <-.
        destruct (run_loaded _ _ _ _ H) as (-> & _ & Hs & _). split.
        -- intros [= ->]. auto.
        -- intros [[= ->]|Hin]; [done|]. exfalso.
           rewrite existsb_settlement in Hs. apply orb_false_iff in Hs as [Hs _].
           assert (Hex : existsb (is_cache_set k') evs = true).
           { apply existsb_exists. exists (CacheSet k' v). split.
             - by apply list_elem_of_In.
             - simpl. apply String.eqb_refl. }
           congruence.
      * injection E as <-. rewrite (IH _ _ H H0 v). split; [auto|].
        intros [[= -> ->]|?]; [done|auto].
    + destruct (String.eqb_spec k k') as [->|Hne].
      * destruct st0 as [|l [|]|v0]; try done. injection E as <-.
        rewrite (IH _ _ H eq_refl v). split; [auto|intros [[=]|?]; auto].
      * injection E as <-. rewrite (IH _ _ H H0 v). split; [auto|intros [[=]|?]; auto].
    + destruct (String.eqb_spec k k') as [->|Hne].
      * assert (st1 = st0 \/ exists l, st0 = Loading l true /\ st1 = Loading l false)
          as [->|(l & -> & ->)].
        { destruct st0 as [|l [|]|v0], a' as [v'|l1|l1]; try done;
            repeat case_decide; try done; injection E as <-; eauto. }
        -- rewrite (IH _ _ H H0 v). split; [auto|intros [[=]|?]; auto].
        -- rewrite (IH _ _ H eq_refl v). split; [auto|intros [[=]|?]; auto].
      * injection E as <-. rewrite (IH _ _ H H0 v). split; [auto|intros [[=]|?]; auto].
Qed.

(** At most one cache write per key. *)
Lemma run_cache_writes k evs : forall st0 st,
  key_run k st0 evs = Some st -> is_Loaded st0 = false ->
  length (List.filter (is_cache_set k) evs) = if is_Loaded st then 1 else 0.
Proof.
  induction evs as [|e evs IH]; intros st0 st; simpl.
  - intros [= <-] ->. done.
  - destruct (key_step k st0 e) as [st1|] eqn:E; [|done]. intros H H0.
    destruct (is_cache_set k e) eqn:Ec.
    + destruct e as [k' i t l'|k' v'|k' e'|k' r' a'|m|h|mth eth]; simpl in *; try done.
      rewrite Ec in E. destruct st0 as [|l [|]|v0]; try done. injection E as <-.
      destruct (run_loaded _ _ _ _ H) as (-> & _ & Hs & _). simpl. f_equal.
      rewrite existsb_settlement in Hs. apply orb_false_iff in Hs as [Hs _].
      clear -Hs. induction evs as [|e evs IH]; simpl in *; [done|].
      apply orb_false_iff in Hs as [-> Hs]. auto.
    + apply (IH st1 st H).
      destruct e as [k' i t l'|k' v'|k' e'|k' r' a'|m|h|mth eth]; simpl in *;
        try (by injection E as <-).
      * destruct (String.eqb k k'); [|by injection E as <-].
        destruct st0; try done. by injection E as <-.
      * rewrite Ec in E. by injection E as <-.
      * destruct (String.eqb k k'); [|by injection E as <-].
        destruct st0 as [|l [|]|v0]; try done. by injection E as <-.
      * destruct (String.eqb k k'); [|by injection E as <-].
        destruct st0 as [|l [|]|v0], a' as [v'|l1|l1]; try done;
          repeat case_decide; try done; by injection E as <-.
Qed.

(** After the failure report of [k], and until [k] is next requested, the
    key is unloaded. *)
Lemma run_after_failure k e evs : forall st0 st,
  key_run k st0 evs = Some st ->
  last (List.filter (about k) evs) = Some (ConsoleError k e) ->
  st = Unloaded.
Proof.
  induction evs as [|e' evs IH] using rev_ind; intros st0 st; [done|].
  rewrite key_run_app, List.filter_app. simpl.
  destruct (key_run k st0 evs) as [st1|] eqn:E; [|done].
  destruct (about k e') eqn:Ea.
  - rewrite last_snoc. intros H [= ->]. simpl in H.
    rewrite String.eqb_refl in H. destruct st1 as [|l [|]|v]; try done.
    by injection H as <-.
  - rewrite app_nil_r, (key_step_not_about _ _ _ Ea). intros [= <-] Hl.
    by apply (IH st0).
Qed.


(** ** Settled promises stay as they are *)

Lemma exec_app ls1 ls2 s : exec (ls1 ++ ls2) s = exec ls2 (exec ls1 s).
Proof. unfold exec. apply fold_left_app. Qed.

Lemma evolves_refl s : evolves s s.
Proof. by split. Qed.

Lemma evolves_trans s1 s2 s3 : evolves s1 s2 -> evolves s2 s3 -> evolves s1 s3.
Proof. intros [H1 T1] [H2 T2]. split; auto. Qed.

Lemma evolves_heap_eq s s' : heap s' = heap s -> evolves s s'.
Proof. intros E. unfold evolves, tidy, status. rewrite E. by split. Qed.

Lemma evolves_app s s' news :
  heap s' = heap s ++ news -> Forall tidy_promise news -> evolves s s'.
Proof.
  intros E Hnews. split.
  - intros p o Hp. pose proof (status_Some_lt _ _ _ Hp) as Hlt.
    unfold status in *. by rewrite E, lookup_app_l.
  - intros Ht p pr Hp. rewrite E in Hp. apply lookup_app_Some in Hp as [Hp|[_ Hp]].
    + by apply (Ht p).
    + rewrite Forall_lookup in Hnews. by apply (Hnews _ _ Hp).
Qed.

Lemma evolves_insert s s' p pr pr' :
  heap s !! p = Some pr -> settled pr = None -> tidy_promise pr' ->
  heap s' = <[p := pr']> (heap s) -> evolves s s'.
Proof.
  intros Hp Hpend Hpr' E. pose proof (lookup_lt_Some _ _ _ Hp) as Hlt. split.
  - intros x o Hx. unfold status, pid in *. rewrite E.
    destruct (decide (x = p)) as [->|Hne].
    + rewrite Hp in Hx. simpl in Hx. congruence.
    + by rewrite list_lookup_insert_ne.
  - intros Ht x prx Hx. rewrite E in Hx.
    destruct (decide (x = p)) as [->|Hne].
    + rewrite list_lookup_insert_eq in Hx by done. by injection Hx as <-.
    + rewrite list_lookup_insert_ne in Hx by done. by apply (Ht x).
Qed.

Lemma tidy_pending rs : tidy_promise {| settled := None; reactions := rs |}.
Proof. by intros H. Qed.

Lemma tidy_empty o : tidy_promise {| settled := o; reactions := [] |}.
Proof. by intros _. Qed.

Ltac tidy_news :=
  repeat (apply List.Forall_cons; [first [apply tidy_pending | apply tidy_empty]|]);
  apply List.Forall_nil.

Lemma evolves_settle p o s : evolves s (settle p o s).2.
Proof.
  unfold settle. destruct (heap s !! p) as [[[o'|] rs]|] eqn:E; simpl;
    try apply evolves_refl.
  eapply evolves_insert; [exact E|done|apply tidy_empty|done].
Qed.

Lemma evolves_subscribe p x s : evolves s (subscribe p x s).2.
Proof.
  unfold subscribe. destruct (heap s !! p) as [[[o'|] rs]|] eqn:E; simpl;
    try apply evolves_refl.
  - by apply evolves_heap_eq.
  - eapply evolves_insert; [exact E|done|apply tidy_pending|done].
Qed.

Lemma evolves_then p f g s : evolves s (then_ p f g s).2.
Proof.
  unfold then_, bind, new_promise, ret.
  match goal with |- context [subscribe ?q ?x ?s1] =>
    pose proof (evolves_subscribe q x s1) as H; destruct (subscribe q x s1) as [[] s2]
  end. simpl in *.
  eapply evolves_trans; [|exact H].
  eapply evolves_app; [simpl; reflexivity|]. tidy_news.
Qed.

Lemma evolves_lazyLoad k sp s : evolves s (lazyLoad k sp s).2.
Proof.
  destruct (Map_get k (moduleCache s)) as [v|] eqn:Hc;
    [|destruct (Map_get k (loadingPromises s)) as [l|] eqn:Hl].
  - rewrite (lazyLoad_cached k sp s v Hc). simpl.
    eapply evolves_app; [simpl; reflexivity|]. tidy_news.
  - rewrite (lazyLoad_join k sp s l Hc Hl). simpl.
    eapply evolves_app; [simpl; reflexivity|]. tidy_news.
  - rewrite (lazyLoad_start k sp s Hc Hl). simpl.
    eapply evolves_app; [simpl; reflexivity|]. tidy_news.
Qed.

Lemma evolves_load k sp f s :
  evolves s ((r <- lazyLoad k sp ;; then_ r (Some f) None) s).2.
Proof.
  unfold bind. pose proof (evolves_lazyLoad k sp s) as H.
  destruct (lazyLoad k sp s) as [r s1]. simpl in *.
  eapply evolves_trans; [exact H|apply evolves_then].
Qed.

Lemma evolves_swallowed (c : M pid) s :
  evolves s (c s).2 ->
  evolves s ((p <- c ;; _ <- then_ p None (Some swallow) ;; ret tt) s).2.
Proof.
  intros H. unfold bind, ret. destruct (c s) as [p s1]. simpl in *.
  pose proof (evolves_then p None (Some swallow) s1) as H1.
  destruct (then_ p None (Some swallow) s1) as [q s2]. simpl in *.
  by eapply evolves_trans.
Qed.

Lemma evolves_preload_each modules : forall s, evolves s (preload_each modules s).2.
Proof.
  induction modules as [|m rest IH]; intros s; simpl; [apply evolves_refl|].
  unfold bind at 1.
  destruct (String.eqb m "mermaid"); [|destruct (String.eqb m "katex")].
  - pose proof (evolves_swallowed loadMermaid s (evolves_load _ _ _ s)) as H.
    destruct ((p <- loadMermaid;; _ <- then_ p None (Some swallow);; ret ()) s) as [[] s1].
    eapply evolves_trans; [exact H|apply IH].
  - pose proof (evolves_swallowed loadKaTeX s (evolves_load _ _ _ s)) as H.
    destruct ((p <- loadKaTeX;; _ <- then_ p None (Some swallow);; ret ()) s) as [[] s1].
    eapply evolves_trans; [exact H|apply IH].
  - apply IH.
Qed.

Lemma evolves_run_job x j s : evolves s (run_job x j s).2.
Proof.
  destruct j as [r o|t p]; simpl; [|apply evolves_subscribe].
  unfold bind. destruct (handle_frame x r o s) as (Hh & _ & _).
  destruct (handle x r o s) as [o' s1]. simpl in *.
  eapply evolves_trans; [by apply evolves_heap_eq|apply evolves_settle].
Qed.

Lemma evolves_run_microtask x s : evolves s (run_microtask x s).
Proof.
  unfold run_microtask. destruct (microtasks s) as [|j q]; [apply evolves_refl|].
  eapply evolves_trans; [|apply evolves_run_job]. by apply evolves_heap_eq.
Qed.

Lemma evolves_step l s : evolves s (step l s).
Proof.
  destruct l as [| | | |modules|n|i m|i e| |x]; simpl; try apply evolves_load;
    try apply evolves_run_microtask.
  - unfold preloadInBackground, bind, get. simpl.
    destruct (hasRequestIdleCallback s); [by apply evolves_heap_eq|apply evolves_refl].
  - destruct (idleCallbacks s !! n); [|apply evolves_refl].
    eapply evolves_trans; [|apply evolves_preload_each]. by apply evolves_heap_eq.
  - unfold host_settle, bind, get.
    destruct (bool_decide _); [apply evolves_settle|apply evolves_refl].
  - unfold host_settle, bind, get.
    destruct (bool_decide _); [apply evolves_settle|apply evolves_refl].
Qed.

Lemma evolves_exec ls : forall s, evolves s (exec ls s).
Proof.
  induction ls as [|l ls IH]; intros s; [apply evolves_refl|].
  simpl. eapply evolves_trans; [apply evolves_step|apply IH].
Qed.

Lemma tidy_reachable ric page_links ls : tidy (exec ls (init ric page_links)).
Proof. apply evolves_exec. intros p pr Hp. inversion Hp. Qed.

Lemma settled_exec ls s p o :
  status s p = Some (Some o) -> status (exec ls s) p = Some (Some o).
Proof. apply evolves_exec. Qed.

(** ** The microtask queue drains in order *)

Lemma subscribe_queue p x s :
  exists new, microtasks (subscribe p x s).2 = microtasks s ++ new.
Proof.
  unfold subscribe. destruct (heap s !! p) as [[[o|] rs]|]; simpl.
  - by exists [ReactionJob x o].
  - exists []. by rewrite app_nil_r.
  - exists []. by rewrite app_nil_r.
Qed.

Lemma settle_queue p o s :
  exists new, microtasks (settle p o s).2 = microtasks s ++ new.
Proof.
  unfold settle. destruct (heap s !! p) as [[[o'|] rs]|]; simpl; eauto;
    exists []; by rewrite app_nil_r.
Qed.

Lemma run_microtask_queue x s j q :
  microtasks s = j :: q -> exists new, microtasks (run_microtask x s) = q ++ new.
Proof.
  intros E. unfold run_microtask. rewrite E. destruct j as [r o|t p]; simpl.
  - unfold bind. set (s0 := set_microtasks (fun _ => q) s).
    destruct (handle_frame x r o s0) as (_ & Hq & _).
    destruct (handle x r o s0) as [o' s1]. simpl in *.
    destruct (settle_queue (target r) o' s1) as [new Hnew]. exists new.
    by rewrite Hnew, Hq.
  - apply (subscribe_queue p _ (set_microtasks (fun _ => q) s)).
Qed.

Lemma microtask_queue s j q :
  microtasks s = j :: q -> exists new, microtasks (step Microtask s) = q ++ new.
Proof. apply run_microtask_queue. Qed.

Lemma exec_cons l ls s : exec (l :: ls) s = exec ls (step l s).
Proof. done. Qed.

Lemma drain_S n : drain (S n) = Microtask :: drain n.
Proof. done. Qed.

Lemma drain_add n m s : exec (drain (n + m)) s = exec (drain m) (exec (drain n) s).
Proof. unfold drain. by rewrite repeat_app, exec_app. Qed.

(** A job at position [length pre] is at the head after that many microtasks. *)
Lemma drain_to_head pre : forall s j post,
  microtasks s = pre ++ j :: post ->
  exists new, microtasks (exec (drain (length pre)) s) = j :: post ++ new.
Proof.
  induction pre as [|j0 pre IH]; intros s j post E.
  - exists []. by rewrite app_nil_r.
  - destruct (microtask_queue s j0 (pre ++ j :: post) E) as [new Hnew].
    rewrite <- app_assoc in Hnew. cbn [app] in Hnew.
    destruct (IH (step Microtask s) j (post ++ new) Hnew) as [new' Hnew'].
    exists (new ++ new'). cbn [length]. rewrite drain_S, exec_cons, Hnew'.
    by rewrite <- app_assoc.
Qed.

(** The job that hands an outcome on settles its target with it. *)
Lemma forward_job_settles s r o q :
  Inv s -> microtasks s = ReactionJob (forward r) o :: q ->
  status (step Microtask s) r = Some (Some o).
Proof.
  intros HInv E.
  assert (Hpend : status s r = Some None).
  { apply (inv_pending _ HInv). unfold targets. rewrite E. apply elem_of_app. right.
    simpl. by left. }
  apply status_pending in Hpend as [rs Hrs].
  simpl. rewrite E. simpl. unfold bind.
  assert (Hh : handle None (forward r) o (set_microtasks (fun _ => q) s) =
               (o, set_microtasks (fun _ => q) s)) by (by destruct o).
  rewrite Hh. simpl.
  rewrite (settle_status _ _ _ rs) by done. by rewrite decide_True.
Qed.

(** What resolving with a settled promise schedules. *)
Lemma thenable_job_forwards s r l o q :
  microtasks s = ThenableJob r l :: q -> status s l = Some (Some o) ->
  microtasks (step Microtask s) = q ++ [ReactionJob (forward r) o].
Proof.
  intros E Hl. simpl. rewrite E. simpl. unfold subscribe. simpl.
  unfold status in Hl. destruct (heap s !! l) as [[[o'|] rs]|]; simpl in *; try done.
  by injection Hl as ->.
Qed.

Lemma queued_forward_settles s r o :
  Inv s -> queued s (ReactionJob (forward r) o) ->
  exists n, status (exec (drain n) s) r = Some (Some o).
Proof.
  intros HInv Hq. apply list_elem_of_split in Hq as (pre & post & E).
  destruct (drain_to_head pre s _ post E) as [new Hnew].
  exists (length pre + 1). rewrite drain_add.
  change (exec (drain 1) ?x) with (step Microtask x).
  apply (forward_job_settles _ _ _ (post ++ new)); [|done].
  by apply inv_exec.
Qed.

(** Once the promise it was resolved with has settled, a promise gets that
    outcome when the queue has run far enough. *)
Lemma follows_eventually s r l o :
  Inv s -> tidy s -> follows s r l -> status s l = Some (Some o) ->
  exists n, status (exec (drain n) s) r = Some (Some o).
Proof.
  intros HInv Ht Hf Hl. destruct Hf as [[Hr [Hq|[Hreg|(o' & Hl' & Hq)]]]|(o' & Hr & Hl')].
  - apply list_elem_of_split in Hq as (pre & post & E).
    destruct (drain_to_head pre s _ post E) as [new Hnew].
    set (s1 := exec (drain (length pre)) s) in *.
    assert (HInv1 : Inv s1) by (by apply inv_exec).
    assert (Hl1 : status s1 l = Some (Some o)) by (by apply settled_exec).
    pose proof (thenable_job_forwards _ _ _ _ _ Hnew Hl1) as Hq2.
    assert (HInv2 : Inv (step Microtask s1)) by (by apply inv_step).
    destruct (queued_forward_settles (step Microtask s1) r o HInv2) as [n Hn].
    { unfold queued. rewrite Hq2. apply elem_of_app. right. by left. }
    exists (length pre + (1 + n)). by rewrite !drain_add.
  - destruct Hreg as (pr & Hp & Hx). exfalso.
    assert (reactions pr = []) as Hnil.
    { apply (Ht l pr Hp). unfold status in Hl. rewrite Hp in Hl. simpl in Hl. congruence. }
    rewrite Hnil in Hx. inversion Hx.
  - assert (o' = o) as -> by congruence. by apply queued_forward_settles.
  - exists 0. simpl. congruence.
Qed.


(** * Main results *)

Lemma trace_exec_elem ls s e : e ∈ trace s -> e ∈ trace (exec ls s).
Proof.
  intros He. destruct (trace_exec ls s) as [evs ->]. apply elem_of_app. by left.
Qed.

Lemma history_of_run ric page_links ls k :
  key_run k Unloaded (trace (exec ls (init ric page_links))) =
  Some (key_status k (exec ls (init ric page_links))).
Proof. apply inv_history, inv_reachable. Qed.

Lemma key_status_Loading k s :
  Inv s ->
  is_Loading (key_status k s) = true <-> Map_get k (loadingPromises s) <> None.
Proof.
  intros HInv. unfold key_status.
  destruct (Map_get k (moduleCache s)) as [v|] eqn:Hc.
  - rewrite (inv_exclusive _ HInv _ _ Hc). simpl. split; done.
  - destruct (Map_get k (loadingPromises s)); simpl; split; done.
Qed.

Lemma key_status_Loaded k s v :
  key_status k s = Loaded v <-> Map_get k (moduleCache s) = Some v.
Proof.
  unfold key_status. destruct (Map_get k (moduleCache s)) as [v'|].
  - split; congruence.
  - destruct (Map_get k (loadingPromises s)); split; done.
Qed.

(** Invocations and settlements balance. *)
Lemma run_balance k evs : forall st0 st,
  key_run k st0 evs = Some st ->
  length (invocations k evs) + (if is_Loading st0 then 1 else 0) =
  length (List.filter (is_settlement k) evs) + (if is_Loading st then 1 else 0).
Proof.
  induction evs as [|e evs IH]; intros st0 st.
  - by intros [= <-].
  - cbn [key_run]. destruct (key_step k st0 e) as [st1|] eqn:E; [|done]. intros H.
    specialize (IH _ _ H).
    assert (Hstep :
      length (invocations k [e]) + (if is_Loading st0 then 1 else 0) =
      length (List.filter (is_settlement k) [e]) + (if is_Loading st1 then 1 else 0)).
    { clear IH H.
      destruct e as [k' i t l'|k' v'|k' e'|k' r' a'|m|h|mth eth]; simpl in *;
        unfold is_settlement; simpl;
        try (injection E as <-; lia);
        destruct (String.eqb_spec k k') as [->|Hne]; simpl;
        try (injection E as <-; lia).
      - destruct st0 as [|l [|]|v]; try done. injection E as <-. simpl. lia.
      - destruct st0 as [|l [|]|v]; try done. injection E as <-. simpl. lia.
      - destruct st0 as [|l [|]|v]; try done. injection E as <-. simpl. lia.
      - destruct st0 as [|l [|]|v], a' as [v'|l1|l1]; try done;
          repeat case_decide; try done; injection E as <-; simpl; lia. }
    assert (Hi : length (invocations k (e :: evs)) =
                 length (invocations k [e]) + length (invocations k evs)).
    { simpl. destruct e; simpl; try done. by destruct (String.eqb k moduleName). }
    assert (Hf : length (List.filter (is_settlement k) (e :: evs)) =
                 length (List.filter (is_settlement k) [e])
                 + length (List.filter (is_settlement k) evs)).
    { simpl. by destruct (is_settlement k e). }
    rewrite Hi, Hf. lia.
Qed.

(** C4: in every reachable state a key has a cache entry or a pending
    record or neither, never both; no table lists a key twice; and the
    factory invocations of a key exceed its settlements by one exactly when
    the key has a pending record, by none otherwise, so that no two loads of
    one key are ever pending together. *)
Theorem C4_cache_entry_or_pending_never_both : forall ric page_links ls k,
  let s := exec ls (init ric page_links) in
  Map_has k (moduleCache s) && Map_has k (loadingPromises s) = false /\
  NoDup (Map_keys (moduleCache s)) /\
  NoDup (Map_keys (loadingPromises s)) /\
  length (invocations k (trace s)) =
    length (List.filter (is_settlement k) (trace s)) +
    (if Map_has k (loadingPromises s) then 1 else 0).
Proof.
  intros ric page_links ls k s.
  pose proof (inv_reachable ric page_links ls) as HInv. fold s in HInv.
  split; [|split; [apply HInv|split; [apply HInv|]]].
  - unfold Map_has. destruct (Map_get k (moduleCache s)) as [v|] eqn:Hc; [|done].
    by rewrite (inv_exclusive _ HInv _ _ Hc).
  - pose proof (run_balance k _ _ _ (inv_history _ HInv k)) as Hb. simpl in Hb.
    rewrite Nat.add_0_r in Hb. rewrite Hb. f_equal.
    pose proof (key_status_Loading k s HInv) as Hl. unfold Map_has.
    destruct (is_Loading (key_status k s)), (Map_get k (loadingPromises s));
      try done.
    + by destruct (proj1 Hl eq_refl).
    + by destruct Hl as [_ Hl]; discriminate Hl.
Qed.

(** C8: over a whole run the cache is written at most once per key; it
    holds a value for the key exactly when that write has happened, and the
    entry stays, with that value, in every later state. *)
Theorem C8_cache_entry_written_once : forall ric page_links ls k,
  let s := exec ls (init ric page_links) in
  length (List.filter (is_cache_set k) (trace s)) <= 1 /\
  (forall v, Map_get k (moduleCache s) = Some v <-> CacheSet k v ∈ trace s) /\
  (forall v ls', Map_get k (moduleCache s) = Some v ->
                 Map_get k (moduleCache (exec ls' s)) = Some v).
Proof.
  intros ric page_links ls k s.
  assert (Hall : forall ls0, let s0 := exec ls0 (init ric page_links) in
            forall v, Map_get k (moduleCache s0) = Some v <-> CacheSet k v ∈ trace s0).
  { intros ls0 s0 v. rewrite <- key_status_Loaded.
    apply (run_cache_set k _ _ _ (history_of_run ric page_links ls0 k) eq_refl). }
  split; [|split].
  - unfold s.
    rewrite (run_cache_writes k _ _ _ (history_of_run ric page_links ls k) eq_refl).
    destruct (is_Loaded _); lia.
  - apply Hall.
  - intros v ls' Hc. unfold s. rewrite <- exec_app. apply Hall.
    rewrite exec_app. apply trace_exec_elem. by apply (Hall ls).
Qed.

Lemma nodup_all_equal {A} (l : list A) :
  NoDup l -> (forall x y, x ∈ l -> y ∈ l -> x = y) -> length l <= 1.
Proof.
  intros Hnd Heq. destruct l as [|a [|b l]]; simpl; try lia.
  exfalso. apply NoDup_cons in Hnd as [Hnin _]. apply Hnin.
  rewrite (Heq a b); [apply list_elem_of_here|apply list_elem_of_here|].
  apply elem_of_cons. right. apply list_elem_of_here.
Qed.

Lemma follows_agree s r l o :
  follows s r l -> status s r = Some (Some o) -> status s l = Some (Some o).
Proof. intros [[Hr _]|(o1 & Hr & Hl)] Ho; congruence. Qed.

Lemma served_value s k l v :
  Inv s -> served s k l -> status s l = Some (Some (Fulfilled v)) ->
  Map_get k (moduleCache s) = Some v.
Proof.
  intros HInv [(r & Hlive & Ht & _)|[[e He]|(v' & Hv & Hc)]] Hl.
  - apply live_target in Hlive. rewrite Ht in Hlive.
    apply (inv_pending _ HInv) in Hlive. congruence.
  - congruence.
  - congruence.
Qed.



(** C2: once the cache has been written for key [k], no later lazyLoad call
    for [k] invokes the factory: each is answered from the cache, with a
    promise that is fulfilled with the cached value from the start, and the
    call does nothing else: no import, no job, no change to either table. *)
Theorem C2_cached_value_returned_without_reload :
  forall ric page_links ls1 ls2 k v sp evs,
    let s1 := exec ls1 (init ric page_links) in
    let s2 := exec ls2 s1 in
    CacheSet k v ∈ trace s1 ->
    trace s2 = trace s1 ++ evs ->
    invocations k evs = [] /\
    (forall r a, (r, a) ∈ answers k evs ->
       a = FromCache v /\
       forall ls3, status (exec ls3 s2) r = Some (Some (Fulfilled v))) /\
    lazyLoad k sp s2 =
      (length (heap s2),
       set_trace (fun t => t ++ [Requested k (length (heap s2)) (FromCache v)])
         (set_heap (fun h => h ++ [{| settled := Some (Fulfilled v); reactions := [] |}])
            s2)).
Proof.
  intros ric page_links ls1 ls2 k v sp evs s1 s2 Hset Htr.
  pose proof (history_of_run ric page_links ls1 k) as Hh1. fold s1 in Hh1.
  pose proof (history_of_run ric page_links (ls1 ++ ls2) k) as Hh2.
  rewrite exec_app in Hh2. fold s1 s2 in Hh2.
  assert (Hst1 : key_status k s1 = Loaded v).
  { by apply (run_cache_set k _ _ _ Hh1 eq_refl). }
  rewrite Htr, key_run_app, Hh1, Hst1 in Hh2.
  destruct (run_loaded _ _ _ _ Hh2) as (Hst2 & Hi & _ & Ha).
  split; [done|]. split.
  - intros r a Hin. split; [by apply (Ha r)|]. intros ls3.
    rewrite (Ha _ _ Hin) in Hin. apply answers_elem in Hin.
    assert (Hin3 : Requested k r (FromCache v) ∈ trace (exec ls3 s2)).
    { apply trace_exec_elem. rewrite Htr. apply elem_of_app. by right. }
    assert (HInv3 : Inv (exec ls3 s2)) by (apply (inv_exec ls3), (inv_exec ls2), (inv_exec ls1), inv_init).
    by destruct (inv_requests _ HInv3 _ _ _ Hin3) as [? _].
  - apply lazyLoad_cached. by apply key_status_Loaded.
Qed.

Lemma C2_second_call_witness :
  let s2 := exec [CallLoadMermaid; Microtask] (exec load_succeeds (init true [])) in
  CacheSet "mermaid" (Namespace 7) ∈ trace (exec load_succeeds (init true [])) /\
  lazyLoad "mermaid" "mermaid" s2 =
    (length (heap s2),
     set_trace (fun t => t ++ [Requested "mermaid" (length (heap s2))
                                 (FromCache (Namespace 7))])
       (set_heap (fun h => h ++ [{| settled := Some (Fulfilled (Namespace 7));
                                    reactions := [] |}]) s2)).
Proof.
  assert (H : CacheSet "mermaid" (Namespace 7) ∈ trace (exec load_succeeds (init true []))).
  { vm_compute. repeat constructor. }
  split; [exact H|].
  exact (proj2 (proj2 (C2_cached_value_returned_without_reload true [] load_succeeds
           [CallLoadMermaid; Microtask] "mermaid" (Namespace 7) "mermaid"
           [Requested "mermaid" 5 (FromCache (Namespace 7))] H eq_refl))).
Defined.

Lemma invocations_app k a b : invocations k (a ++ b) = invocations k a ++ invocations k b.
Proof.
  induction a as [|e a IH]; simpl; [done|].
  destruct e as [k' i t l|k' v|k' e'|k' r a'|m|h|mth eth]; simpl; try done.
  destruct (String.eqb k k'); simpl; by rewrite ?IH.
Qed.

Lemma key_status_Unloaded k s :
  key_status k s = Unloaded <->
  Map_get k (moduleCache s) = None /\ Map_get k (loadingPromises s) = None.
Proof.
  unfold key_status.
  destruct (Map_get k (moduleCache s)), (Map_get k (loadingPromises s)); split;
    try done; by intros [? ?].
Qed.

(** C3: a state of a run in which the latest thing that happened to key [k]
    is the failure of its load, with error [e], the catch handler of lazyLoad
    having run.  The cache has no entry for [k] and the in-flight table has
    none: the key is unloaded.  The handler itself deletes the in-flight
    entry, logs, and rethrows; it does not touch the cache.  The next
    lazyLoad call for [k] invokes the factory again: a new import is started,
    a new load promise is entered in the in-flight table, and the history
    gets one more invocation of [k]. *)
Theorem C3_failed_load_is_retried :
  forall ric page_links ls k e sp,
    let s := exec ls (init ric page_links) in
    last (List.filter (about k) (trace s)) = Some (ConsoleError k e) ->
    key_status k s = Unloaded /\
    Map_get k (moduleCache s) = None /\
    Map_get k (loadingPromises s) = None /\
    (forall s0, call_error (on_failed k) e s0 =
       (Rejected e,
        set_trace (fun t => t ++ [ConsoleError k e])
          (set_loadingPromises (Map_delete k) s0))) /\
    let n := length (heap s) in
    let s' := (lazyLoad k sp s).2 in
    trace s' = trace s ++ [Invoked k n (n + 1) (n + 2);
                           Requested k (n + 3) (Started (n + 2))] /\
    invocations k (trace s') = invocations k (trace s) ++ [n + 2] /\
    imports s' = imports s ++ [n] /\
    status s' n = Some None /\
    moduleCache s' = moduleCache s /\
    Map_get k (loadingPromises s') = Some (n + 2) /\
    key_status k s' = Loading (n + 2) false.
Proof.
  intros ric page_links ls k e sp s Hlast.
  pose proof (history_of_run ric page_links ls k) as Hh. fold s in Hh.
  pose proof (run_after_failure _ _ _ _ _ Hh Hlast) as Hst.
  apply key_status_Unloaded in Hst as Hun. destruct Hun as [Hc Hl].
  split; [done|]. split; [done|]. split; [done|]. split; [done|].
  intros n s'. unfold s'. rewrite (lazyLoad_start k sp s Hc Hl). cbn [snd].
  fold n. cbn [trace imports moduleCache loadingPromises].
  split; [done|]. split.
  { rewrite invocations_app. simpl. by rewrite String.eqb_refl. }
  split; [done|]. split.
  { unfold status. cbn [heap]. unfold n.
    rewrite lookup_app_r by lia. by replace (length (heap s) - length (heap s)) with 0 by lia. }
  split; [done|]. split; [apply Map_get_set_eq|].
  unfold key_status. cbn [moduleCache loadingPromises]. by rewrite Hc, Map_get_set_eq.
Qed.

Lemma C3_docx_retry_witness :
  let s := exec load_fails (init true []) in
  key_status "docx" s = Unloaded /\
  invocations "docx" (trace (lazyLoad "docx" "docx" s).2) =
    invocations "docx" (trace s) ++ [length (heap s) + 2].
Proof.
  pose proof (C3_failed_load_is_retried true [] load_fails "docx" (ImportError 1) "docx"
                eq_refl) as H.
  split; [exact (proj1 H)|].
  exact (proj1 (proj2 (proj2 (proj2 (proj2 (proj2 H)))))).
Defined.


(** ** What the idle callback leaves behind *)

Lemma subscribe_tables p x s :
  moduleCache (subscribe p x s).2 = moduleCache s /\
  loadingPromises (subscribe p x s).2 = loadingPromises s /\
  idleCallbacks (subscribe p x s).2 = idleCallbacks s.
Proof. unfold subscribe. by destruct (heap s !! p) as [[[o|] rs]|]. Qed.

Lemma then_tables p f g s :
  moduleCache (then_ p f g s).2 = moduleCache s /\
  loadingPromises (then_ p f g s).2 = loadingPromises s /\
  idleCallbacks (then_ p f g s).2 = idleCallbacks s.
Proof.
  unfold then_, bind, new_promise, ret.
  match goal with |- context [subscribe ?q ?x ?s1] =>
    pose proof (subscribe_tables q x s1) as H; destruct (subscribe q x s1) as [[] s2]
  end. exact H.
Qed.

Lemma lazyLoad_tables k sp s :
  idleCallbacks (lazyLoad k sp s).2 = idleCallbacks s /\
  key_status k (lazyLoad k sp s).2 <> Unloaded /\
  forall k', key_status k' s <> Unloaded -> key_status k' (lazyLoad k sp s).2 <> Unloaded.
Proof.
  destruct (Map_get k (moduleCache s)) as [v|] eqn:Hc;
    [|destruct (Map_get k (loadingPromises s)) as [l|] eqn:Hl].
  - rewrite (lazyLoad_cached k sp s v Hc). simpl. split; [done|]. split; [|done].
    unfold key_status. simpl. by rewrite Hc.
  - rewrite (lazyLoad_join k sp s l Hc Hl). simpl. split; [done|]. split; [|done].
    unfold key_status. simpl. by rewrite Hc, Hl.
  - rewrite (lazyLoad_start k sp s Hc Hl). simpl. split; [done|]. split.
    + unfold key_status. simpl. by rewrite Hc, Map_get_set_eq.
    + intros k' Hk'. destruct (decide (k = k')) as [<-|Hne].
      * exfalso. apply Hk'. by apply key_status_Unloaded.
      * unfold key_status in *. simpl. by rewrite Map_get_set_ne.
Qed.

Lemma swallowed_load_tables k sp f s :
  let c := (p <- (r <- lazyLoad k sp ;; then_ r (Some f) None) ;;
            _ <- then_ p None (Some swallow) ;; ret tt) in
  idleCallbacks (c s).2 = idleCallbacks s /\
  key_status k (c s).2 <> Unloaded /\
  forall k', key_status k' s <> Unloaded -> key_status k' (c s).2 <> Unloaded.
Proof.
  intros c. unfold c, bind, ret.
  destruct (lazyLoad_tables k sp s) as (Hi & Hk & Hmono).
  destruct (lazyLoad k sp s) as [r s1]. simpl in *.
  destruct (then_tables r (Some f) None s1) as (Hc1 & Hl1 & Hi1).
  destruct (then_ r (Some f) None s1) as [p s2]. simpl in *.
  destruct (then_tables p None (Some swallow) s2) as (Hc2 & Hl2 & Hi2).
  destruct (then_ p None (Some swallow) s2) as [q s3]. simpl in *.
  assert (Hks : forall k', key_status k' s3 = key_status k' s1).
  { intros k'. apply key_status_eq; congruence. }
  split; [congruence|]. split; [by rewrite Hks|].
  intros k' Hk'. rewrite Hks. by apply Hmono.
Qed.

Lemma preload_each_tables modules : forall s,
  idleCallbacks (preload_each modules s).2 = idleCallbacks s /\
  (forall k, key_status k s <> Unloaded ->
             key_status k (preload_each modules s).2 <> Unloaded) /\
  (forall k, k ∈ modules -> preloadable k = true ->
             key_status k (preload_each modules s).2 <> Unloaded).
Proof.
  induction modules as [|m rest IH]; intros s; simpl.
  - split; [done|]. split; [done|]. intros k Hk. inversion Hk.
  - unfold bind at 1.
    assert (Hstep : forall (c : M unit),
      idleCallbacks (c s).2 = idleCallbacks s ->
      (forall k, key_status k s <> Unloaded -> key_status k (c s).2 <> Unloaded) ->
      (preloadable m = true -> key_status m (c s).2 <> Unloaded) ->
      idleCallbacks (let (_, s') := c s in preload_each rest s').2 = idleCallbacks s /\
      (forall k, key_status k s <> Unloaded ->
         key_status k (let (_, s') := c s in preload_each rest s').2 <> Unloaded) /\
      (forall k, k ∈ m :: rest -> preloadable k = true ->
         key_status k (let (_, s') := c s in preload_each rest s').2 <> Unloaded)).
    { intros c Hi Hmono Hm. destruct (c s) as [[] s1]. simpl in *.
      destruct (IH s1) as (Hi' & Hmono' & Hrest).
      split; [congruence|]. split; [by auto|].
      intros k Hk Hp. apply elem_of_cons in Hk as [->|Hk]; [|by apply Hrest].
      by apply Hmono', Hm. }
    unfold preloadable at 1.
    destruct (String.eqb m "mermaid") eqn:E1; [|destruct (String.eqb m "katex") eqn:E2].
    + apply String.eqb_eq in E1 as ->.
      destruct (swallowed_load_tables "mermaid" "mermaid" after_mermaid s) as (Hi & Hk & Hmono).
      exact (Hstep _ Hi Hmono (fun _ => Hk)).
    + apply String.eqb_eq in E2 as ->.
      destruct (swallowed_load_tables "katex" "katex" after_katex s) as (Hi & Hk & Hmono).
      exact (Hstep _ Hi Hmono (fun _ => Hk)).
    + apply (Hstep (ret tt)); [done|done|].
      unfold preloadable. by rewrite E1, E2.
Qed.

(** C7, the claim as it stands fails: [preloadInBackground(['html2pdf'])]
    registers its callback, and when the callback runs it is used up and has
    loaded nothing; the key stays unloaded, nothing is requested, no import
    started. *)
Lemma C7_html2pdf_key_is_skipped :
  let s0 := exec [CallPreloadInBackground (Some ["html2pdf"])] (init true []) in
  let s := step (IdleCallback 0) s0 in
  idleCallbacks s0 = [{| idle_modules := ["html2pdf"]; idle_timeout := 5000 |}] /\
  idleCallbacks s = [] /\
  "html2pdf" ∈ ["html2pdf"] /\
  key_status "html2pdf" s = Unloaded /\
  answers "html2pdf" (trace s) = [] /\
  invocations "html2pdf" (trace s) = [] /\
  imports s = [] /\
  getLoadingStatus s = {| loaded := []; loading := [] |}.
Proof. vm_compute. repeat split. constructor. Qed.

(** C7, amended: where the runtime has requestIdleCallback,
    [preloadInBackground(modules)] registers one callback with a timeout of
    5000 ms, for the given modules or for mermaid and katex when none are
    given; without the facility it does nothing.  When a registered callback
    runs it is removed, so it runs once, and it issues one lazyLoad request,
    in order, for each of the given keys that is 'mermaid' or 'katex', and
    none for any other key.  After it each such key has a cache entry or a
    load in flight. *)
Theorem C7_idle_callback_preloads_mermaid_and_katex :
  forall (s : state) (n : nat) (modules : list string) (timeout : N),
    idleCallbacks s !! n = Some {| idle_modules := modules; idle_timeout := timeout |} ->
    let s' := step (IdleCallback n) s in
    idleCallbacks s' = take n (idleCallbacks s) ++ drop (S n) (idleCallbacks s) /\
    (exists evs, trace s' = trace s ++ evs /\
                 requested evs = List.filter preloadable modules) /\
    (forall k, k ∈ modules -> preloadable k = true -> key_status k s' <> Unloaded) /\
    (forall k, preloadable k = true <-> k = "mermaid" \/ k = "katex") /\
    (forall ms s0,
       (preloadInBackground ms s0).2 =
       if hasRequestIdleCallback s0 then
         set_idleCallbacks
           (fun l => l ++ [{| idle_modules := default ["mermaid"; "katex"] ms;
                              idle_timeout := 5000 |}]) s0
       else s0).
Proof.
  intros s n modules timeout Hn s'. unfold s'. simpl. rewrite Hn. cbn [idle_modules].
  set (s1 := set_idleCallbacks _ s).
  destruct (preload_each_tables modules s1) as (Hi & _ & Hk).
  split; [by rewrite Hi|]. split.
  { destruct (preload_each_trace modules s1) as (evs & Ht & Hr). by exists evs. }
  split; [done|]. split.
  { intros k. unfold preloadable. rewrite orb_true_iff, !String.eqb_eq. done. }
  intros ms s0. unfold preloadInBackground, bind, get, modify, ret.
  by destruct (hasRequestIdleCallback s0).
Qed.

Lemma C7_mixed_preload_witness :
  let s := step (CallPreloadInBackground (Some mixed_preload)) (init true []) in
  let s' := step (IdleCallback 0) s in
  idleCallbacks s' = [] /\
  (exists evs, trace s' = trace s ++ evs /\ requested evs = ["mermaid"; "katex"]) /\
  key_status "mermaid" s' <> Unloaded.
Proof.
  pose proof (C7_idle_callback_preloads_mermaid_and_katex
                (step (CallPreloadInBackground (Some mixed_preload)) (init true []))
                0 mixed_preload 5000%N eq_refl) as (H1 & H2 & H3 & _).
  split; [exact H1|]. split; [exact H2|].
  apply H3; [constructor|reflexivity].
Defined.


(** * Further properties *)

(** ** What the detectors answer *)

Lemma canonicalize_ascii up c x :
  (c < 128)%N ->
  (canonicalize up true c =? canonicalize up true x)%N = (ascii_fold c =? ascii_fold x)%N.
Proof.
  intros Hc. unfold canonicalize, ascii_fold.
  destruct (N.ltb_spec c 128); [|lia].
  destruct (N.ltb_spec x 128).
  - reflexivity.
  - assert (Hx : ((97 <=? x) && (x <=? 122))%N = false).
    { apply andb_false_iff. right. apply N.leb_gt. lia. }
    rewrite Hx.
    assert (Hl : ((if ((97 <=? c) && (c <=? 122))%N then (c - 32)%N else c) < 128)%N).
    { destruct ((97 <=? c) && (c <=? 122))%N; lia. }
    destruct (N.ltb_spec (up x) 128).
    + transitivity false; [|symmetry]; apply N.eqb_neq; lia.
    + transitivity false; [|symmetry]; apply N.eqb_neq; lia.
Qed.

Lemma matches_eps_inv up i w : Regex.matches up i Eps w <-> w = [].
Proof. split; [by inversion 1|intros ->; constructor]. Qed.

Lemma matches_cat_inv up i r1 r2 w :
  Regex.matches up i (Cat r1 r2) w <->
  exists s1 s2, w = s1 ++ s2 /\ Regex.matches up i r1 s1 /\ Regex.matches up i r2 s2.
Proof.
  split.
  - intros H. inversion H; subst. eauto.
  - intros (s1 & s2 & -> & H1 & H2). by constructor.
Qed.

Lemma matches_alt_inv up i r1 r2 w :
  Regex.matches up i (Alt r1 r2) w <->
  Regex.matches up i r1 w \/ Regex.matches up i r2 w.
Proof.
  split.
  - intros H. inversion H; subst; auto.
  - intros [H|H]; [by apply m_alt_l|by apply m_alt_r].
Qed.

Lemma matches_lit_inv up i s k : forall w,
  Regex.matches up i (lit s k) w <->
  exists w1 w2, w = w1 ++ w2 /\
    Forall2 (fun c x => atom_matches up i (Chr c) x = true) (units s) w1 /\
    Regex.matches up i k w2.
Proof.
  induction s as [|a s IH]; intros w; simpl.
  - split.
    + intros H. exists [], w. repeat split; [constructor|done].
    + intros (w1 & w2 & -> & Hf & Hk). inversion Hf; subst. done.
  - split.
    + intros H. inversion H as [| |r1 r2 s1 s2 H1 H2| | | | |]; subst.
      inversion H1 as [|a' x Hx| | | | | |]; subst.
      apply IH in H2 as (w1 & w2 & -> & Hf & Hk).
      exists (x :: w1), w2. repeat split; [by constructor|done].
    + intros (w1 & w2 & -> & Hf & Hk). inversion Hf as [|c x l1 l2 Hx Hf']; subst.
      change ((x :: l2) ++ w2) with ([x] ++ (l2 ++ w2)). constructor.
      * by constructor.
      * apply IH. eauto.
Qed.

Lemma matches_star_atom_inv up i l a w :
  Regex.matches up i (Star l (Atom a)) w ->
  Forall (fun x => atom_matches up i a x = true) w.
Proof.
  intros H. remember (Star l (Atom a)) as r eqn:Hr. revert Hr.
  induction H as [|a' y Ha|r1 r2 s1 s2 H1 IH1 H2 IH2|r1 r2 w H IH|r1 r2 w H IH
                 |l' r|l' r s1 s2 H1 IH1 H2 IH2|l' r s1 s2 H1 IH1 H2 IH2];
    intros Hr; try discriminate.
  - constructor.
  - injection Hr as -> ->. apply Forall_app. split; [|by apply IH2].
    inversion H1; subst. by repeat constructor.
Qed.

Lemma matches_plus_atom up i l a w :
  Regex.matches up i (Plus l (Atom a)) w <->
  w <> [] /\ Forall (fun x => atom_matches up i a x = true) w.
Proof.
  split.
  - intros H. inversion H as [| | | | | | |l' r s1 s2 H1 H2]; subst.
    inversion H1; subst. split; [done|].
    constructor; [done|]. by eapply matches_star_atom_inv.
  - intros [Hne Hall]. destruct w as [|x w]; [done|].
    apply Forall_cons in Hall as [Hx Hall].
    change (x :: w) with ([x] ++ w). constructor; [by constructor|].
    by apply star_atom_all.
Qed.

Lemma Forall2_fold_map (f : N -> N) l1 l2 :
  Forall2 (fun c x => f c = f x) l1 l2 <-> map f l2 = map f l1.
Proof.
  revert l2. induction l1 as [|c l1 IH]; intros [|x l2]; simpl; split; try done;
    try (by inversion 1).
  - intros H. inversion H; subst. f_equal; [done|by apply IH].
  - intros [= Hx Hl]. constructor; [done|by apply IH].
Qed.

Lemma fence_units w : map ascii_fold w = units "```" <-> w = units "```".
Proof.
  split; [|by intros ->].
  assert (Hb : forall x, ascii_fold x = 96%N -> x = 96%N).
  { intros x. unfold ascii_fold.
    destruct (N.leb_spec 97 x), (N.leb_spec x 122); simpl; lia. }
  destruct w as [|a [|b [|c [|d w]]]]; simpl; try done.
  intros [= Ha Hb' Hc]. by rewrite (Hb _ Ha), (Hb _ Hb'), (Hb _ Hc).
Qed.

Lemma lit_ascii up s w :
  Forall (fun c => (c < 128)%N) (units s) ->
  Forall2 (fun c x => atom_matches up true (Chr c) x = true) (units s) w <->
  map ascii_fold w = map ascii_fold (units s).
Proof.
  intros Hs. rewrite <- Forall2_fold_map. revert w.
  induction (units s) as [|c l IH]; intros w.
  - split; inversion 1; constructor.
  - apply Forall_cons in Hs as [Hc Hl]. split; intros H;
      inversion H as [|c' x l1 l2 Hx Hf]; subst; constructor;
      try (by apply (IH Hl)); cbn [atom_matches] in *.
    + rewrite (canonicalize_ascii up c x Hc) in Hx. by apply N.eqb_eq.
    + rewrite (canonicalize_ascii up c x Hc). by apply N.eqb_eq.
Qed.

Lemma hasMermaidContent_spec up md :
  hasMermaidContent up md = true <->
  exists pre tag body post,
    md = pre ++ tag ++ body ++ units "```" ++ post /\
    map ascii_fold tag = units "```MERMAID".
Proof.
  unfold hasMermaidContent. rewrite test_spec. unfold mermaid_pattern. split.
  - intros (a & p & b & -> & H).
    apply matches_lit_inv in H as (tag & w2 & -> & Htag & H).
    apply matches_cat_inv in H as (body & w3 & -> & Hbody & Hclose).
    apply (matches_lit_inv up true "```" Eps) in Hclose as (cl & w4 & -> & Hcl & He).
    apply matches_eps_inv in He as ->.
    apply lit_ascii in Htag; [|by repeat constructor].
    apply lit_ascii in Hcl; [|by repeat constructor].
    apply fence_units in Hcl as ->.
    exists a, tag, body, b. split; [|done].
    by rewrite app_nil_r, <- !app_assoc.
  - intros (pre & tag & body & post & -> & Htag).
    exists pre, (tag ++ body ++ units "```"), post. split; [by rewrite <- !app_assoc|].
    apply matches_lit_inv. exists tag, (body ++ units "```"). split; [done|]. split.
    + apply lit_ascii; [by repeat constructor|done].
    + constructor.
      * apply star_atom_all. apply Forall_forall. intros c _. apply any_char_all.
      * apply matches_lit_inv. exists (units "```"), []. split; [done|]. split.
        -- apply lit_ascii; [by repeat constructor|done].
        -- constructor.
Qed.

(** X1: The diagram detector answers true exactly on the texts that hold
    three backticks and the word mermaid, in any mix of ASCII letter cases,
    and three backticks again somewhere after it. *)
Theorem mermaid_detected_iff : forall up md,
  hasMermaidContent up md = true <->
  exists pre tag body post,
    md = pre ++ tag ++ body ++ units "```" ++ post /\
    map ascii_fold tag = units "```MERMAID".
Proof. exact hasMermaidContent_spec. Qed.

(** X2: The answer of the diagram detector does not depend on the case
    mapping of characters outside ASCII. *)
Theorem mermaid_detector_ignores_case_table up1 up2 md :
  hasMermaidContent up1 md = hasMermaidContent up2 md.
Proof.
  destruct (hasMermaidContent up1 md) eqn:E1, (hasMermaidContent up2 md) eqn:E2; try done.
  - apply hasMermaidContent_spec in E1. apply (hasMermaidContent_spec up2) in E1. congruence.
  - apply hasMermaidContent_spec in E2. apply (hasMermaidContent_spec up1) in E2. congruence.
Qed.


Lemma lit_exact up s w :
  Forall2 (fun c x => atom_matches up false (Chr c) x = true) (units s) w <->
  w = units s.
Proof.
  revert w. induction (units s) as [|c l IH]; intros w.
  - split; [by inversion 1|intros ->; constructor].
  - split.
    + intros H. inversion H as [|c' x l1 l2 Hx Hf]; subst.
      cbn [atom_matches canonicalize] in Hx. apply N.eqb_eq in Hx as ->.
      f_equal. by apply IH.
    + intros ->. constructor; [|by apply IH].
      cbn [atom_matches canonicalize]. apply N.eqb_refl.
Qed.

Lemma no_dollar_nl_matches up x :
  atom_matches up false no_dollar_nl x = true <-> x <> dollar /\ x <> newline.
Proof.
  unfold no_dollar_nl, dollar, newline. cbn [atom_matches existsb item_matches canonicalize].
  destruct (N.eqb_spec 36 x), (N.eqb_spec 10 x); simpl; split; try done;
    try (intros [? ?]; congruence); try (intros _; split; congruence).
Qed.

Lemma hasKaTeXContent_spec up md :
  hasKaTeXContent up md = true <->
  (exists a b c, md = a ++ [dollar; dollar] ++ b ++ [dollar; dollar] ++ c) \/
  (exists a mid c,
     mid <> [] /\ Forall (fun x => x <> dollar /\ x <> newline) mid /\
     md = a ++ [dollar] ++ mid ++ [dollar] ++ c).
Proof.
  unfold hasKaTeXContent. rewrite test_spec. unfold katex_pattern. split.
  - intros (a & p & c & -> & H). apply matches_alt_inv in H as [H|H].
    + left. apply (matches_lit_inv up false "$$") in H as (o & w2 & -> & Ho & H).
      apply matches_cat_inv in H as (b & w3 & -> & _ & H).
      apply (matches_lit_inv up false "$$" Eps) in H as (cl & w4 & -> & Hcl & He).
      apply matches_eps_inv in He as ->.
      apply lit_exact in Ho as ->. apply lit_exact in Hcl as ->.
      exists a, b, c. by rewrite app_nil_r, <- !app_assoc.
    + right. apply (matches_lit_inv up false "$") in H as (o & w2 & -> & Ho & H).
      apply matches_cat_inv in H as (mid & w3 & -> & Hmid & H).
      apply (matches_lit_inv up false "$" Eps) in H as (cl & w4 & -> & Hcl & He).
      apply matches_eps_inv in He as ->.
      apply lit_exact in Ho as ->. apply lit_exact in Hcl as ->.
      apply matches_plus_atom in Hmid as [Hne Hall].
      exists a, mid, c. split; [done|]. split.
      * eapply Forall_impl; [exact Hall|]. intros x. apply no_dollar_nl_matches.
      * by rewrite app_nil_r, <- !app_assoc.
  - intros [(a & b & c & ->)|(a & mid & c & Hne & Hall & ->)].
    + exists a, ([dollar; dollar] ++ b ++ [dollar; dollar]), c.
      split; [by rewrite <- !app_assoc|]. apply m_alt_l.
      apply (matches_lit_inv up false "$$"). exists [dollar; dollar], (b ++ [dollar; dollar]).
      split; [done|]. split; [by apply lit_exact|].
      constructor.
      * apply star_atom_all. apply Forall_forall. intros x _. apply any_char_all.
      * apply (matches_lit_inv up false "$$" Eps). exists [dollar; dollar], [].
        split; [done|]. split; [by apply lit_exact|constructor].
    + exists a, ([dollar] ++ mid ++ [dollar]), c.
      split; [by rewrite <- !app_assoc|]. apply m_alt_r.
      apply (matches_lit_inv up false "$"). exists [dollar], (mid ++ [dollar]).
      split; [done|]. split; [by apply lit_exact|].
      constructor.
      * apply matches_plus_atom. split; [done|].
        eapply Forall_impl; [exact Hall|]. intros x. apply no_dollar_nl_matches.
      * apply (matches_lit_inv up false "$" Eps). exists [dollar], [].
        split; [done|]. split; [by apply lit_exact|constructor].
Qed.

(** X3: The math detector answers true exactly on the texts that hold two
    dollar signs in a row and, somewhere after them, two in a row again, or
    a dollar sign, then one or more characters that are neither a dollar sign
    nor a newline, then a dollar sign. *)
Theorem katex_detected_iff : forall up md,
  hasKaTeXContent up md = true <->
  (exists a b c, md = a ++ [dollar; dollar] ++ b ++ [dollar; dollar] ++ c) \/
  (exists a mid c,
     mid <> [] /\ Forall (fun x => x <> dollar /\ x <> newline) mid /\
     md = a ++ [dollar] ++ mid ++ [dollar] ++ c).
Proof. exact hasKaTeXContent_spec. Qed.

Lemma dollars_app a b : dollars (a ++ b) = dollars a + dollars b.
Proof. unfold dollars. by rewrite List.filter_app, length_app. Qed.

Lemma dollars_cons_dollar a : dollars (dollar :: a) = S (dollars a).
Proof. done. Qed.

Lemma dollars_none mid :
  Forall (fun x => x <> dollar /\ x <> newline) mid -> dollars mid = 0.
Proof.
  induction 1 as [|x l [Hx _] _ IH]; [done|]. unfold dollars in *.
  cbn [List.filter]. destruct (N.eqb_spec dollar x); [congruence|done].
Qed.

Lemma dollars_inline a mid c :
  dollars (a ++ [dollar] ++ mid ++ [dollar] ++ c) = dollars a + dollars mid + dollars c + 2.
Proof.
  rewrite !dollars_app. change (dollars [dollar]) with 1. lia.
Qed.

Lemma dollars_block a b c :
  dollars (a ++ [dollar; dollar] ++ b ++ [dollar; dollar] ++ c) =
  dollars a + dollars b + dollars c + 4.
Proof.
  rewrite !dollars_app. change (dollars [dollar; dollar]) with 2. lia.
Qed.

(** X4: A text with fewer than two dollar signs, the empty text among them, is
    never reported as math. *)
Theorem katex_needs_two_dollars up md :
  dollars md < 2 -> hasKaTeXContent up md = false.
Proof.
  intros Hd. destruct (hasKaTeXContent up md) eqn:E; [|done].
  apply hasKaTeXContent_spec in E as [(a & b & c & ->)|(a & mid & c & _ & _ & ->)].
  - rewrite dollars_block in Hd. lia.
  - rewrite dollars_inline in Hd. lia.
Qed.

Lemma katex_one_dollar_witness :
  hasKaTeXContent (fun c => c) (units "only $5 today") = false.
Proof. apply katex_needs_two_dollars. vm_compute. lia. Defined.

Lemma dollars_zero_split a b a' b' :
  dollars a = 0 -> dollars a' = 0 ->
  a ++ dollar :: b = a' ++ dollar :: b' -> a = a' /\ b = b'.
Proof.
  revert a'. induction a as [|x a IH]; intros [|y a'] Ha Ha' E; simpl in *.
  - by injection E.
  - injection E as <- _. by rewrite dollars_cons_dollar in Ha'.
  - injection E as -> _. by rewrite dollars_cons_dollar in Ha.
  - injection E as -> E.
    assert (H0 : forall l, dollars (y :: l) = 0 -> dollars l = 0).
    { intros l. unfold dollars. cbn [List.filter].
      destruct (dollar =? y)%N; [discriminate|done]. }
    destruct (IH a' (H0 _ Ha) (H0 _ Ha') E) as [-> ->]. done.
Qed.

(** X5: A single pair of dollar signs with nothing between them, or with a line
    break somewhere between them, is not reported as math: inline math does
    not span lines. *)
Theorem katex_lone_pair_across_lines up a mid c :
  dollars a = 0 -> dollars mid = 0 -> dollars c = 0 ->
  mid = [] \/ newline ∈ mid ->
  hasKaTeXContent up (a ++ [dollar] ++ mid ++ [dollar] ++ c) = false.
Proof.
  intros Ha Hm Hc Hmid.
  destruct (hasKaTeXContent up _) eqn:E; [|done]. exfalso.
  assert (Htot : dollars (a ++ [dollar] ++ mid ++ [dollar] ++ c) = 2).
  { rewrite dollars_inline. lia. }
  apply hasKaTeXContent_spec in E as [(a' & b' & c' & E)|(a' & mid' & c' & Hne & Hall & E)].
  - rewrite E, dollars_block in Htot. lia.
  - pose proof (dollars_none _ Hall) as Hm'.
    rewrite E, dollars_inline in Htot.
    assert (Ha' : dollars a' = 0) by lia.
    cbn [app] in E.
    apply dollars_zero_split in E as [-> E]; [|done|done].
    apply dollars_zero_split in E as [-> _]; [|done|done].
    destruct Hmid as [->|Hnl]; [done|].
    rewrite Forall_forall in Hall. by destruct (Hall _ Hnl).
Qed.

Lemma katex_two_lines_witness :
  hasKaTeXContent (fun c => c) (units ("pay $5" ++ nl ++ "or $10")%string) = false.
Proof.
  apply (katex_lone_pair_across_lines (fun c => c)
           (units "pay ") (units ("5" ++ nl ++ "or ")%string) (units "10"));
    [reflexivity|reflexivity|reflexivity|].
  right. vm_compute. do 1 constructor. constructor.
Defined.

(** ** The history determines the tables *)

Lemma replay_app a b T : replay (a ++ b) T = replay b (replay a T).
Proof. unfold replay. apply fold_left_app. Qed.

Lemma guarded_app a b T :
  guarded (a ++ b) T = guarded a T && guarded b (replay a T).
Proof.
  revert T. induction a as [|e a IH]; intros T; simpl; [done|].
  by rewrite IH, andb_assoc.
Qed.

Lemma delta_refl s : delta s s [].
Proof. unfold delta. by rewrite app_nil_r. Qed.

Lemma delta_trans s1 s2 s3 e1 e2 :
  delta s1 s2 e1 -> delta s2 s3 e2 -> delta s1 s3 (e1 ++ e2).
Proof.
  intros (Ht1 & HT1 & Hg1 & Hr1) (Ht2 & HT2 & Hg2 & Hr2). repeat split.
  - by rewrite Ht2, Ht1, app_assoc.
  - by rewrite replay_app, <- HT1.
  - by rewrite guarded_app, Hg1, <- HT1.
  - congruence.
Qed.

Lemma delta_silent s s' :
  moduleCache s' = moduleCache s -> loadingPromises s' = loadingPromises s ->
  initialized s' = initialized s -> links s' = links s -> trace s' = trace s ->
  hasRequestIdleCallback s' = hasRequestIdleCallback s ->
  delta s s' [].
Proof.
  intros Hc Hl Hi Hk Ht Hr. unfold delta, tables_of. rewrite app_nil_r.
  rewrite Hc, Hl, Hi, Hk. done.
Qed.

Lemma delta_settle p o s : delta s (settle p o s).2 [].
Proof.
  unfold settle. destruct (heap s !! p) as [[[o'|] rs]|]; simpl;
    try apply delta_refl. by apply delta_silent.
Qed.

Lemma delta_subscribe p x s : delta s (subscribe p x s).2 [].
Proof.
  unfold subscribe. destruct (heap s !! p) as [[[o'|] rs]|]; simpl;
    try apply delta_refl; by apply delta_silent.
Qed.

Lemma delta_then p f g s : delta s (then_ p f g s).2 [].
Proof.
  unfold then_, bind, new_promise, ret.
  match goal with |- context [subscribe ?q ?x ?s1] =>
    pose proof (delta_subscribe q x s1) as H; destruct (subscribe q x s1) as [[] s2]
  end. simpl in *.
  change [] with (@nil event ++ []). eapply delta_trans; [|exact H].
  by apply delta_silent.
Qed.

Lemma delta_lazyLoad k sp s :
  exists evs, delta s (lazyLoad k sp s).2 evs /\ forallb is_call_event evs = true.
Proof.
  destruct (Map_get k (moduleCache s)) as [v|] eqn:Hc;
    [|destruct (Map_get k (loadingPromises s)) as [l|] eqn:Hl].
  - rewrite (lazyLoad_cached k sp s v Hc). simpl.
    exists [Requested k (length (heap s)) (FromCache v)].
    split; [|done]. unfold delta, tables_of. simpl. by repeat split.
  - rewrite (lazyLoad_join k sp s l Hc Hl). simpl.
    exists [Requested k (length (heap s)) (Joined l)].
    split; [|done]. unfold delta, tables_of. simpl. by repeat split.
  - rewrite (lazyLoad_start k sp s Hc Hl). simpl.
    exists [Invoked k (length (heap s)) (length (heap s) + 1) (length (heap s) + 2);
            Requested k (length (heap s) + 3) (Started (length (heap s) + 2))].
    split; [|done]. unfold delta, tables_of. simpl. repeat split.
    unfold Map_has. by rewrite Hc, Hl.
Qed.

Lemma delta_load k sp f s :
  exists evs, delta s ((r <- lazyLoad k sp ;; then_ r (Some f) None) s).2 evs /\
              forallb is_call_event evs = true.
Proof.
  unfold bind. destruct (delta_lazyLoad k sp s) as (evs & Hd & Hc).
  destruct (lazyLoad k sp s) as [r s1]. simpl in *.
  exists evs. split; [|done]. rewrite <- (app_nil_r evs).
  eapply delta_trans; [exact Hd|apply delta_then].
Qed.

Lemma delta_swallowed (c : M pid) s evs :
  delta s (c s).2 evs ->
  delta s ((p <- c ;; _ <- then_ p None (Some swallow) ;; ret tt) s).2 evs.
Proof.
  intros H. unfold bind, ret. destruct (c s) as [p s1]. simpl in *.
  pose proof (delta_then p None (Some swallow) s1) as H1.
  destruct (then_ p None (Some swallow) s1) as [q s2]. simpl in *.
  rewrite <- (app_nil_r evs). by eapply delta_trans.
Qed.

Lemma forallb_app_true {A} (f : A -> bool) a b :
  forallb f a = true -> forallb f b = true -> forallb f (a ++ b) = true.
Proof. intros Ha Hb. by rewrite forallb_app, Ha, Hb. Qed.

Lemma delta_preload_each modules : forall s,
  exists evs, delta s (preload_each modules s).2 evs /\ forallb is_call_event evs = true.
Proof.
  induction modules as [|m rest IH]; intros s; simpl.
  - exists []. split; [apply delta_refl|done].
  - unfold bind at 1.
    destruct (String.eqb m "mermaid"); [|destruct (String.eqb m "katex")].
    + destruct (delta_load "mermaid" "mermaid" after_mermaid s) as (e1 & H1 & C1).
      pose proof (delta_swallowed loadMermaid s e1 H1) as H.
      destruct ((p <- loadMermaid;; _ <- then_ p None (Some swallow);; ret ()) s) as [[] s1].
      destruct (IH s1) as (e2 & H2 & C2). exists (e1 ++ e2).
      split; [by eapply delta_trans|by apply forallb_app_true].
    + destruct (delta_load "katex" "katex" after_katex s) as (e1 & H1 & C1).
      pose proof (delta_swallowed loadKaTeX s e1 H1) as H.
      destruct ((p <- loadKaTeX;; _ <- then_ p None (Some swallow);; ret ()) s) as [[] s1].
      destruct (IH s1) as (e2 & H2 & C2). exists (e1 ++ e2).
      split; [by eapply delta_trans|by apply forallb_app_true].
    + apply IH.
Qed.

Ltac delta_none := exists []; split; [apply delta_refl|split; [simpl; lia|done]].
Ltac delta_one := unfold delta, tables_of; simpl; repeat split; try done; try lia.

(** A handler logs at most one event, and none that a call logs. *)
Lemma delta_handle x r o s :
  exists evs, delta s (handle x r o s).2 evs /\
              length evs <= 1 /\ forallb (fun e => negb (is_call_event e)) evs = true.
Proof.
  destruct o as [v|e]; simpl.
  - destruct (on_fulfilled r) as [[k| | | |]|] eqn:Ef; simpl.
    + exists [CacheSet k v]. delta_one.
    + destruct v as [m| |]; simpl; try delta_none.
      destruct x as [[|e]|]; simpl; try delta_none;
        unfold bind, get, isInitialized; simpl;
        destruct (bool_decide (m ∈ initialized s)) eqn:Em; simpl; try delta_none.
      * exists [InitializeThrew m e]. delta_one. by rewrite Em.
      * exists [Initialize m]. delta_one. by rewrite Em.
    + unfold bind, get. simpl. destruct (has_katex_link s) eqn:El; simpl.
      * destruct v; simpl; delta_none.
      * unfold has_katex_link in El.
        destruct v; simpl; exists [AppendLink katex_css]; delta_one; by rewrite El.
    + destruct v; simpl; delta_none.
    + delta_none.
    + delta_none.
  - destruct (on_rejected r) as [[k|]|] eqn:Eg; simpl.
    + exists [ConsoleError k e]. delta_one.
    + delta_none.
    + delta_none.
Qed.

Lemma delta_run_microtask x s :
  exists evs, delta s (run_microtask x s) evs /\
    (forallb is_call_event evs = true \/
     length evs <= 1 /\ forallb (fun e => negb (is_call_event e)) evs = true).
Proof.
  simpl. destruct (microtasks s) as [|[r o|a b] q] eqn:Hq.
  - exists []. split; [apply delta_refl|by left].
  - unfold run_job, bind. set (s0 := set_microtasks (fun _ => q) s).
    destruct (delta_handle x r o s0) as (evs & H & C).
    pose proof (delta_settle (target r) (handle x r o s0).1 (handle x r o s0).2) as H2.
    destruct (handle x r o s0) as [o' s1]. simpl in *.
    exists evs. split; [|by right]. rewrite <- (app_nil_l evs), <- (app_nil_r ([] ++ evs)).
    eapply delta_trans; [|exact H2]. eapply delta_trans; [|exact H].
    by apply delta_silent.
  - exists []. split; [|by left]. simpl. rewrite <- (app_nil_l []).
    eapply delta_trans; [|apply delta_subscribe]. by apply delta_silent.
Qed.

(** A step that is no microtask logs what its calls of lazyLoad log. *)
Lemma delta_call_step l s :
  is_microtask l = false ->
  exists evs, delta s (step l s) evs /\ forallb is_call_event evs = true.
Proof.
  destruct l as [| | | |modules|n|i m|i e| |x]; intros Hl; try done; simpl.
  - apply (delta_load "mermaid" "mermaid" after_mermaid s).
  - apply (delta_load "katex" "katex" after_katex s).
  - apply (delta_load "html2pdf" "html2pdf.js" after_html2pdf s).
  - apply (delta_load "docx" "docx" after_docx s).
  - exists []. split; [|done]. unfold preloadInBackground, bind, get. simpl.
    destruct (hasRequestIdleCallback s); [by apply delta_silent|apply delta_refl].
  - destruct (idleCallbacks s !! n) as [req|]; [|exists []; split; [apply delta_refl|done]].
    destruct (delta_preload_each (idle_modules req)
                (set_idleCallbacks (fun l => take n l ++ drop (S n) l) s)) as (evs & H & C).
    exists evs. split; [|done]. rewrite <- (app_nil_l evs).
    eapply delta_trans; [|exact H]. by apply delta_silent.
  - exists []. split; [|done]. unfold host_settle, bind, get. simpl.
    destruct (bool_decide _); [apply delta_settle|apply delta_refl].
  - exists []. split; [|done]. unfold host_settle, bind, get. simpl.
    destruct (bool_decide _); [apply delta_settle|apply delta_refl].
Qed.

Lemma delta_step l s :
  exists evs, delta s (step l s) evs /\
    (forallb is_call_event evs = true \/
     length evs <= 1 /\ forallb (fun e => negb (is_call_event e)) evs = true).
Proof.
  destruct (is_microtask l) eqn:Hl.
  - destruct l; try done; apply delta_run_microtask.
  - destruct (delta_call_step l s Hl) as (evs & H & C). eauto.
Qed.

Lemma delta_exec ls : forall s, exists evs, delta s (exec ls s) evs.
Proof.
  induction ls as [|l ls IH]; intros s.
  - exists []. apply delta_refl.
  - destruct (delta_step l s) as (e1 & H1 & _). destruct (IH (step l s)) as (e2 & H2).
    exists (e1 ++ e2). simpl. by eapply delta_trans.
Qed.

Lemma delta_reachable ric page_links ls :
  delta (init ric page_links) (exec ls (init ric page_links))
        (trace (exec ls (init ric page_links))).
Proof.
  destruct (delta_exec ls (init ric page_links)) as (evs & H).
  pose proof H as (Ht & _). simpl in Ht. by rewrite Ht.
Qed.

(** ** The stylesheet link *)

Lemma katex_css_includes : includes "katex" katex_css = true.
Proof. vm_compute. reflexivity. Qed.

Lemma replay_links_same e T :
  (forall h, e <> AppendLink h) -> t_links (apply_event e T) = t_links T.
Proof. intros H. destruct e; try done. by destruct (H href). Qed.

Lemma guarded_links evs : forall T,
  guarded evs T = true ->
  t_links (replay evs T) = t_links T \/
  (existsb (includes "katex") (t_links T) = false /\
   t_links (replay evs T) = t_links T ++ [katex_css]).
Proof.
  induction evs as [|e evs IH]; intros T Hg; [by left|].
  simpl in Hg. apply andb_true_iff in Hg as [Hge Hg].
  change (replay (e :: evs) T) with (replay evs (apply_event e T)).
  destruct (IH _ Hg) as [Hl|[Hno Hl]].
  - destruct e as [k i t l|k v|k e'|k r a|m|h|mth eth]; try (left; by rewrite Hl).
    simpl in Hge. apply andb_true_iff in Hge as [Hh Hno].
    apply String.eqb_eq in Hh as ->. apply negb_true_iff in Hno.
    right. split; [done|]. by rewrite Hl.
  - destruct e as [k i t l|k v|k e'|k r a|m|h|mth eth];
      try (right; split; [exact Hno|by rewrite Hl]).
    simpl in Hge. apply andb_true_iff in Hge as [Hh _].
    apply String.eqb_eq in Hh as ->. cbn [apply_event t_links] in Hno.
    rewrite existsb_app in Hno. cbn [existsb] in Hno.
    rewrite katex_css_includes in Hno. simpl in Hno.
    by rewrite orb_true_r in Hno.
Qed.

(** X6: Whatever is called, in whatever order: the document ends up with the
    links it came with and at most one more, the KaTeX stylesheet, and that
    one only when the page had no link to a katex stylesheet. *)
Theorem katex_stylesheet_linked_once : forall ric page_links ls,
  let s := exec ls (init ric page_links) in
  links s = page_links \/
  (existsb (includes "katex") page_links = false /\
   links s = page_links ++ [katex_css]).
Proof.
  intros ric page_links ls s.
  destruct (delta_reachable ric page_links ls) as (_ & HT & Hg & _). fold s in HT, Hg.
  pose proof (guarded_links _ _ Hg) as H. rewrite <- HT in H. exact H.
Qed.

(** ** The order of the status lists *)

Lemma loaded_order_count k evs :
  k ∈ loaded_order evs -> 1 <= length (List.filter (is_cache_set k) evs).
Proof.
  induction evs as [|e evs IH]; simpl; [by inversion 1|].
  destruct e as [k' i t l|k' v|k' e'|k' r a|m|h|mth eth]; simpl; try done.
  destruct (String.eqb_spec k k') as [->|Hne]; simpl; [lia|].
  intros H. apply elem_of_cons in H as [->|H]; [done|auto].
Qed.

Lemma loaded_order_nodup evs :
  (forall k, length (List.filter (is_cache_set k) evs) <= 1) -> NoDup (loaded_order evs).
Proof.
  induction evs as [|e evs IH]; intros H; simpl; [constructor|].
  assert (Hrest : forall k, length (List.filter (is_cache_set k) evs) <= 1).
  { intros k. specialize (H k). simpl in H. destruct (is_cache_set k e); simpl in H; lia. }
  destruct e as [k' i t l|k' v|k' e'|k' r a|m|h|mth eth]; auto.
  constructor; [|auto]. intros Hin. apply loaded_order_count in Hin.
  specialize (H k'). simpl in H. rewrite String.eqb_refl in H. simpl in H. lia.
Qed.

Lemma replay_cache_keys evs : forall T,
  NoDup (Map_keys (t_cache T) ++ loaded_order evs) ->
  Map_keys (t_cache (replay evs T)) = Map_keys (t_cache T) ++ loaded_order evs.
Proof.
  induction evs as [|e evs IH]; intros T Hnd; [simpl; by rewrite app_nil_r|].
  change (replay (e :: evs) T) with (replay evs (apply_event e T)).
  destruct e as [k i t l|k v|k e'|k r a|m|h|mth eth];
    try (rewrite IH; [reflexivity|exact Hnd]).
  simpl in Hnd. cbn [loaded_order].
  assert (Hk : Map_get k (t_cache T) = None).
  { destruct (Map_get k (t_cache T)) eqn:E; [|done]. exfalso.
    apply NoDup_app in Hnd as (_ & Hd & _). apply (Hd k).
    - apply Map_keys_get. congruence.
    - by left. }
  rewrite IH; simpl; rewrite (Map_keys_set_absent _ _ _ Hk).
  - by rewrite <- app_assoc.
  - by rewrite <- app_assoc.
Qed.

Lemma Map_keys_delete_filter {V} k (m : list (string * V)) :
  Map_keys (Map_delete k m) = List.filter (fun k' => negb (String.eqb k k')) (Map_keys m).
Proof.
  unfold Map_keys. induction m as [|[k1 v1] m IH]; simpl; [done|].
  destruct (String.eqb k k1); simpl; by rewrite ?IH.
Qed.

Lemma replay_loading_keys evs : forall T,
  guarded evs T = true ->
  Map_keys (t_loading (replay evs T)) = fold_left loading_step evs (Map_keys (t_loading T)).
Proof.
  induction evs as [|e evs IH]; intros T Hg; [done|].
  simpl in Hg. apply andb_true_iff in Hg as [Hge Hg].
  change (replay (e :: evs) T) with (replay evs (apply_event e T)).
  rewrite (IH _ Hg). cbn [fold_left]. f_equal.
  destruct e as [k i t l|k v|k e'|k r a|m|h|mth eth]; simpl; try done.
  - simpl in Hge. apply andb_true_iff in Hge as [_ Hl]. apply negb_true_iff in Hl.
    apply Map_keys_set_absent. unfold Map_has in Hl.
    by destruct (Map_get k (t_loading T)).
  - apply Map_keys_delete_filter.
  - apply Map_keys_delete_filter.
Qed.

(** X7: [getLoadingStatus] lists the loaded keys in the order in which their
    loads succeeded, and the loading keys in the order in which their
    pending loads were started. *)
Theorem loading_status_in_order : forall ric page_links ls,
  let s := exec ls (init ric page_links) in
  getLoadingStatus s =
    {| loaded := loaded_order (trace s); loading := loading_order (trace s) |}.
Proof.
  intros ric page_links ls s.
  destruct (delta_reachable ric page_links ls) as (_ & HT & Hg & _). fold s in HT, Hg.
  unfold getLoadingStatus. f_equal.
  - change (moduleCache s) with (t_cache (tables_of s)). rewrite HT.
    rewrite replay_cache_keys; [done|]. simpl. apply loaded_order_nodup. intros k.
    unfold s. rewrite (run_cache_writes k _ _ _ (history_of_run ric page_links ls k) eq_refl).
    destruct (is_Loaded _); lia.
  - change (loadingPromises s) with (t_loading (tables_of s)). rewrite HT.
    by rewrite replay_loading_keys.
Qed.

(** ** One step, one move *)

Lemma key_status_settled_flag k s l b : key_status k s = Loading l b -> b = false.
Proof.
  unfold key_status. destruct (Map_get k (moduleCache s)); [done|].
  destruct (Map_get k (loadingPromises s)); [|done]. by intros [= _ <-].
Qed.

Lemma run_calls k evs : forall st st',
  forallb is_call_event evs = true ->
  key_run k st evs = Some st' ->
  match st with
  | Unloaded => st' = Unloaded \/ exists l b, st' = Loading l b
  | Loading l _ => exists b, st' = Loading l b
  | Loaded v => st' = Loaded v
  end.
Proof.
  induction evs as [|e evs IH]; intros st st' Hc; simpl.
  - intros [= <-]. destruct st; eauto.
  - simpl in Hc. apply andb_true_iff in Hc as [He Hc].
    destruct (key_step k st e) as [st1|] eqn:E; [|done]. intros H.
    specialize (IH _ _ Hc H).
    destruct e as [k' i t l|k' v|k' e'|k' r a|m|h|mth eth]; try done; simpl in E.
    + destruct (String.eqb k k'); [|by injection E as <-].
      destruct st; try done. injection E as <-. destruct IH as [b ->]. eauto.
    + destruct (String.eqb k k'); [|by injection E as <-].
      destruct st as [|l0 [|]|v0], a as [v'|l'|l']; try done.
      * destruct (decide (l0 = l')); [|done]. by injection E as <-.
      * destruct (decide (l0 = l')); [|done]. by injection E as <-.
      * destruct (decide (v0 = v')); [|done]. by injection E as <-.
Qed.

Lemma run_one_handler k e st st' :
  is_call_event e = false -> key_step k st e = Some st' ->
  st' = st \/ (exists l v, st = Loading l false /\ st' = Loaded v)
           \/ (exists l, st = Loading l false /\ st' = Unloaded).
Proof.
  destruct e as [k' i t l|k' v|k' e'|k' r a|m|h|mth eth]; try done; simpl; intros _.
  - destruct (String.eqb k k'); [|intros [= <-]; by left].
    destruct st as [|l [|]|v0]; try done. intros [= <-]. right. left. eauto.
  - destruct (String.eqb k k'); [|intros [= <-]; by left].
    destruct st as [|l [|]|v0]; try done. intros [= <-]. right. right. eauto.
  - intros [= <-]. by left.
  - intros [= <-]. by left.
  - intros [= <-]. by left.
Qed.

(** X8: In one step a key stays as it is or makes one move: from unloaded to
    loading, from loading to loaded, or from loading back to unloaded.  It
    never goes from unloaded to loaded at once, and never leaves loaded. *)
Theorem key_moves_one_step : forall ric page_links ls l k,
  let s := exec ls (init ric page_links) in
  key_move (key_status k s) (key_status k (step l s)).
Proof.
  intros ric page_links ls l k s.
  pose proof (history_of_run ric page_links ls k) as Hh. fold s in Hh.
  pose proof (history_of_run ric page_links (ls ++ [l]) k) as Hh'.
  rewrite exec_app in Hh'. fold s in Hh'. change (exec [l] s) with (step l s) in Hh'.
  destruct (delta_step l s) as (evs & (Ht & _) & Hclass).
  rewrite Ht, key_run_app, Hh in Hh'.
  destruct Hclass as [Hcall|[Hlen Hh1]].
  - pose proof (run_calls k evs _ _ Hcall Hh') as Hm.
    destruct (key_status k s) as [|l0 b0|v0] eqn:E0.
    + destruct Hm as [->|(l1 & b1 & E1)]; [constructor|].
      rewrite E1. rewrite (key_status_settled_flag _ _ _ _ E1). constructor.
    + destruct Hm as [b1 E1]. rewrite E1.
      rewrite (key_status_settled_flag _ _ _ _ E1), (key_status_settled_flag _ _ _ _ E0).
      constructor.
    + rewrite Hm. constructor.
  - destruct evs as [|e [|e2 evs]]; simpl in Hlen; try lia.
    + injection Hh' as <-. constructor.
    + simpl in Hh', Hh1. rewrite andb_true_r in Hh1. apply negb_true_iff in Hh1.
      destruct (key_step k (key_status k s) e) as [st1|] eqn:E; [|done].
      injection Hh' as <-.
      destruct (run_one_handler _ _ _ _ Hh1 E) as [->|[(l0 & v & -> & ->)|(l0 & -> & ->)]];
        constructor.
Qed.

(** ** The in-flight table holds pending promises only *)

(** X9: A promise found in the in-flight table is pending: a caller that
    joins a load is never handed a promise that has settled. *)
Theorem in_flight_promise_is_pending : forall ric page_links ls k l,
  let s := exec ls (init ric page_links) in
  Map_get k (loadingPromises s) = Some l -> status s l = Some None.
Proof.
  intros ric page_links ls k l s Hl.
  pose proof (inv_reachable ric page_links ls) as HInv. fold s in HInv.
  destruct (inv_loading _ HInv _ _ Hl) as (r & Hlive & Ht & _).
  apply (inv_pending _ HInv). rewrite <- Ht. by apply live_target.
Qed.

Lemma in_flight_promise_witness :
  status (exec [CallLoadDocx; Microtask] (init true [])) 2 = Some None.
Proof.
  exact (in_flight_promise_is_pending true [] [CallLoadDocx; Microtask] "docx" 2 eq_refl).
Defined.


(** ** Loads run to completion *)

(** ** Reactions wait until their promise settles *)

Lemma promise_le_refl pr : promise_le pr pr.
Proof. unfold promise_le. by destruct (settled pr). Qed.

Lemma promise_le_trans a b c : promise_le a b -> promise_le b c -> promise_le a c.
Proof.
  unfold promise_le. destruct (settled a) eqn:Ea.
  - intros ->. by rewrite Ea.
  - destruct (settled b) eqn:Eb.
    + intros _ ->. intros Hc. congruence.
    + intros Hab Hbc Hc x Hx. apply Hbc; [done|]. by apply Hab.
Qed.

Lemma grows_refl s : grows s s.
Proof. split; [|done]. intros p pr Hp. exists pr. split; [done|apply promise_le_refl]. Qed.

Lemma grows_trans s1 s2 s3 : grows s1 s2 -> grows s2 s3 -> grows s1 s3.
Proof.
  intros [H1 I1] [H2 I2]. split; [|by auto].
  intros p pr Hp. destruct (H1 _ _ Hp) as (pr' & Hp' & Hle).
  destruct (H2 _ _ Hp') as (pr'' & Hp'' & Hle'). exists pr''.
  split; [done|]. by eapply promise_le_trans.
Qed.

Lemma grows_heap_eq s s' :
  heap s' = heap s -> imports s' = imports s -> grows s s'.
Proof.
  intros Hh Hi. unfold grows. rewrite Hh, Hi. split; [|done].
  intros p pr Hp. exists pr. split; [done|apply promise_le_refl].
Qed.

Lemma grows_app s s' news newi :
  heap s' = heap s ++ news -> imports s' = imports s ++ newi -> grows s s'.
Proof.
  intros Hh Hi. unfold grows. rewrite Hh, Hi. split.
  - intros p pr Hp. exists pr. split; [by apply lookup_app_l_Some|apply promise_le_refl].
  - intros i Hin. apply elem_of_app. by left.
Qed.

Lemma grows_insert s s' p pr pr' :
  heap s !! p = Some pr -> promise_le pr pr' ->
  heap s' = <[p := pr']> (heap s) -> imports s' = imports s -> grows s s'.
Proof.
  intros Hp Hle Hh Hi. unfold grows. rewrite Hh, Hi. split; [|done].
  pose proof (lookup_lt_Some _ _ _ Hp) as Hlt.
  intros x prx Hx. unfold pid in *. destruct (decide (x = p)) as [->|Hne].
  - rewrite list_lookup_insert_eq by done. exists pr'. split; [done|]. congruence.
  - rewrite list_lookup_insert_ne by done. exists prx. split; [done|apply promise_le_refl].
Qed.

Lemma grows_settled s s' p o :
  grows s s' -> status s p = Some (Some o) -> status s' p = Some (Some o).
Proof.
  intros [H _]. unfold status, pid in *. destruct (heap s !! p) as [pr|] eqn:Hp; [|done].
  simpl. intros [= Hs]. destruct (H _ _ Hp) as (pr' & -> & Hle).
  unfold promise_le in Hle. rewrite Hs in Hle. subst pr'. simpl. by rewrite Hs.
Qed.

Lemma grows_reg s s' p x :
  grows s s' -> reg s p x -> status s' p = Some None -> reg s' p x.
Proof.
  intros [H _] (pr & Hp & Hx) Hs. destruct (H _ _ Hp) as (pr' & Hp' & Hle).
  exists pr'. split; [done|]. unfold status, pid in *. rewrite Hp' in Hs. simpl in Hs.
  injection Hs as Hs. unfold promise_le in Hle.
  destruct (settled pr) eqn:E; [subst pr'; congruence|]. by apply Hle.
Qed.

Lemma grows_pending_back s s' p :
  grows s s' -> p < length (heap s) -> status s' p = Some None -> status s p = Some None.
Proof.
  intros [H _] Hlt Hs. destruct (lookup_lt_is_Some_2 _ _ Hlt) as [pr Hp].
  destruct (H _ _ Hp) as (pr' & Hp' & Hle). unfold status, pid in *.
  rewrite Hp' in Hs. rewrite Hp. simpl in *. injection Hs as Hs.
  unfold promise_le in Hle. destruct (settled pr) eqn:E; [subst pr'; congruence|done].
Qed.

Lemma grows_length s s' p : grows s s' -> p < length (heap s) -> p < length (heap s').
Proof.
  intros [H _] Hlt. destruct (lookup_lt_is_Some_2 _ _ Hlt) as [pr Hp].
  destruct (H _ _ Hp) as (pr' & Hp' & _). by eapply lookup_lt_Some.
Qed.

Lemma chained_grows s s' k i t l :
  grows s s' -> i < length (heap s) -> t < length (heap s) ->
  chained s k i t l -> chained s' k i t l.
Proof.
  intros Hg Hi Ht (Him & Hri & Hrt). pose proof Hg as [_ Himp]. repeat split.
  - by apply Himp.
  - intros Hs. eapply grows_reg; [done| |done]. apply Hri. by eapply grows_pending_back.
  - intros Hs. eapply grows_reg; [done| |done]. apply Hrt. by eapply grows_pending_back.
Qed.

Lemma advances_refl s : advances s s.
Proof. split; [apply grows_refl|done]. Qed.

Lemma advances_trans s1 s2 s3 : advances s1 s2 -> advances s2 s3 -> advances s1 s3.
Proof. intros [G1 C1] [G2 C2]. split; [by eapply grows_trans|auto]. Qed.

(** Nothing new invoked: the chains of the history stay. *)
Lemma advances_quiet s s' evs :
  grows s s' -> trace s' = trace s ++ evs ->
  (forall k i t l, Invoked k i t l ∉ evs) -> advances s s'.
Proof.
  intros Hg Ht Hno. split; [done|]. intros HC k i t l Hin.
  rewrite Ht in Hin. apply elem_of_app in Hin as [Hin|Hin]; [|by destruct (Hno k i t l)].
  destruct (HC _ _ _ _ Hin) as (Hi & Htl & Hch).
  split; [by eapply grows_length|]. split; [by eapply grows_length|].
  by eapply chained_grows.
Qed.

Lemma advances_silent s s' : grows s s' -> trace s' = trace s -> advances s s'.
Proof.
  intros Hg Ht. apply (advances_quiet s s' []); [done|by rewrite app_nil_r|].
  intros k i t l H. inversion H.
Qed.

Lemma advances_settle p o s : advances s (settle p o s).2.
Proof.
  apply advances_silent; [|apply settle_trace].
  unfold settle. destruct (heap s !! p) as [[[o'|] rs]|] eqn:E; simpl;
    try apply grows_refl.
  eapply grows_insert; [exact E| |done|done]. unfold promise_le. simpl. done.
Qed.

Lemma advances_subscribe p x s : advances s (subscribe p x s).2.
Proof.
  apply advances_silent; [|apply subscribe_trace].
  unfold subscribe. destruct (heap s !! p) as [[[o'|] rs]|] eqn:E; simpl;
    try apply grows_refl.
  - by apply grows_heap_eq.
  - eapply grows_insert; [exact E| |done|done]. unfold promise_le. simpl.
    intros _ y Hy. apply elem_of_app. by left.
Qed.

Lemma advances_then p f g s : advances s (then_ p f g s).2.
Proof.
  unfold then_, bind, new_promise, ret.
  match goal with |- context [subscribe ?q ?x ?s1] =>
    pose proof (advances_subscribe q x s1) as H; destruct (subscribe q x s1) as [[] s2]
  end. simpl in *.
  eapply advances_trans; [|exact H].
  apply advances_silent; [|done].
  eapply (grows_app _ _ _ []); simpl; [reflexivity|by rewrite app_nil_r].
Qed.

Lemma advances_handle x r o s : advances s (handle x r o s).2.
Proof.
  destruct (handle_frame x r o s) as (Hh & _ & Hi).
  destruct (delta_handle x r o s) as (evs & (Ht & _) & _ & Hno).
  apply (advances_quiet _ _ evs); [by apply grows_heap_eq|done|].
  intros k i t l Hin. rewrite forallb_forall in Hno.
  apply list_elem_of_In in Hin. by apply Hno in Hin.
Qed.

Lemma advances_lazyLoad k sp s : advances s (lazyLoad k sp s).2.
Proof.
  destruct (Map_get k (moduleCache s)) as [v|] eqn:Hc;
    [|destruct (Map_get k (loadingPromises s)) as [l|] eqn:Hl].
  - rewrite (lazyLoad_cached k sp s v Hc). simpl.
    eapply (advances_quiet _ _ [_]); [|simpl; reflexivity|].
    + eapply (grows_app _ _ _ []); simpl; [reflexivity|by rewrite app_nil_r].
    + intros k' i t l' H. apply list_elem_of_singleton in H. discriminate.
  - rewrite (lazyLoad_join k sp s l Hc Hl). simpl.
    eapply (advances_quiet _ _ [_]); [|simpl; reflexivity|].
    + eapply (grows_app _ _ _ []); simpl; [reflexivity|by rewrite app_nil_r].
    + intros k' i t l' H. apply list_elem_of_singleton in H. discriminate.
  - rewrite (lazyLoad_start k sp s Hc Hl). simpl.
    set (n := length (heap s)).
    match goal with |- advances s ?s1 => set (s' := s1) end.
    assert (Hg : grows s s') by (eapply grows_app; simpl; reflexivity).
    split; [done|]. intros HC k' i t l' Hin. simpl in Hin.
    apply elem_of_app in Hin as [Hin|Hin].
    + destruct (HC _ _ _ _ Hin) as (Hi & Htl & Hch).
      split; [by eapply grows_length|]. split; [by eapply grows_length|].
      by eapply chained_grows.
    + apply elem_of_cons in Hin as [[= -> -> -> ->]|Hin];
        [|apply list_elem_of_singleton in Hin; discriminate].
      simpl. rewrite length_app. simpl. split; [fold n; lia|]. split; [fold n; lia|].
      split; [apply elem_of_app; right; by left|].
      split; intros _.
      * exists {| settled := None; reactions := [then_loaded k (n + 1)] |}.
        split; [|by left]. simpl. by rewrite list_lookup_middle.
      * exists {| settled := None; reactions := [catch_failed k (n + 2)] |}.
        split; [|by left]. simpl. unfold n.
        rewrite lookup_app_r by lia.
        by replace (length (heap s) + 1 - length (heap s)) with 1 by lia.
Qed.

(** What holds of every primitive holds of every step. *)
Section StepInduction.
Variable R : state -> state -> Prop.
Hypothesis R_refl : forall s, R s s.
Hypothesis R_trans : forall s1 s2 s3, R s1 s2 -> R s2 s3 -> R s1 s3.
Hypothesis R_settle : forall p o s, R s (settle p o s).2.
Hypothesis R_subscribe : forall p x s, R s (subscribe p x s).2.
Hypothesis R_then : forall p f g s, R s (then_ p f g s).2.
Hypothesis R_handle : forall x r o s, R s (handle x r o s).2.
Hypothesis R_lazyLoad : forall k sp s, R s (lazyLoad k sp s).2.
Hypothesis R_idle : forall f s, R s (set_idleCallbacks f s).
Hypothesis R_queue : forall f s, R s (set_microtasks f s).

Lemma R_load k sp f s : R s ((r <- lazyLoad k sp ;; then_ r (Some f) None) s).2.
Proof.
  unfold bind. pose proof (R_lazyLoad k sp s) as H.
  destruct (lazyLoad k sp s) as [r s1]. simpl in *. eauto.
Qed.

Lemma R_swallowed (c : M pid) s :
  R s (c s).2 -> R s ((p <- c ;; _ <- then_ p None (Some swallow) ;; ret tt) s).2.
Proof.
  intros H. unfold bind, ret. destruct (c s) as [p s1]. simpl in *.
  pose proof (R_then p None (Some swallow) s1) as H1.
  destruct (then_ p None (Some swallow) s1) as [q s2]. simpl in *. eauto.
Qed.

Lemma R_preload_each modules : forall s, R s (preload_each modules s).2.
Proof.
  induction modules as [|m rest IH]; intros s; simpl; [done|].
  unfold bind at 1.
  destruct (String.eqb m "mermaid"); [|destruct (String.eqb m "katex")].
  - pose proof (R_swallowed loadMermaid s (R_load _ _ _ s)) as H.
    destruct ((p <- loadMermaid;; _ <- then_ p None (Some swallow);; ret ()) s) as [[] s1].
    eauto.
  - pose proof (R_swallowed loadKaTeX s (R_load _ _ _ s)) as H.
    destruct ((p <- loadKaTeX;; _ <- then_ p None (Some swallow);; ret ()) s) as [[] s1].
    eauto.
  - apply IH.
Qed.

Lemma R_run_job x j s : R s (run_job x j s).2.
Proof.
  destruct j as [r o|t p]; simpl; [|apply R_subscribe].
  unfold bind. pose proof (R_handle x r o s) as H.
  destruct (handle x r o s) as [o' s1]. simpl in *. eauto.
Qed.

Lemma R_run_microtask x s : R s (run_microtask x s).
Proof.
  simpl. destruct (microtasks s) as [|j q]; [done|].
  eapply R_trans; [apply R_queue|apply R_run_job].
Qed.

Lemma R_step l s : R s (step l s).
Proof.
  destruct l as [| | | |modules|n|i m|i e| |x]; cbn [step];
    try apply R_load; try apply R_run_microtask.
  - unfold preloadInBackground, bind, get. simpl.
    destruct (hasRequestIdleCallback s); [apply R_idle|done].
  - destruct (idleCallbacks s !! n); [|done].
    eapply R_trans; [apply R_idle|apply R_preload_each].
  - unfold host_settle, bind, get. destruct (bool_decide _); [apply R_settle|done].
  - unfold host_settle, bind, get. destruct (bool_decide _); [apply R_settle|done].
Qed.

Lemma R_exec ls : forall s, R s (exec ls s).
Proof.
  induction ls as [|l ls IH]; intros s; [apply R_refl|].
  simpl. eapply R_trans; [apply R_step|apply IH].
Qed.
End StepInduction.

Lemma advances_exec ls s : advances s (exec ls s).
Proof.
  apply R_exec.
  - apply advances_refl.
  - apply advances_trans.
  - apply advances_settle.
  - apply advances_subscribe.
  - apply advances_then.
  - apply advances_handle.
  - apply advances_lazyLoad.
  - intros f s0. by apply advances_silent; [apply grows_heap_eq|].
  - intros f s0. by apply advances_silent; [apply grows_heap_eq|].
Qed.

Lemma grows_exec ls s : grows s (exec ls s).
Proof. apply advances_exec. Qed.

Lemma chain_reachable ric page_links ls : Chain (exec ls (init ric page_links)).
Proof. apply advances_exec. intros k i t l H. inversion H. Qed.

(** ** Jobs run, reactions fire *)

Lemma sound_reachable ric page_links ls : Sound (exec ls (init ric page_links)).
Proof.
  split; [apply inv_reachable|]. split; [apply tidy_reachable|apply chain_reachable].
Qed.

Lemma sound_exec ls s : Sound s -> Sound (exec ls s).
Proof.
  intros (HI & HT & HC). split; [by apply inv_exec|].
  split; [by apply (evolves_exec ls s)|by apply (advances_exec ls s)].
Qed.

Lemma sound_step l s : Sound s -> Sound (step l s).
Proof. apply (sound_exec [l]). Qed.

Lemma grows_step l s : grows s (step l s).
Proof. apply (grows_exec [l]). Qed.

Lemma job_reaches_head s j :
  queued s j -> exists n q, microtasks (exec (drain n) s) = j :: q.
Proof.
  intros Hq. apply list_elem_of_split in Hq as (pre & post & E).
  destruct (drain_to_head pre s j post E) as [new Hnew]. eauto.
Qed.

Lemma reg_pending s p y : tidy s -> reg s p y -> status s p = Some None.
Proof.
  intros Ht (pr & Hp & Hy). unfold status, pid in *. rewrite Hp. simpl.
  destruct (settled pr) eqn:E; [|done]. exfalso.
  assert (Hnil : reactions pr = []) by (apply (Ht p pr Hp); congruence).
  rewrite Hnil in Hy. inversion Hy.
Qed.

(** The reactions of the promise a job is about to settle are still there. *)
Lemma reg_at_target s s' p y :
  grows s s' -> Inv s' -> reg s p y -> p ∈ targets s' -> reg s' p y.
Proof.
  intros Hg HInv Hr Hp. eapply grows_reg; [done|done|]. by apply (inv_pending _ HInv).
Qed.

Lemma head_target s j q : microtasks s = j :: q -> job_target j ∈ targets s.
Proof.
  intros E. unfold targets. rewrite E. apply elem_of_app. right. simpl. by left.
Qed.

Lemma settle_tables p o s :
  tables_of (settle p o s).2 = tables_of s /\ trace (settle p o s).2 = trace s.
Proof.
  destruct (delta_settle p o s) as (Ht & HT & _). rewrite app_nil_r in Ht. done.
Qed.

(** Running the job at the head of the queue: the handler runs in the state
    with the job taken off the queue, its result settles the target, and
    the reactions of the target are queued with that result. *)
Lemma reaction_job_runs x s r o q :
  Inv s -> microtasks s = ReactionJob r o :: q ->
  let h := handle x r o (set_microtasks (fun _ => q) s) in
  let s' := run_microtask x s in
  status s' (target r) = Some (Some h.1) /\
  (forall y, reg s (target r) y -> queued s' (ReactionJob y h.1)) /\
  tables_of s' = tables_of h.2 /\ trace s' = trace h.2.
Proof.
  intros HInv E h s'. unfold s'. rewrite (step_reaction x s r o q E). fold h.
  split; [|split].
  - rewrite (rs_status x s r o q HInv E). by rewrite decide_True.
  - intros y Hy. apply (rs_queued x s r o q HInv E). right. eauto.
  - apply settle_tables.
Qed.

Lemma microtask_job_runs s r o q :
  Inv s -> microtasks s = ReactionJob r o :: q ->
  let h := handle None r o (set_microtasks (fun _ => q) s) in
  let s' := step Microtask s in
  status s' (target r) = Some (Some h.1) /\
  (forall y, reg s (target r) y -> queued s' (ReactionJob y h.1)) /\
  tables_of s' = tables_of h.2 /\ trace s' = trace h.2.
Proof. apply (reaction_job_runs None). Qed.

Lemma subscribe_status_any p x s q : status (subscribe p x s).2 q = status s q.
Proof.
  destruct (heap s !! p) as [[[o|] rs]|] eqn:E.
  - by rewrite (subscribe_settled _ _ _ _ _ E).
  - by apply (subscribe_status s p x rs).
  - unfold subscribe. by rewrite E.
Qed.

(** The step that settles a promise queues its reactions. *)
Lemma settling_step s p y o :
  Inv s -> reg s p y -> status s p = Some None ->
  status (step Microtask s) p = Some (Some o) ->
  queued (step Microtask s) (ReactionJob y o).
Proof.
  intros HInv Hr Hpend Hs.
  destruct (microtasks s) as [|[r0 o0|a b] q] eqn:E.
  - simpl in Hs. rewrite E in Hs. congruence.
  - destruct (reaction_job_runs None s r0 o0 q HInv E) as (_ & Hq & _).
    change (step Microtask s) with (run_microtask None s) in Hs.
    rewrite (step_reaction None s r0 o0 q E) in Hs.
    rewrite (rs_status None s r0 o0 q HInv E) in Hs.
    destruct (decide (p = target r0)) as [->|Hne]; [|congruence].
    injection Hs as <-. by apply Hq.
  - simpl in Hs. rewrite E in Hs. simpl in Hs.
    rewrite subscribe_status_any in Hs. unfold status in Hs, Hpend. simpl in Hs.
    congruence.
Qed.

(** A reaction on a promise that is settled by the time the queue has run
    [n] steps is itself queued, with the outcome, at some point on the way. *)
Lemma fires_when_settled n : forall s p y o,
  Sound s -> reg s p y ->
  status (exec (drain n) s) p = Some (Some o) ->
  exists n', queued (exec (drain n') s) (ReactionJob y o).
Proof.
  induction n as [|n IH]; intros s p y o HS Hr Hs.
  - pose proof HS as (_ & HT & _). change (exec (drain 0) s) with s in Hs.
    rewrite (reg_pending _ _ _ HT Hr) in Hs. discriminate.
  - rewrite drain_S, exec_cons in Hs.
    pose proof HS as (HInv & HT & _).
    pose proof (reg_pending _ _ _ HT Hr) as Hpend.
    destruct (status (step Microtask s) p) as [[o1|]|] eqn:E1.
    + pose proof (settled_exec (drain n) _ _ _ E1) as Hs'.
      assert (o1 = o) as -> by congruence.
      exists 1. change (exec (drain 1) s) with (step Microtask s).
      by apply (settling_step s p).
    + assert (Hr1 : reg (step Microtask s) p y).
      { eapply grows_reg; [apply grows_step|done|done]. }
      destruct (IH _ _ _ _ (sound_step Microtask s HS) Hr1 Hs) as [n' Hn'].
      exists (S n'). by rewrite drain_S, exec_cons.
    + exfalso. pose proof (status_Some_lt _ _ _ Hpend) as Hlt.
      pose proof (grows_length _ _ _ (grows_step Microtask s) Hlt) as Hlt'.
      apply status_None_ge in E1. lia.
Qed.

(** After that the job comes to the head of the queue and runs. *)
Lemma reaction_fires s p y o n :
  Sound s -> reg s p y ->
  status (exec (drain n) s) p = Some (Some o) ->
  exists n' q,
    let sh := exec (drain n') s in
    Sound sh /\ microtasks sh = ReactionJob y o :: q /\
    status sh p = Some (Some o).
Proof.
  intros HS Hr Hs.
  destruct (fires_when_settled n s p y o HS Hr Hs) as [n1 Hq].
  destruct (job_reaches_head _ _ Hq) as (n2 & q & Hh).
  rewrite <- drain_add in Hh. remember (n1 + n2) as N eqn:HN. clear HN Hq.
  exists N, q. split; [by apply sound_exec|]. split; [done|].
  (* the promise is settled at the head state: it is settled there or later *)
  destruct (status (exec (drain N) s) p) as [[o1|]|] eqn:E.
  - destruct (Nat.le_gt_cases N n) as [Hle|Hgt].
    + replace n with (N + (n - N)) in Hs by lia. rewrite drain_add in Hs.
      rewrite (settled_exec _ _ _ _ E) in Hs. congruence.
    + assert (EN : N = n + (N - n)) by lia. rewrite EN, drain_add in E.
      rewrite (settled_exec _ _ _ _ Hs) in E. congruence.
  - exfalso.
    (* a queued job for [y] and [y] still registered on [p]: two targets *)
    assert (HSh : Sound (exec (drain N) s)) by (by apply sound_exec).
    destruct HSh as (HInv & _ & _).
    assert (Hrh : reg (exec (drain N) s) p y).
    { eapply grows_reg; [apply grows_exec|exact Hr|exact E]. }
    apply (reg_queued_apart _ p y (ReactionJob y o) (inv_nodup _ HInv) Hrh); [|done].
    unfold queued. rewrite Hh. by left.
  - exfalso. pose proof HS as (_ & HT & _).
    pose proof (status_Some_lt _ _ _ (reg_pending _ _ _ HT Hr)) as Hlt.
    pose proof (grows_length _ _ _ (grows_exec (drain N) s) Hlt) as Hlt'.
    apply status_None_ge in E. lia.
Qed.

(** ** From the import to the load promise *)

Lemma cache_kept ls s k v :
  Inv s -> Map_get k (moduleCache s) = Some v ->
  Map_get k (moduleCache (exec ls s)) = Some v.
Proof.
  intros HInv Hc. pose proof (inv_history _ HInv k) as Hh.
  pose proof (inv_history _ (inv_exec ls s HInv) k) as Hh'.
  destruct (trace_exec ls s) as [evs Ht]. rewrite Ht, key_run_app, Hh in Hh'.
  apply key_status_Loaded in Hc. rewrite Hc in Hh'.
  destruct (run_loaded _ _ _ _ Hh') as (Hst & _). by apply key_status_Loaded.
Qed.

(** When the module loader settles the import of an invocation, the then
    handler of lazyLoad is queued with the outcome, and the catch handler
    still waits on the promise of the then handler. *)
Lemma import_settled s lbl k i t l o :
  Sound s -> Invoked k i t l ∈ trace s -> status s i = Some None ->
  step lbl s = (host_settle i o s).2 ->
  queued (step lbl s) (ReactionJob (then_loaded k t) o) /\
  reg (step lbl s) t (catch_failed k l).
Proof.
  intros HS Hin Hpend Hstep. pose proof HS as (HInv & HT & HC).
  destruct (HC _ _ _ _ Hin) as (_ & _ & Himp & Hri & Hrt).
  specialize (Hri Hpend).
  assert (Htp : status s t = Some None).
  { apply (inv_pending _ HInv). apply elem_of_targets. left. by exists i, (then_loaded k t). }
  specialize (Hrt Htp).
  assert (Hq : queued (step lbl s) (ReactionJob (then_loaded k t) o)).
  { rewrite Hstep. unfold host_settle, bind, get. rewrite bool_decide_eq_true_2 by done.
    apply status_pending in Hpend as [rs Hrs].
    apply (settle_queued s i o rs Hrs). right. eauto. }
  split; [done|].
  apply (reg_at_target s); [apply grows_step|by apply inv_step|done|].
  apply elem_of_targets. right. by exists (ReactionJob (then_loaded k t) o).
Qed.

(** Once queued, the then handler runs and hands its result to the catch
    handler. *)
Lemma then_handler_runs s k t l o :
  Sound s -> queued s (ReactionJob (then_loaded k t) o) -> reg s t (catch_failed k l) ->
  exists n q,
    let sh := exec (drain n) s in
    let s' := step Microtask sh in
    Sound sh /\ microtasks sh = ReactionJob (then_loaded k t) o :: q /\
    queued s' (ReactionJob (catch_failed k l) o) /\
    match o with
    | Fulfilled v =>
        moduleCache s' = Map_set k v (moduleCache sh) /\
        trace s' = trace sh ++ [CacheSet k v]
    | Rejected _ => tables_of s' = tables_of sh /\ trace s' = trace sh
    end.
Proof.
  intros HS Hq Hr. destruct (job_reaches_head _ _ Hq) as (n & q & Hh).
  exists n, q. intros sh s'. assert (HSh : Sound sh) by (by apply sound_exec).
  pose proof HSh as (HInv & _ & _).
  destruct (microtask_job_runs sh _ _ _ HInv Hh) as (_ & Hfire & HT & Htr).
  assert (Hrh : reg sh t (catch_failed k l)).
  { apply (reg_at_target s); [apply grows_exec|done|done|].
    apply (head_target _ _ _ Hh). }
  split; [done|]. split; [done|]. fold s' in Hfire, HT, Htr.
  destruct o as [v|e].
  - split; [by apply (Hfire _ Hrh)|].
    split; [|by rewrite Htr]. change (moduleCache s') with (t_cache (tables_of s')).
    by rewrite HT.
  - split; [by apply (Hfire _ Hrh)|]. split; [by rewrite HT|by rewrite Htr].
Qed.

(** And the catch handler, once queued, runs and settles the load promise. *)
Lemma catch_handler_runs s k l o :
  Sound s -> queued s (ReactionJob (catch_failed k l) o) ->
  exists n q,
    let sh := exec (drain n) s in
    let s' := step Microtask sh in
    Sound sh /\ microtasks sh = ReactionJob (catch_failed k l) o :: q /\
    status sh l = Some None /\
    status s' l = Some (Some o) /\
    match o with
    | Fulfilled _ => tables_of s' = tables_of sh /\ trace s' = trace sh
    | Rejected e =>
        loadingPromises s' = Map_delete k (loadingPromises sh) /\
        moduleCache s' = moduleCache sh /\
        trace s' = trace sh ++ [ConsoleError k e]
    end.
Proof.
  intros HS Hq. destruct (job_reaches_head _ _ Hq) as (n & q & Hh).
  exists n, q. intros sh s'. assert (HSh : Sound sh) by (by apply sound_exec).
  pose proof HSh as (HInv & _ & _).
  destruct (microtask_job_runs sh _ _ _ HInv Hh) as (Hst & _ & HT & Htr).
  fold s' in Hst, HT, Htr.
  split; [done|]. split; [done|].
  split; [apply (inv_pending _ HInv), (head_target _ _ _ Hh)|].
  destruct o as [v|e].
  - split; [exact Hst|]. split; [by rewrite HT|by rewrite Htr].
  - split; [exact Hst|].
    split; [change (loadingPromises s') with (t_loading (tables_of s')); by rewrite HT|].
    split; [change (moduleCache s') with (t_cache (tables_of s')); by rewrite HT|].
    by rewrite Htr.
Qed.

Lemma load_promise_fulfils s k i t l m :
  Sound s -> Invoked k i t l ∈ trace s -> status s i = Some None ->
  exists n,
    let s' := exec (drain n) (step (ImportFulfils i m) s) in
    status s' l = Some (Some (Fulfilled (Namespace m))) /\
    Map_get k (moduleCache s') = Some (Namespace m) /\
    Map_get k (loadingPromises s') = None /\
    CacheSet k (Namespace m) ∈ trace s'.
Proof.
  intros HS Hin Hpend. set (s1 := step (ImportFulfils i m) s).
  assert (HS1 : Sound s1) by (by apply sound_step).
  destruct (import_settled s (ImportFulfils i m) k i t l (Fulfilled (Namespace m))
              HS Hin Hpend eq_refl) as (Hq1 & Hr1). fold s1 in Hq1, Hr1.
  destruct (then_handler_runs s1 k t l _ HS1 Hq1 Hr1)
    as (n1 & q1 & HSh1 & Hh1 & Hq2 & Hc2 & Ht2).
  set (s2 := step Microtask (exec (drain n1) s1)) in *.
  assert (HS2 : Sound s2) by (by apply sound_step).
  destruct (catch_handler_runs s2 k l _ HS2 Hq2)
    as (n2 & q2 & HSh2 & Hh2 & _ & Hst & _).
  set (s3 := step Microtask (exec (drain n2) s2)) in *.
  assert (HS3 : Sound s3) by (by apply sound_step).
  assert (E3 : s3 = exec (drain (n1 + (1 + (n2 + 1)))) s1).
  { by rewrite !drain_add. }
  exists (n1 + (1 + (n2 + 1))). rewrite <- E3. cbv zeta.
  assert (Hc3 : Map_get k (moduleCache s3) = Some (Namespace m)).
  { apply (cache_kept [Microtask] (exec (drain n2) s2)); [by apply inv_exec, HS2|].
    apply cache_kept; [apply HS2|]. rewrite Hc2. apply Map_get_set_eq. }
  split; [done|]. split; [done|]. split.
  - destruct HS3 as (HInv3 & _). by apply (inv_exclusive _ HInv3 _ _ Hc3).
  - apply (trace_exec_elem [Microtask] (exec (drain n2) s2)). apply trace_exec_elem.
    rewrite Ht2. apply elem_of_app. right. by left.
Qed.

Lemma load_promise_rejects s k i t l e :
  Sound s -> Invoked k i t l ∈ trace s -> status s i = Some None ->
  exists n,
    let s0 := exec (drain n) (step (ImportRejects i e) s) in
    let s' := step Microtask s0 in
    status s0 l = Some None /\
    status s' l = Some (Some (Rejected e)) /\
    key_status k s' = Unloaded /\
    trace s' = trace s0 ++ [ConsoleError k e].
Proof.
  intros HS Hin Hpend. set (s1 := step (ImportRejects i e) s).
  assert (HS1 : Sound s1) by (by apply sound_step).
  destruct (import_settled s (ImportRejects i e) k i t l (Rejected e)
              HS Hin Hpend eq_refl) as (Hq1 & Hr1). fold s1 in Hq1, Hr1.
  destruct (then_handler_runs s1 k t l _ HS1 Hq1 Hr1)
    as (n1 & q1 & HSh1 & Hh1 & Hq2 & _).
  set (s2 := step Microtask (exec (drain n1) s1)) in *.
  assert (HS2 : Sound s2) by (by apply sound_step).
  destruct (catch_handler_runs s2 k l _ HS2 Hq2)
    as (n2 & q2 & HSh2 & Hh2 & Hp & Hst & Hl3 & Hc3 & Ht3).
  assert (E0 : exec (drain n2) s2 = exec (drain (n1 + (1 + n2))) s1).
  { by rewrite !drain_add. }
  exists (n1 + (1 + n2)). rewrite <- E0. cbv zeta.
  set (s3 := step Microtask (exec (drain n2) s2)) in *.
  assert (HS3 : Sound s3) by (by apply sound_step).
  split; [done|]. split; [done|]. split; [|done].
  destruct HS3 as (HInv3 & _).
  apply (run_after_failure k e _ _ _ (inv_history _ HInv3 k)).
  rewrite Ht3, List.filter_app. simpl.
  unfold about at 2, is_settlement. simpl. rewrite String.eqb_refl. simpl.
  apply last_snoc.
Qed.

(** X10: Every load settles with its import: once the module loader fulfils the
    import of a factory invocation with a module, finitely many microtasks
    later the load promise is fulfilled with that module, the cache holds
    it and the in-flight entry is gone; once it rejects the import, the load
    promise is rejected with the same error, the failure is logged, and the
    key is unloaded again. *)
Theorem load_settles_with_its_import : forall ric page_links ls k i t l,
  let s := exec ls (init ric page_links) in
  Invoked k i t l ∈ trace s -> status s i = Some None ->
  (forall m, exists n,
     let s' := exec (drain n) (step (ImportFulfils i m) s) in
     status s' l = Some (Some (Fulfilled (Namespace m))) /\
     Map_get k (moduleCache s') = Some (Namespace m) /\
     Map_get k (loadingPromises s') = None) /\
  (forall e, exists n,
     let s' := exec (drain n) (step (ImportRejects i e) s) in
     status s' l = Some (Some (Rejected e)) /\
     key_status k s' = Unloaded /\
     last (trace s') = Some (ConsoleError k e)).
Proof.
  intros ric page_links ls k i t l s Hin Hpend.
  pose proof (sound_reachable ric page_links ls) as HS. fold s in HS. split.
  - intros m. destruct (load_promise_fulfils s k i t l m HS Hin Hpend) as (n & H1 & H2 & H3 & _).
    exists n. auto.
  - intros e. destruct (load_promise_rejects s k i t l e HS Hin Hpend) as (n & _ & H1 & H2 & H3).
    exists (n + 1). rewrite drain_add.
    change (exec (drain 1) ?x) with (step Microtask x).
    split; [done|]. split; [done|]. rewrite H3. apply last_snoc.
Qed.

Lemma load_settles_witness :
  let s := exec [CallLoadDocx] (init true []) in
  (forall m, exists n,
     let s' := exec (drain n) (step (ImportFulfils 0 m) s) in
     status s' 2 = Some (Some (Fulfilled (Namespace m))) /\
     Map_get "docx" (moduleCache s') = Some (Namespace m) /\
     Map_get "docx" (loadingPromises s') = None) /\
  (forall e, exists n,
     let s' := exec (drain n) (step (ImportRejects 0 e) s) in
     status s' 2 = Some (Some (Rejected e)) /\
     key_status "docx" s' = Unloaded /\
     last (trace s') = Some (ConsoleError "docx" e)).
Proof.
  apply (load_settles_with_its_import true [] [CallLoadDocx] "docx" 0 1 2).
  - vm_compute. constructor.
  - reflexivity.
Defined.

(** ** The exported loaders, from call to result *)

Lemma run_microtask_events x s :
  exists evs, trace (run_microtask x s) = trace s ++ evs /\
              forallb (fun e => negb (is_call_event e)) evs = true.
Proof.
  simpl. destruct (microtasks s) as [|[r o|a b] q] eqn:Hq.
  - exists []. by rewrite app_nil_r.
  - unfold run_job, bind. set (s0 := set_microtasks (fun _ => q) s).
    destruct (delta_handle x r o s0) as (evs & (Ht & _) & _ & Hc).
    destruct (handle x r o s0) as [o' s1]. simpl in *.
    exists evs. by rewrite settle_trace, Ht.
  - exists []. rewrite app_nil_r. simpl. by rewrite subscribe_trace.
Qed.

Lemma microtask_events s :
  exists evs, trace (step Microtask s) = trace s ++ evs /\
              forallb (fun e => negb (is_call_event e)) evs = true.
Proof. apply run_microtask_events. Qed.

Lemma run_handlers_unloaded k evs : forall st,
  forallb (fun e => negb (is_call_event e)) evs = true ->
  key_run k Unloaded evs = Some st -> st = Unloaded.
Proof.
  induction evs as [|e evs IH]; intros st Hc; simpl; [by intros [= <-]|].
  simpl in Hc. apply andb_true_iff in Hc as [He Hc].
  destruct e as [k' i t l|k' v|k' e'|k' r a|m|h|mth eth]; try done; simpl;
    try (by apply IH); destruct (String.eqb k k'); try done; by apply IH.
Qed.

Lemma drain_keeps_unloaded n : forall s k,
  Inv s -> key_status k s = Unloaded -> key_status k (exec (drain n) s) = Unloaded.
Proof.
  induction n as [|n IH]; intros s k HInv Hk; [done|].
  rewrite drain_S, exec_cons. apply IH; [by apply inv_step|].
  destruct (microtask_events s) as (evs & Ht & Hc).
  pose proof (inv_history _ (inv_step Microtask s HInv) k) as Hh.
  rewrite Ht, key_run_app, (inv_history _ HInv k), Hk in Hh.
  by apply (run_handlers_unloaded k evs).
Qed.

Lemma advances_load k sp f s :
  advances s ((r <- lazyLoad k sp ;; then_ r (Some f) None) s).2.
Proof.
  unfold bind. pose proof (advances_lazyLoad k sp s) as H.
  destruct (lazyLoad k sp s) as [r s1]. simpl in *.
  eapply advances_trans; [exact H|apply advances_then].
Qed.

Lemma sound_load k sp f s :
  Sound s -> is_after f -> (f = after_mermaid -> k = "mermaid") ->
  Sound ((r <- lazyLoad k sp ;; then_ r (Some f) None) s).2.
Proof.
  intros (HI & HT & HC) Hf Hk. split; [by apply (inv_load k sp f s)|].
  split; [by apply (evolves_load k sp f s)|by apply (advances_load k sp f s)].
Qed.

(** A loader called for an unloaded key: what it returns and leaves. *)
Lemma load_start k sp f s :
  key_status k s = Unloaded ->
  let c := (r <- lazyLoad k sp ;; then_ r (Some f) None) in
  let n := length (heap s) in
  (c s).1 = n + 4 /\
  imports (c s).2 = imports s ++ [n] /\
  trace (c s).2 = trace s ++ [Invoked k n (n + 1) (n + 2);
                               Requested k (n + 3) (Started (n + 2))] /\
  status (c s).2 n = Some None /\
  reg (c s).2 (n + 3) {| on_fulfilled := Some f; on_rejected := None; target := n + 4 |}.
Proof.
  intros Hk c n. apply key_status_Unloaded in Hk as [Hc Hl].
  unfold c, bind. rewrite (lazyLoad_start k sp s Hc Hl). fold n.
  match goal with |- context [then_ _ _ _ ?s1] => set (sl := s1) end.
  erewrite (then_at sl (heap s) _ (n + 3) 3); [|simpl; reflexivity|done|simpl; reflexivity].
  simpl. fold n. split; [lia|]. split; [done|]. split; [done|]. split.
  - unfold status. simpl. by rewrite list_lookup_middle.
  - eexists. split.
    + simpl. unfold n. rewrite lookup_app_r by lia.
      replace (length (heap s) + 3 - length (heap s)) with 3 by lia. simpl. reflexivity.
    + simpl. by left.
Qed.

(** A loader called for a cached key. *)
Lemma load_cached k sp f s v :
  Map_get k (moduleCache s) = Some v ->
  let c := (r <- lazyLoad k sp ;; then_ r (Some f) None) in
  let n := length (heap s) in
  (c s).1 = n + 1 /\
  imports (c s).2 = imports s /\
  queued (c s).2 (ReactionJob {| on_fulfilled := Some f; on_rejected := None;
                                target := n + 1 |} (Fulfilled v)).
Proof.
  intros Hc c n. unfold c, bind. rewrite (lazyLoad_cached k sp s v Hc). fold n.
  unfold then_, bind, new_promise, ret, subscribe. simpl.
  rewrite length_app. simpl. fold n.
  rewrite lookup_app_l by (rewrite length_app; simpl; lia).
  rewrite list_lookup_middle by done. simpl.
  split; [done|]. split; [done|]. unfold queued. simpl. apply elem_of_app. right. by left.
Qed.

Section Loader.
Variables (k sp : string) (f : on_value) (s : state).
Hypothesis HS : Sound s.
Hypothesis Hf : is_after f.
Hypothesis Hk : f = after_mermaid -> k = "mermaid".

Let c : M pid := (r <- lazyLoad k sp ;; then_ r (Some f) None).
Let n := length (heap s).
Let y : reaction := {| on_fulfilled := Some f; on_rejected := None; target := (c s).1 |}.

Lemma loader_sound : Sound (c s).2.
Proof. by apply sound_load. Qed.

(** With the load promise settled, the reaction of the loader comes to run,
    with the outcome of the load. *)
Lemma loader_reaction_fires lbl o n1 :
  key_status k s = Unloaded ->
  let s1 := step lbl (c s).2 in
  step lbl (c s).2 = (host_settle n o (c s).2).2 ->
  status (exec (drain n1) s1) (n + 2) = Some (Some o) ->
  exists n' q,
    let sh := exec (drain n') s1 in
    Sound sh /\ microtasks sh = ReactionJob y o :: q /\
    status sh (n + 2) = Some (Some o) /\
    served sh k (n + 2).
Proof.
  intros Hun s1 Hstep Hl.
  destruct (load_start k sp f s Hun) as (Hp & Himp & Htr & Hpend & Hreg).
  fold c n in Hp, Himp, Htr, Hpend, Hreg.
  pose proof loader_sound as HSc.
  assert (HS1 : Sound s1) by (by apply sound_step).
  assert (Hinv : Invoked k n (n + 1) (n + 2) ∈ trace (c s).2).
  { rewrite Htr. apply elem_of_app. right. by left. }
  assert (Hreq : forall ls, Requested k (n + 3) (Started (n + 2)) ∈ trace (exec ls s1)).
  { intros ls. apply trace_exec_elem. apply (trace_exec_elem [lbl]).
    rewrite Htr. apply elem_of_app. right. right. by left. }
  destruct (import_settled (c s).2 lbl k n (n + 1) (n + 2) o HSc Hinv Hpend Hstep)
    as (Hq1 & Hr1). fold s1 in Hq1, Hr1.
  (* the caller's promise is pending when the import settles *)
  assert (Hrp : status s1 (n + 3) = Some None).
  { destruct HS1 as (HInv1 & _).
    destruct (inv_requests _ HInv1 _ _ _ (Hreq [])) as [_ Hfo]. simpl in Hfo.
    destruct Hfo as [[Hr _]|(o1 & _ & Hl1)]; [done|].
    assert (Hlp : status s1 (n + 2) = Some None).
    { apply (inv_pending _ HInv1). apply elem_of_targets. left.
      by exists (n + 1), (catch_failed k (n + 2)). }
    congruence. }
  assert (Hreg1 : reg s1 (n + 3) y).
  { eapply grows_reg; [apply grows_step| |exact Hrp]. unfold y. by rewrite Hp. }
  (* it follows the load promise *)
  set (s3 := exec (drain n1) s1) in *.
  assert (HS3 : Sound s3) by (by apply sound_exec).
  destruct HS3 as (HInv3 & HT3 & _).
  destruct (inv_requests _ HInv3 _ _ _ (Hreq (drain n1))) as [_ Hfo]. simpl in Hfo.
  destruct (follows_eventually s3 (n + 3) (n + 2) o HInv3 HT3 Hfo Hl) as [n2 Hr].
  unfold s3 in Hr. rewrite <- drain_add in Hr.
  destruct (reaction_fires s1 (n + 3) y o (n1 + n2) HS1 Hreg1 Hr) as (n' & q & HSh & Hh & Hrs).
  exists n', q. split; [done|]. split; [done|].
  destruct HSh as (HInvh & _).
  destruct (inv_requests _ HInvh _ _ _ (Hreq (drain n'))) as [Hse Hfoh]. simpl in Hse, Hfoh.
  split; [by apply (follows_agree _ _ _ _ Hfoh)|done].
Qed.

(** The import fulfils: the loader's promise is fulfilled with what its
    continuation returns. *)
Lemma load_resolves m out (Q : tables -> Prop) :
  key_status k s = Unloaded ->
  (forall s0, (call_value None f (Namespace m) s0).1 = out) ->
  (forall s0, Q (tables_of (call_value None f (Namespace m) s0).2)) ->
  exists N,
    let s' := exec (drain N) (step (ImportFulfils n m) (c s).2) in
    status s' (c s).1 = Some (Some out) /\ Q (tables_of s') /\
    Map_get k (moduleCache s') = Some (Namespace m) /\
    Map_get k (loadingPromises s') = None.
Proof.
  intros Hun Hout HQ.
  destruct (load_start k sp f s Hun) as (Hp & Himp & Htr & Hpend & Hreg).
  fold c n in Hp, Himp, Htr, Hpend, Hreg.
  pose proof loader_sound as HSc.
  assert (Hinv : Invoked k n (n + 1) (n + 2) ∈ trace (c s).2).
  { rewrite Htr. apply elem_of_app. right. by left. }
  destruct (load_promise_fulfils (c s).2 k n (n + 1) (n + 2) m HSc Hinv Hpend)
    as (n1 & Hl & _).
  destruct (loader_reaction_fires (ImportFulfils n m) (Fulfilled (Namespace m)) n1
              Hun eq_refl Hl) as (n' & q & HSh & Hh & Hlh & Hse).
  set (sh := exec (drain n') (step (ImportFulfils n m) (c s).2)) in *.
  pose proof HSh as (HInvh & _).
  destruct (microtask_job_runs sh y _ q HInvh Hh) as (Hst & _ & HT & _).
  cbv zeta in Hst, HT. set (s0 := set_microtasks (fun _ => q) sh) in *.
  change (handle None y (Fulfilled (Namespace m)) s0)
    with (call_value None f (Namespace m) s0) in Hst, HT.
  change (target y) with (c s).1 in Hst. rewrite Hout in Hst.
  exists (n' + 1). rewrite drain_add. fold sh.
  change (exec (drain 1) sh) with (step Microtask sh).
  assert (HInvf : Inv (step Microtask sh)) by (by apply inv_step).
  assert (Hc : Map_get k (moduleCache (step Microtask sh)) = Some (Namespace m)).
  { apply (cache_kept [Microtask] sh); [done|]. by apply (served_value sh k (n + 2)). }
  split; [|split; [|split]].
  - exact Hst.
  - rewrite HT. apply HQ.
  - done.
  - by apply (inv_exclusive _ HInvf _ _ Hc).
Qed.

(** The import rejects: the loader's promise is rejected with the error. *)
Lemma load_rejects e :
  key_status k s = Unloaded ->
  exists N,
    let s' := exec (drain N) (step (ImportRejects n e) (c s).2) in
    status s' (c s).1 = Some (Some (Rejected e)) /\
    key_status k s' = Unloaded /\
    ConsoleError k e ∈ trace s'.
Proof.
  intros Hun.
  destruct (load_start k sp f s Hun) as (Hp & Himp & Htr & Hpend & Hreg).
  fold c n in Hp, Himp, Htr, Hpend, Hreg.
  pose proof loader_sound as HSc.
  assert (Hinv : Invoked k n (n + 1) (n + 2) ∈ trace (c s).2).
  { rewrite Htr. apply elem_of_app. right. by left. }
  set (s1 := step (ImportRejects n e) (c s).2).
  destruct (load_promise_rejects (c s).2 k n (n + 1) (n + 2) e HSc Hinv Hpend)
    as (n1 & Hl0 & Hl & Hkey & Ht3). fold s1 in Hl0, Hl, Hkey, Ht3.
  assert (Hl' : status (exec (drain (n1 + 1)) s1) (n + 2) = Some (Some (Rejected e))).
  { by rewrite drain_add. }
  destruct (loader_reaction_fires (ImportRejects n e) (Rejected e) (n1 + 1)
              Hun eq_refl Hl') as (n' & q & HSh & Hh & Hlh & _).
  fold s1 in HSh, Hh, Hlh.
  set (sh := exec (drain n') s1) in *.
  pose proof HSh as (HInvh & _).
  destruct (microtask_job_runs sh y _ q HInvh Hh) as (Hst & _ & _).
  cbv zeta in Hst. set (s0 := set_microtasks (fun _ => q) sh) in *.
  change (handle None y (Rejected e) s0) with (Rejected e, s0) in Hst.
  change (target y) with (c s).1 in Hst.
  (* the loader's reaction runs after the load promise was rejected *)
  assert (Hord : n1 < n').
  { destruct (Nat.lt_ge_cases n1 n') as [?|Hge]; [done|]. exfalso.
    replace n1 with (n' + (n1 - n')) in Hl0 by lia. rewrite drain_add in Hl0.
    fold sh in Hl0. rewrite (settled_exec _ _ _ _ Hlh) in Hl0. discriminate. }
  set (s3 := step Microtask (exec (drain n1) s1)) in *.
  assert (HS3 : Sound s3) by (by apply sound_step, sound_exec, sound_step).
  assert (Ef : exec (drain (n' + 1)) s1 = exec (drain (n' - n1)) s3).
  { replace (n' + 1) with (n1 + (1 + (n' - n1))) by lia. by rewrite !drain_add. }
  exists (n' + 1). cbv zeta. fold s1. split; [|rewrite Ef; split].
  - rewrite drain_add. fold sh. change (exec (drain 1) sh) with (step Microtask sh).
    exact Hst.
  - apply drain_keeps_unloaded; [apply HS3|done].
  - apply trace_exec_elem. rewrite Ht3. apply elem_of_app. right. by left.
Qed.

(** The key is cached: the loader's reaction is queued at once. *)
Lemma load_resolves_cached m out (Q : tables -> Prop) :
  Map_get k (moduleCache s) = Some (Namespace m) ->
  (forall s0, (call_value None f (Namespace m) s0).1 = out) ->
  (forall s0, Q (tables_of (call_value None f (Namespace m) s0).2)) ->
  imports (c s).2 = imports s /\
  exists N,
    let s' := exec (drain N) (c s).2 in
    status s' (c s).1 = Some (Some out) /\ Q (tables_of s').
Proof.
  intros Hc Hout HQ.
  destruct (load_cached k sp f s _ Hc) as (Hp & Himp & Hq). fold c n in Hp, Himp, Hq.
  split; [done|].
  pose proof loader_sound as HSc.
  destruct (job_reaches_head _ _ Hq) as (n' & q & Hh).
  set (sh := exec (drain n') (c s).2) in *.
  assert (HSh : Sound sh) by (by apply sound_exec).
  destruct HSh as (HInvh & _).
  destruct (microtask_job_runs sh _ _ q HInvh Hh) as (Hst & _ & HT & _).
  cbv zeta in Hst, HT. set (s0 := set_microtasks (fun _ => q) sh) in *.
  match type of Hst with context [handle _ ?r _ _] =>
    change (handle None r (Fulfilled (Namespace m)) s0)
      with (call_value None f (Namespace m) s0) in Hst, HT;
    change (target r) with (n + 1) in Hst
  end.
  rewrite Hout in Hst.
  exists (n' + 1). rewrite drain_add. fold sh.
  change (exec (drain 1) sh) with (step Microtask sh). split.
  - by rewrite Hp.
  - rewrite HT. apply HQ.
Qed.
End Loader.

Lemma after_mermaid_result m s0 :
  (call_value None after_mermaid (Namespace m) s0).1 = Fulfilled (DefaultExport m) /\
  bool_decide (m ∈ t_initialized (tables_of (call_value None after_mermaid (Namespace m) s0).2))
    = true.
Proof.
  simpl. unfold bind, get, isInitialized. simpl.
  destruct (bool_decide (m ∈ initialized s0)) eqn:E; simpl; [done|].
  split; [done|]. apply bool_decide_eq_true. by left.
Qed.

Lemma after_katex_result m s0 :
  (call_value None after_katex (Namespace m) s0).1 = Fulfilled (DefaultExport m) /\
  existsb (includes "katex")
    (t_links (tables_of (call_value None after_katex (Namespace m) s0).2)) = true.
Proof.
  simpl. unfold bind, get. simpl. destruct (has_katex_link s0) eqn:E; simpl; [done|].
  split; [done|]. rewrite existsb_app. cbn [existsb].
  rewrite katex_css_includes. simpl. apply orb_true_r.
Qed.

Lemma after_mermaid_continues sh m p q :
  Inv sh ->
  microtasks sh = ReactionJob {| on_fulfilled := Some after_mermaid; on_rejected := None;
                                 target := p |} (Fulfilled (Namespace m)) :: q ->
  status sh p = Some None /\ loadMermaid_continues m p sh.
Proof.
  intros HInv Hh. split.
  { apply (inv_pending _ HInv). apply (head_target _ _ _ Hh). }
  set (s0 := set_microtasks (fun _ => q) sh).
  assert (Hrun : forall x,
    let h := call_value x after_mermaid (Namespace m) s0 in
    let s' := run_microtask x sh in
    status s' p = Some (Some h.1) /\ tables_of s' = tables_of h.2 /\ trace s' = trace h.2).
  { intros x. destruct (reaction_job_runs x sh _ _ q HInv Hh) as (Hst & _ & HT & Htr).
    done. }
  split; [|split].
  - destruct (Hrun None) as (Hst & HT & _). cbv zeta in *.
    destruct (after_mermaid_result m s0) as [Ho Hi]. rewrite Ho in Hst.
    split; [exact Hst|]. unfold isInitialized.
    change (initialized (step Microtask sh))
      with (t_initialized (tables_of (run_microtask None sh))).
    by rewrite HT.
  - destruct (Hrun (Some no_default_export)) as (Hst & HT & Htr). cbv zeta in *.
    split; [exact Hst|]. split; [|exact Htr].
    change (initialized (step (MicrotaskFault no_default_export) sh))
      with (t_initialized (tables_of (run_microtask (Some no_default_export) sh))).
    by rewrite HT.
  - intros e. destruct (Hrun (Some (initialize_throws e))) as (Hst & HT & Htr).
    cbv zeta in *.
    assert (Hi : initialized (step (MicrotaskFault (initialize_throws e)) sh)
                 = initialized (call_value (Some (initialize_throws e)) after_mermaid
                                  (Namespace m) s0).2).
    { change (initialized (step (MicrotaskFault (initialize_throws e)) sh))
        with (t_initialized (tables_of (run_microtask (Some (initialize_throws e)) sh))).
      by rewrite HT. }
    unfold isInitialized at 1 2. rewrite Hi.
    change (step (MicrotaskFault (initialize_throws e)) sh)
      with (run_microtask (Some (initialize_throws e)) sh).
    rewrite Hst, Htr. clear Hst HT Htr Hi Hrun.
    simpl call_value. unfold bind, get. simpl.
    change (isInitialized m s0) with (isInitialized m sh).
    destruct (isInitialized m sh) eqn:E; simpl; done.
Qed.

Section LoaderContinuation.
Variables (k sp : string) (f : on_value) (s : state).
Hypothesis HS : Sound s.
Hypothesis Hf : is_after f.
Hypothesis Hk : f = after_mermaid -> k = "mermaid".

Let c : M pid := (r <- lazyLoad k sp ;; then_ r (Some f) None).
Let n := length (heap s).
Let y : reaction := {| on_fulfilled := Some f; on_rejected := None; target := (c s).1 |}.

(** The import fulfils: the continuation of the loader comes to the head of
    the queue, with the module cached. *)
Lemma load_continues m :
  key_status k s = Unloaded ->
  exists N q,
    let sh := exec (drain N) (step (ImportFulfils n m) (c s).2) in
    Inv sh /\ microtasks sh = ReactionJob y (Fulfilled (Namespace m)) :: q /\
    Map_get k (moduleCache sh) = Some (Namespace m) /\
    Map_get k (loadingPromises sh) = None.
Proof.
  intros Hun.
  destruct (load_start k sp f s Hun) as (Hp & Himp & Htr & Hpend & Hreg).
  fold c n in Hp, Himp, Htr, Hpend, Hreg.
  pose proof (loader_sound k sp f s HS Hf Hk) as HSc. fold c in HSc.
  assert (Hinv : Invoked k n (n + 1) (n + 2) ∈ trace (c s).2).
  { rewrite Htr. apply elem_of_app. right. by left. }
  destruct (load_promise_fulfils (c s).2 k n (n + 1) (n + 2) m HSc Hinv Hpend)
    as (n1 & Hl & _).
  destruct (loader_reaction_fires k sp f s HS Hf Hk (ImportFulfils n m)
              (Fulfilled (Namespace m)) n1 Hun eq_refl Hl)
    as (n' & q & HSh & Hh & Hlh & Hse).
  exists n', q. cbv zeta. fold c n.
  set (sh := exec (drain n') (step (ImportFulfils n m) (c s).2)) in *.
  pose proof HSh as (HInvh & _).
  assert (Hc : Map_get k (moduleCache sh) = Some (Namespace m)).
  { by apply (served_value sh k (n + 2)). }
  split; [done|]. split; [exact Hh|]. split; [done|].
  by apply (inv_exclusive _ HInvh _ _ Hc).
Qed.

Lemma load_continues_cached m :
  Map_get k (moduleCache s) = Some (Namespace m) ->
  imports (c s).2 = imports s /\
  exists N q,
    let sh := exec (drain N) (c s).2 in
    Inv sh /\ microtasks sh = ReactionJob y (Fulfilled (Namespace m)) :: q.
Proof.
  intros Hc.
  destruct (load_cached k sp f s _ Hc) as (Hp & Himp & Hq). fold c n in Hp, Himp, Hq.
  split; [done|].
  pose proof (loader_sound k sp f s HS Hf Hk) as HSc. fold c in HSc.
  destruct (job_reaches_head _ _ Hq) as (n' & q & Hh).
  exists n', q. cbv zeta.
  assert (HSh : Sound (exec (drain n') (c s).2)) by (by apply sound_exec).
  split; [apply HSh|]. unfold y. by rewrite Hp.
Qed.
End LoaderContinuation.

(** X11: loadMermaid, called in any state a run can reach.  If mermaid is
    unloaded the call starts one import.  When that import is fulfilled with
    a module, then after finitely many microtasks the module is cached, the
    in-flight entry is gone, and the code of loadMermaid after its await is
    the next job, the promise of the call still pending.  What that job
    does depends on the library.  If the module has a default export and
    [initialize] returns, the promise is fulfilled with the default export,
    whose flag is then set.  If the module has no default export, the
    promise is rejected with a TypeError and nothing is initialized.  If
    [initialize] throws, the promise is rejected with what it threw and the
    flag stays unset (unless the flag was set already: then [initialize] is
    not called and the promise is fulfilled).  When the import is rejected,
    the promise is rejected with the same error, the failure is logged and
    mermaid is unloaded again.  If the module is cached the call starts no
    import and, after finitely many microtasks, the same continuation is the
    next job. *)
Theorem loadMermaid_resolves : forall ric page_links ls,
  let s := exec ls (init ric page_links) in
  let p := (loadMermaid s).1 in
  let s1 := step CallLoadMermaid s in
  (key_status "mermaid" s = Unloaded ->
     let i := length (heap s) in
     imports s1 = imports s ++ [i] /\
     (forall m, exists n,
        let sh := exec (drain n) (step (ImportFulfils i m) s1) in
        Map_get "mermaid" (moduleCache sh) = Some (Namespace m) /\
        Map_get "mermaid" (loadingPromises sh) = None /\
        status sh p = Some None /\
        loadMermaid_continues m p sh) /\
     (forall e, exists n,
        let s' := exec (drain n) (step (ImportRejects i e) s1) in
        status s' p = Some (Some (Rejected e)) /\
        key_status "mermaid" s' = Unloaded /\
        ConsoleError "mermaid" e ∈ trace s')) /\
  (forall m, Map_get "mermaid" (moduleCache s) = Some (Namespace m) ->
     imports s1 = imports s /\
     exists n,
       let sh := exec (drain n) s1 in
       status sh p = Some None /\ loadMermaid_continues m p sh).
Proof.
  intros ric page_links ls s p s1.
  pose proof (sound_reachable ric page_links ls) as HS. fold s in HS. split.
  - intros Hun i.
    destruct (load_start "mermaid" "mermaid" after_mermaid s Hun) as (_ & Himp & _).
    split; [exact Himp|]. split.
    + intros m.
      destruct (load_continues "mermaid" "mermaid" after_mermaid s HS I (fun _ => eq_refl)
                  m Hun) as (N & q & HInv & Hh & Hc & Hl).
      exists N. split; [exact Hc|]. split; [exact Hl|].
      exact (after_mermaid_continues _ m p q HInv Hh).
    + intros e.
      exact (load_rejects "mermaid" "mermaid" after_mermaid s HS I (fun _ => eq_refl) e Hun).
  - intros m Hc.
    destruct (load_continues_cached "mermaid" "mermaid" after_mermaid s HS I
                (fun _ => eq_refl) m Hc) as (Himp & N & q & HInv & Hh).
    split; [exact Himp|]. exists N.
    exact (after_mermaid_continues _ m p q HInv Hh).
Qed.

Lemma loadMermaid_witness :
  exists n,
    let sh := exec (drain n)
                (step (ImportFulfils 0 7) (step CallLoadMermaid (init true []))) in
    Map_get "mermaid" (moduleCache sh) = Some (Namespace 7) /\
    Map_get "mermaid" (loadingPromises sh) = None /\
    status sh 4 = Some None /\
    loadMermaid_continues 7 4 sh.
Proof.
  exact (proj1 (proj2 (proj1 (loadMermaid_resolves true [] []) eq_refl)) 7).
Defined.

(** X12: loadKaTeX, called in any state a run can reach: as loadMermaid, with
    the stylesheet in place of the initialization.  When the promise of the
    call is fulfilled, with the default export of the module, the document
    has a link to a katex stylesheet. *)
Theorem loadKaTeX_resolves : forall ric page_links ls,
  let s := exec ls (init ric page_links) in
  let p := (loadKaTeX s).1 in
  let s1 := step CallLoadKaTeX s in
  (key_status "katex" s = Unloaded ->
     let i := length (heap s) in
     imports s1 = imports s ++ [i] /\
     (forall m, exists n,
        let s' := exec (drain n) (step (ImportFulfils i m) s1) in
        status s' p = Some (Some (Fulfilled (DefaultExport m))) /\
        has_katex_link s' = true /\
        Map_get "katex" (moduleCache s') = Some (Namespace m) /\
        Map_get "katex" (loadingPromises s') = None) /\
     (forall e, exists n,
        let s' := exec (drain n) (step (ImportRejects i e) s1) in
        status s' p = Some (Some (Rejected e)) /\
        key_status "katex" s' = Unloaded /\
        ConsoleError "katex" e ∈ trace s')) /\
  (forall m, Map_get "katex" (moduleCache s) = Some (Namespace m) ->
     imports s1 = imports s /\
     exists n,
       let s' := exec (drain n) s1 in
       status s' p = Some (Some (Fulfilled (DefaultExport m))) /\
       has_katex_link s' = true).
Proof.
  intros ric page_links ls s p s1.
  pose proof (sound_reachable ric page_links ls) as HS. fold s in HS.
  assert (Hk : after_katex = after_mermaid -> "katex" = "mermaid") by discriminate.
  split.
  - intros Hun i.
    destruct (load_start "katex" "katex" after_katex s Hun) as (_ & Himp & _).
    split; [exact Himp|]. split.
    + intros m.
      exact (load_resolves "katex" "katex" after_katex s HS I Hk m
               (Fulfilled (DefaultExport m))
               (fun T => existsb (includes "katex") (t_links T) = true) Hun
               (fun s0 => proj1 (after_katex_result m s0))
               (fun s0 => proj2 (after_katex_result m s0))).
    + intros e. exact (load_rejects "katex" "katex" after_katex s HS I Hk e Hun).
  - intros m Hc.
    exact (load_resolves_cached "katex" "katex" after_katex s HS I Hk m
             (Fulfilled (DefaultExport m))
             (fun T => existsb (includes "katex") (t_links T) = true) Hc
             (fun s0 => proj1 (after_katex_result m s0))
             (fun s0 => proj2 (after_katex_result m s0))).
Qed.

Lemma loadKaTeX_witness :
  exists n,
    let s' := exec (drain n)
                (step (ImportRejects 0 (ImportError 1)) (step CallLoadKaTeX (init true []))) in
    status s' 4 = Some (Some (Rejected (ImportError 1))) /\
    key_status "katex" s' = Unloaded /\
    ConsoleError "katex" (ImportError 1) ∈ trace s'.
Proof.
  exact (proj2 (proj2 (proj1 (loadKaTeX_resolves true [] []) eq_refl)) (ImportError 1)).
Defined.

(** X13: loadHtml2Pdf, called in any state a run can reach: the cache key is
    html2pdf; the promise of the call is fulfilled with the default export
    of the module, or rejected with the error of the import. *)
Theorem loadHtml2Pdf_resolves : forall ric page_links ls,
  let s := exec ls (init ric page_links) in
  let p := (loadHtml2Pdf s).1 in
  let s1 := step CallLoadHtml2Pdf s in
  (key_status "html2pdf" s = Unloaded ->
     let i := length (heap s) in
     imports s1 = imports s ++ [i] /\
     (forall m, exists n,
        let s' := exec (drain n) (step (ImportFulfils i m) s1) in
        status s' p = Some (Some (Fulfilled (DefaultExport m))) /\
        Map_get "html2pdf" (moduleCache s') = Some (Namespace m) /\
        Map_get "html2pdf" (loadingPromises s') = None) /\
     (forall e, exists n,
        let s' := exec (drain n) (step (ImportRejects i e) s1) in
        status s' p = Some (Some (Rejected e)) /\
        key_status "html2pdf" s' = Unloaded /\
        ConsoleError "html2pdf" e ∈ trace s')) /\
  (forall m, Map_get "html2pdf" (moduleCache s) = Some (Namespace m) ->
     imports s1 = imports s /\
     exists n, status (exec (drain n) s1) p = Some (Some (Fulfilled (DefaultExport m)))).
Proof.
  intros ric page_links ls s p s1.
  pose proof (sound_reachable ric page_links ls) as HS. fold s in HS.
  assert (Hk : after_html2pdf = after_mermaid -> "html2pdf" = "mermaid") by discriminate.
  split.
  - intros Hun i.
    destruct (load_start "html2pdf" "html2pdf.js" after_html2pdf s Hun) as (_ & Himp & _).
    split; [exact Himp|]. split.
    + intros m.
      destruct (load_resolves "html2pdf" "html2pdf.js" after_html2pdf s HS I Hk m
                  (Fulfilled (DefaultExport m)) (fun _ => True) Hun
                  (fun _ => eq_refl) (fun _ => I)) as (n & H1 & _ & H2 & H3).
      exists n. auto.
    + intros e. exact (load_rejects "html2pdf" "html2pdf.js" after_html2pdf s HS I Hk e Hun).
  - intros m Hc.
    destruct (load_resolves_cached "html2pdf" "html2pdf.js" after_html2pdf s HS I Hk m
                (Fulfilled (DefaultExport m)) (fun _ => True) Hc
                (fun _ => eq_refl) (fun _ => I)) as (Himp & n & H1 & _).
    split; [exact Himp|]. by exists n.
Qed.

Lemma loadHtml2Pdf_witness :
  exists n,
    let s' := exec (drain n)
                (step (ImportFulfils 0 7) (step CallLoadHtml2Pdf (init true []))) in
    status s' 4 = Some (Some (Fulfilled (DefaultExport 7))) /\
    Map_get "html2pdf" (moduleCache s') = Some (Namespace 7) /\
    Map_get "html2pdf" (loadingPromises s') = None.
Proof.
  exact (proj1 (proj2 (proj1 (loadHtml2Pdf_resolves true [] []) eq_refl)) 7).
Defined.

(** X14: loadDocx, called in any state a run can reach: unlike the other three
    loaders it hands out the module itself, not its default export. *)
Theorem loadDocx_resolves : forall ric page_links ls,
  let s := exec ls (init ric page_links) in
  let p := (loadDocx s).1 in
  let s1 := step CallLoadDocx s in
  (key_status "docx" s = Unloaded ->
     let i := length (heap s) in
     imports s1 = imports s ++ [i] /\
     (forall m, exists n,
        let s' := exec (drain n) (step (ImportFulfils i m) s1) in
        status s' p = Some (Some (Fulfilled (Namespace m))) /\
        Map_get "docx" (moduleCache s') = Some (Namespace m) /\
        Map_get "docx" (loadingPromises s') = None) /\
     (forall e, exists n,
        let s' := exec (drain n) (step (ImportRejects i e) s1) in
        status s' p = Some (Some (Rejected e)) /\
        key_status "docx" s' = Unloaded /\
        ConsoleError "docx" e ∈ trace s')) /\
  (forall m, Map_get "docx" (moduleCache s) = Some (Namespace m) ->
     imports s1 = imports s /\
     exists n, status (exec (drain n) s1) p = Some (Some (Fulfilled (Namespace m)))).
Proof.
  intros ric page_links ls s p s1.
  pose proof (sound_reachable ric page_links ls) as HS. fold s in HS.
  assert (Hk : after_docx = after_mermaid -> "docx" = "mermaid") by discriminate.
  split.
  - intros Hun i.
    destruct (load_start "docx" "docx" after_docx s Hun) as (_ & Himp & _).
    split; [exact Himp|]. split.
    + intros m.
      destruct (load_resolves "docx" "docx" after_docx s HS I Hk m
                  (Fulfilled (Namespace m)) (fun _ => True) Hun
                  (fun _ => eq_refl) (fun _ => I)) as (n & H1 & _ & H2 & H3).
      exists n. auto.
    + intros e. exact (load_rejects "docx" "docx" after_docx s HS I Hk e Hun).
  - intros m Hc.
    destruct (load_resolves_cached "docx" "docx" after_docx s HS I Hk m
                (Fulfilled (Namespace m)) (fun _ => True) Hc
                (fun _ => eq_refl) (fun _ => I)) as (Himp & n & H1 & _).
    split; [exact Himp|]. by exists n.
Qed.

Lemma loadDocx_witness :
  exists n,
    let s' := exec (drain n)
                (step (ImportFulfils 0 7) (step CallLoadDocx (init true []))) in
    status s' 4 = Some (Some (Fulfilled (Namespace 7))) /\
    Map_get "docx" (moduleCache s') = Some (Namespace 7) /\
    Map_get "docx" (loadingPromises s') = None.
Proof.
  exact (proj1 (proj2 (proj1 (loadDocx_resolves true [] []) eq_refl)) 7).
Defined.


(** ** Preloading *)

Lemma settle_idle p o s : idleCallbacks (settle p o s).2 = idleCallbacks s.
Proof. unfold settle. by destruct (heap s !! p) as [[[o'|] rs]|]. Qed.

Lemma handle_idle x r o s : idleCallbacks (handle x r o s).2 = idleCallbacks s.
Proof.
  destruct o as [v|e]; simpl.
  - destruct (on_fulfilled r) as [[k| | | |]|]; simpl; try done.
    + destruct v as [m| |]; simpl; try done.
      destruct x as [[|e]|]; simpl; try done; unfold bind, get; simpl;
        by destruct (negb (isInitialized m s)).
    + unfold bind, get. simpl. by destruct (negb (has_katex_link s)), v.
    + by destruct v.
  - by destruct (on_rejected r) as [[k|]|].
Qed.

Lemma load_idle k sp f s :
  idleCallbacks ((r <- lazyLoad k sp ;; then_ r (Some f) None) s).2 = idleCallbacks s.
Proof.
  unfold bind. destruct (lazyLoad_tables k sp s) as (Hi & _).
  destruct (lazyLoad k sp s) as [r s1]. simpl in *.
  destruct (then_tables r (Some f) None s1) as (_ & _ & Hi1). congruence.
Qed.

Lemma run_microtask_idle x s :
  idleCallbacks s = [] -> idleCallbacks (run_microtask x s) = [].
Proof.
  intros Hi. cbn [run_microtask].
  destruct (microtasks s) as [|[r o|a b] q]; [done| |].
  - cbn [run_job]. unfold bind.
    pose proof (handle_idle x r o (set_microtasks (fun _ => q) s)) as H.
    destruct (handle x r o _) as [o' s1]. simpl in *. by rewrite settle_idle, H.
  - cbn [run_job].
    match goal with |- idleCallbacks (subscribe ?p ?y ?s0).2 = _ =>
      by destruct (subscribe_tables p y s0) as (_ & _ & ->)
    end.
Qed.

Lemma step_without_idle_facility l s :
  hasRequestIdleCallback s = false -> idleCallbacks s = [] ->
  hasRequestIdleCallback (step l s) = false /\ idleCallbacks (step l s) = [].
Proof.
  intros Hh Hi. split.
  { destruct (delta_step l s) as (evs & (_ & _ & _ & Hr) & _). congruence. }
  destruct l as [| | | |modules|n|i m|i e| |x]; cbn [step];
    try (by unfold loadMermaid, loadKaTeX, loadHtml2Pdf, loadDocx; rewrite load_idle).
  - unfold preloadInBackground, bind, get. by rewrite Hh.
  - by rewrite Hi.
  - unfold host_settle, bind, get. destruct (bool_decide _); [by rewrite settle_idle|done].
  - unfold host_settle, bind, get. destruct (bool_decide _); [by rewrite settle_idle|done].
  - by apply run_microtask_idle.
  - by apply run_microtask_idle.
Qed.

(** X15: Where the runtime has no requestIdleCallback, at every point of every
    run no idle callback is registered, a call of preloadInBackground
    changes nothing, and there is no callback for the browser to run:
    preloading is skipped altogether. *)
Theorem preload_skipped_without_idle_facility : forall page_links ls,
  let s := exec ls (init false page_links) in
  idleCallbacks s = [] /\
  (forall modules, step (CallPreloadInBackground modules) s = s) /\
  (forall j, step (IdleCallback j) s = s).
Proof.
  intros page_links ls s.
  assert (H : hasRequestIdleCallback s = false /\ idleCallbacks s = []).
  { unfold s. clear s. induction ls as [|l ls IH] using rev_ind; [done|].
    rewrite exec_app. destruct IH as [Hh Hi].
    by apply (step_without_idle_facility l). }
  destruct H as [Hh Hi]. split; [done|]. split.
  - intros modules. cbn [step]. unfold preloadInBackground, bind, get. by rewrite Hh.
  - intros j. cbn [step]. by rewrite Hi.
Qed.

Lemma then_status_old p f g s x :
  x < length (heap s) -> status (then_ p f g s).2 x = status s x.
Proof.
  intros Hx. unfold then_, bind, new_promise, ret.
  match goal with |- context [subscribe ?q ?y ?s1] =>
    pose proof (subscribe_status_any q y s1 x) as H; destruct (subscribe q y s1) as [[] s2]
  end. simpl in *. rewrite H. unfold status. simpl. by rewrite lookup_app_l.
Qed.

Lemma then_registers p f g s :
  status s p = Some None ->
  reg (then_ p f g s).2 p
    {| on_fulfilled := f; on_rejected := g; target := (then_ p f g s).1 |}.
Proof.
  intros Hp. pose proof (status_Some_lt _ _ _ Hp) as Hlt.
  apply status_pending in Hp as [rs Hrs].
  rewrite (then_at s [] (heap s) p p rs f g eq_refl eq_refl Hrs).
  cbn [fst snd]. unfold reg. cbn [heap set_heap app].
  eexists. split.
  - apply list_lookup_insert_eq. rewrite length_app. simpl. lia.
  - cbn [reactions]. apply elem_of_app. right. by left.
Qed.

Lemma advances_swallowed (c : M pid) s :
  advances s (c s).2 ->
  advances s ((p <- c ;; _ <- then_ p None (Some swallow) ;; ret tt) s).2.
Proof. apply R_swallowed; [apply advances_trans|apply advances_then]. Qed.

(** A caller's reaction on the promise lazyLoad returned, in any state:
    when the load promise is settled the reaction comes to run with its
    outcome. *)
Lemma caller_reaction_fires sc lbl k i t l r y o n1 :
  Sound sc ->
  Invoked k i t l ∈ trace sc -> Requested k r (Started l) ∈ trace sc ->
  status sc i = Some None -> reg sc r y ->
  let s1 := step lbl sc in
  step lbl sc = (host_settle i o sc).2 ->
  status (exec (drain n1) s1) l = Some (Some o) ->
  Sound s1 /\ reg s1 r y /\
  exists n' q,
    let sh := exec (drain n') s1 in
    Sound sh /\ microtasks sh = ReactionJob y o :: q /\
    status sh l = Some (Some o).
Proof.
  intros HSc Hinv Hreq0 Hpend Hreg s1 Hstep Hl.
  assert (HS1 : Sound s1) by (by apply sound_step).
  assert (Hreq : forall ls, Requested k r (Started l) ∈ trace (exec ls s1)).
  { intros ls. apply trace_exec_elem. by apply (trace_exec_elem [lbl]). }
  destruct (import_settled sc lbl k i t l o HSc Hinv Hpend Hstep) as (Hq1 & Hr1).
  fold s1 in Hq1, Hr1.
  assert (Hrp : status s1 r = Some None).
  { destruct HS1 as (HInv1 & _).
    destruct (inv_requests _ HInv1 _ _ _ (Hreq [])) as [_ Hfo]. simpl in Hfo.
    destruct Hfo as [[Hr _]|(o1 & _ & Hl1)]; [done|].
    assert (Hlp : status s1 l = Some None).
    { apply (inv_pending _ HInv1). apply elem_of_targets. left.
      by exists t, (catch_failed k l). }
    congruence. }
  assert (Hreg1 : reg s1 r y).
  { eapply grows_reg; [apply grows_step|exact Hreg|exact Hrp]. }
  split; [done|]. split; [done|].
  set (s3 := exec (drain n1) s1) in *.
  assert (HS3 : Sound s3) by (by apply sound_exec).
  destruct HS3 as (HInv3 & HT3 & _).
  destruct (inv_requests _ HInv3 _ _ _ (Hreq (drain n1))) as [_ Hfo]. simpl in Hfo.
  destruct (follows_eventually s3 r l o HInv3 HT3 Hfo Hl) as [n2 Hr].
  unfold s3 in Hr. rewrite <- drain_add in Hr.
  destruct (reaction_fires s1 r y o (n1 + n2) HS1 Hreg1 Hr) as (n' & q & HSh & Hh & Hrs).
  exists n', q. split; [done|]. split; [done|].
  destruct HSh as (HInvh & _).
  destruct (inv_requests _ HInvh _ _ _ (Hreq (drain n'))) as [_ Hfoh]. simpl in Hfoh.
  by apply (follows_agree _ _ _ _ Hfoh).
Qed.

Section Swallowed.
Variables (k sp : string) (f : on_value) (s : state).
Hypothesis HS : Sound s.
Hypothesis Hf : is_after f.
Hypothesis Hk : f = after_mermaid -> k = "mermaid".
Hypothesis Hun : key_status k s = Unloaded.

Let c : M pid := (r <- lazyLoad k sp ;; then_ r (Some f) None).
Let n := length (heap s).
Let sc := ((p <- c ;; _ <- then_ p None (Some swallow) ;; ret tt) s).2.
Let y : reaction := {| on_fulfilled := Some f; on_rejected := None; target := n + 4 |}.
Let z : reaction := {| on_fulfilled := None; on_rejected := Some swallow; target := n + 5 |}.

Lemma swallowed_sound : Sound sc.
Proof.
  destruct HS as (HI & HT & HC). split; [|split].
  - apply inv_swallowed. by apply inv_load.
  - apply (evolves_swallowed c s); [|done]. apply evolves_load.
  - apply (advances_swallowed c s); [|done]. apply advances_load.
Qed.

Lemma swallowed_start :
  length (heap sc) = n + 6 /\ imports sc = imports s ++ [n] /\
  trace sc = trace s ++ [Invoked k n (n + 1) (n + 2);
                         Requested k (n + 3) (Started (n + 2))] /\
  status sc n = Some None /\ reg sc (n + 3) y /\ reg sc (n + 4) z.
Proof.
  pose proof Hun as Hun'. apply key_status_Unloaded in Hun' as [Hc Hl].
  unfold sc, c, bind, ret. rewrite (lazyLoad_start k sp s Hc Hl). fold n.
  match goal with |- context [then_ _ _ _ ?s1] => set (sl := s1) end.
  erewrite (then_at sl (heap s) _ (n + 3) 3); [|simpl; reflexivity|done|simpl; reflexivity].
  cbn [length list_insert insert app]. fold n.
  match goal with |- context [then_ _ _ _ ?s1] => set (sa := s1) end.
  erewrite (then_at sa (heap s) _ (n + 4) 4); [|simpl; reflexivity|done|simpl; reflexivity].
  unfold status, reg. simpl. rewrite !length_app. simpl. fold n.
  split; [lia|]. split; [done|]. split; [done|].
  split; [by rewrite list_lookup_middle|].
  split.
  - eexists. split.
    + unfold n. rewrite lookup_app_r by lia.
      replace (length (heap s) + 3 - length (heap s)) with 3 by lia. simpl. reflexivity.
    + simpl. by left.
  - eexists. split.
    + unfold n. rewrite lookup_app_r by lia.
      replace (length (heap s) + 4 - length (heap s)) with 4 by lia. simpl. reflexivity.
    + simpl. by left.
Qed.

(** The import rejects: the rejection runs down the chain to the handler
    that swallows it. *)
Lemma swallowed_rejects e :
  exists N,
    let s' := exec (drain N) (step (ImportRejects n e) sc) in
    status s' (n + 5) = Some (Some (Fulfilled Undefined)) /\
    key_status k s' = Unloaded /\
    ConsoleError k e ∈ trace s'.
Proof.
  pose proof swallowed_sound as HSc.
  destruct swallowed_start as (_ & _ & Htr & Hpend & Hregy & Hregz).
  assert (Hinv : Invoked k n (n + 1) (n + 2) ∈ trace sc).
  { rewrite Htr. apply elem_of_app. right. by left. }
  assert (Hreq : Requested k (n + 3) (Started (n + 2)) ∈ trace sc).
  { rewrite Htr. apply elem_of_app. right. right. by left. }
  set (s1 := step (ImportRejects n e) sc).
  destruct (load_promise_rejects sc k n (n + 1) (n + 2) e HSc Hinv Hpend)
    as (n1 & Hl0 & Hl & Hkey & Ht3). fold s1 in Hl0, Hl, Hkey, Ht3.
  assert (Hl' : status (exec (drain (n1 + 1)) s1) (n + 2) = Some (Some (Rejected e))).
  { by rewrite drain_add. }
  destruct (caller_reaction_fires sc (ImportRejects n e) k n (n + 1) (n + 2) (n + 3) y
              (Rejected e) (n1 + 1) HSc Hinv Hreq Hpend Hregy eq_refl Hl')
    as (HS1 & Hregy1 & n' & q & HSh & Hh & Hlh).
  fold s1 in HS1, Hregy1, HSh, Hh, Hlh.
  set (sh := exec (drain n') s1) in *.
  pose proof HSh as (HInvh & _).
  destruct (microtask_job_runs sh y _ q HInvh Hh) as (Hst & _ & _).
  cbv zeta in Hst. set (s0 := set_microtasks (fun _ => q) sh) in *.
  change (handle None y (Rejected e) s0) with (Rejected e, s0) in Hst.
  change (target y) with (n + 4) in Hst. cbn [fst] in Hst.
  assert (Hph : status sh (n + 4) = Some None).
  { apply (inv_pending _ HInvh). apply (head_target _ _ _ Hh). }
  assert (Hord1 : n1 < n').
  { destruct (Nat.lt_ge_cases n1 n') as [?|Hge]; [done|]. exfalso.
    replace n1 with (n' + (n1 - n')) in Hl0 by lia. rewrite drain_add in Hl0.
    fold sh in Hl0. rewrite (settled_exec _ _ _ _ Hlh) in Hl0. discriminate. }
  (* the swallowing handler waits on the loader's promise *)
  assert (Hregz1 : reg s1 (n + 4) z).
  { destruct HS1 as (HInv1 & _).
    eapply grows_reg; [apply grows_step|exact Hregz|].
    apply (inv_pending _ HInv1). apply elem_of_targets. left. by exists (n + 3), y. }
  assert (Hp' : status (exec (drain (n' + 1)) s1) (n + 4) = Some (Some (Rejected e))).
  { rewrite drain_add. exact Hst. }
  destruct (reaction_fires s1 (n + 4) z (Rejected e) (n' + 1) HS1 Hregz1 Hp')
    as (n'' & q2 & HSh2 & Hh2 & Hps2).
  set (sh2 := exec (drain n'') s1) in *.
  pose proof HSh2 as (HInvh2 & _).
  destruct (microtask_job_runs sh2 z _ q2 HInvh2 Hh2) as (Hst2 & _ & _).
  cbv zeta in Hst2. set (s02 := set_microtasks (fun _ => q2) sh2) in *.
  change (handle None z (Rejected e) s02) with (Fulfilled Undefined, s02) in Hst2.
  change (target z) with (n + 5) in Hst2. cbn [fst] in Hst2.
  assert (Hord2 : n' < n'').
  { destruct (Nat.lt_ge_cases n' n'') as [?|Hge]; [done|]. exfalso.
    assert (E : sh = exec (drain (n' - n'')) sh2).
    { unfold sh, sh2. rewrite <- drain_add. f_equal. f_equal. lia. }
    rewrite E in Hph. rewrite (settled_exec _ _ _ _ Hps2) in Hph. discriminate. }
  set (s3 := step Microtask (exec (drain n1) s1)) in *.
  assert (HS3 : Sound s3) by (by apply sound_step, sound_exec).
  assert (Ef : exec (drain (n'' + 1)) s1 = exec (drain (n'' - n1)) s3).
  { replace (n'' + 1) with (n1 + (1 + (n'' - n1))) by lia. by rewrite !drain_add. }
  exists (n'' + 1). cbv zeta. fold s1. split; [|rewrite Ef; split].
  - rewrite drain_add. exact Hst2.
  - apply drain_keeps_unloaded; [apply HS3|done].
  - apply trace_exec_elem. rewrite Ht3. apply elem_of_app. right. by left.
Qed.
End Swallowed.

Lemma sound_idle f s : Sound s -> Sound (set_idleCallbacks f s).
Proof.
  intros (HI & HT & HC). split; [by apply inv_idle|]. split.
  - by apply (evolves_heap_eq s (set_idleCallbacks f s)).
  - by apply (proj2 (advances_silent s (set_idleCallbacks f s)
                       (grows_heap_eq _ _ eq_refl eq_refl) eq_refl)).
Qed.

(** X16: A preload that fails is swallowed.  Take any point of any run where the
    browser holds an idle callback registered for one key, mermaid or katex,
    that is unloaded.  The callback runs and starts the import; if the
    import is rejected then, finitely many microtasks later, the promise of
    [.catch(() => { })], the last one the callback made, is fulfilled with
    undefined and not rejected, the failure is logged, and the key is
    unloaded again, ready for a load on demand. *)
Theorem preload_failure_is_swallowed : forall ric page_links ls j k timeout,
  let s := exec ls (init ric page_links) in
  idleCallbacks s !! j = Some {| idle_modules := [k]; idle_timeout := timeout |} ->
  preloadable k = true ->
  key_status k s = Unloaded ->
  let s1 := step (IdleCallback j) s in
  let i := length (heap s) in
  imports s1 = imports s ++ [i] /\
  length (heap s1) = length (heap s) + 6 /\
  forall e, exists n,
    let s' := exec (drain n) (step (ImportRejects i e) s1) in
    status s' (length (heap s) + 5) = Some (Some (Fulfilled Undefined)) /\
    key_status k s' = Unloaded /\
    ConsoleError k e ∈ trace s'.
Proof.
  intros ric page_links ls j k timeout s Hj Hpre Hun s1 i.
  pose proof (sound_reachable ric page_links ls) as HS. fold s in HS.
  set (s0 := set_idleCallbacks (fun l => take j l ++ drop (S j) l) s).
  assert (HS0 : Sound s0) by (by apply sound_idle).
  assert (Hun0 : key_status k s0 = Unloaded) by done.
  unfold preloadable in Hpre. apply orb_true_iff in Hpre as [Hm|Hm];
    apply String.eqb_eq in Hm; subst k.
  - assert (E1 : s1 = ((p <- loadMermaid ;; _ <- then_ p None (Some swallow) ;; ret tt) s0).2).
    { unfold s1. cbn [step]. rewrite Hj. cbn [idle_modules preload_each]. fold s0.
      unfold bind at 1. change (String.eqb "mermaid" "mermaid") with true. cbv iota.
      by destruct ((p <- loadMermaid ;; _ <- then_ p None (Some swallow) ;; ret tt) s0)
        as [[] ?]. }
    rewrite E1.
    destruct (swallowed_start "mermaid" "mermaid" after_mermaid s0 Hun0)
      as (Hlen & Himp & _).
    split; [exact Himp|]. split; [exact Hlen|]. intros e.
    exact (swallowed_rejects "mermaid" "mermaid" after_mermaid s0 HS0 I (fun _ => eq_refl)
             Hun0 e).
  - assert (Hk : after_katex = after_mermaid -> "katex" = "mermaid") by discriminate.
    assert (E1 : s1 = ((p <- loadKaTeX ;; _ <- then_ p None (Some swallow) ;; ret tt) s0).2).
    { unfold s1. cbn [step]. rewrite Hj. cbn [idle_modules preload_each]. fold s0.
      unfold bind at 1. change (String.eqb "katex" "mermaid") with false.
      change (String.eqb "katex" "katex") with true. cbv iota.
      by destruct ((p <- loadKaTeX ;; _ <- then_ p None (Some swallow) ;; ret tt) s0)
        as [[] ?]. }
    rewrite E1.
    destruct (swallowed_start "katex" "katex" after_katex s0 Hun0)
      as (Hlen & Himp & _).
    split; [exact Himp|]. split; [exact Hlen|]. intros e.
    exact (swallowed_rejects "katex" "katex" after_katex s0 HS0 I Hk Hun0 e).
Qed.

Lemma preload_failure_witness :
  exists n,
    let s' := exec (drain n)
                (step (ImportRejects 0 (ImportError 1))
                   (exec [CallPreloadInBackground (Some ["katex"]); IdleCallback 0]
                      (init true []))) in
    status s' 5 = Some (Some (Fulfilled Undefined)) /\
    key_status "katex" s' = Unloaded /\
    ConsoleError "katex" (ImportError 1) ∈ trace s'.
Proof.
  exact (proj2 (proj2 (preload_failure_is_swallowed true []
           [CallPreloadInBackground (Some ["katex"])] 0 "katex" 5000%N
           eq_refl eq_refl eq_refl)) (ImportError 1)).
Defined.

(** * The initialization guard *)

Lemma step_microtask l s :
  is_microtask l = true -> step l s = run_microtask (fault_of l) s.
Proof. by destruct l. Qed.

Lemma filter_call_events evs :
  forallb is_call_event evs = true -> List.filter is_initialize_call evs = [].
Proof.
  induction evs as [|e evs IH]; simpl; [done|].
  intros H. apply andb_true_iff in H as [He H]. rewrite (IH H). by destruct e.
Qed.

(** A handler calls [initialize] only as the continuation of loadMermaid,
    on a module whose flag is unset. *)
Lemma handle_no_initialize x r o s :
  (forall m, o = Fulfilled (Namespace m) -> on_fulfilled r = Some after_mermaid ->
     m ∈ initialized s) ->
  exists evs, trace (handle x r o s).2 = trace s ++ evs /\
              List.filter is_initialize_call evs = [].
Proof.
  intros H. destruct o as [v|e]; simpl.
  - destruct (on_fulfilled r) as [[k| | | |]|] eqn:Ef; simpl.
    + by exists [CacheSet k v].
    + destruct v as [m| |]; simpl; try (exists []; by rewrite app_nil_r).
      specialize (H m eq_refl eq_refl).
      destruct x as [[|e]|]; simpl; try (exists []; by rewrite app_nil_r);
        unfold bind, get, isInitialized; simpl;
        rewrite bool_decide_eq_true_2 by done; simpl; exists []; by rewrite app_nil_r.
    + unfold bind, get. simpl. destruct (has_katex_link s); simpl.
      * destruct v; simpl; exists []; by rewrite app_nil_r.
      * destruct v; simpl; by exists [AppendLink katex_css].
    + destruct v; simpl; exists []; by rewrite app_nil_r.
    + exists []. by rewrite app_nil_r.
    + exists []. by rewrite app_nil_r.
  - destruct (on_rejected r) as [[k|]|] eqn:Eg; simpl.
    + by exists [ConsoleError k e].
    + exists []. by rewrite app_nil_r.
    + exists []. by rewrite app_nil_r.
Qed.

Lemma initialized_step_calls l s :
  Inv s -> initialized s <> [] ->
  List.filter is_initialize_call (trace (step l s)) =
  List.filter is_initialize_call (trace s).
Proof.
  intros HInv Hne. destruct (is_microtask l) eqn:Hl.
  - rewrite (step_microtask l s Hl). generalize (fault_of l). intros x. simpl.
    destruct (microtasks s) as [|[r o|a b] q] eqn:Hq; [done| |].
    + unfold run_job, bind. set (s0 := set_microtasks (fun _ => q) s).
      destruct (handle_no_initialize x r o s0) as (evs & Ht & Hno).
      { intros m -> Hf. change (initialized s0) with (initialized s).
        assert (Hc : Map_get "mermaid" (moduleCache s) = Some (Namespace m)).
        { apply (inv_mermaid_job _ HInv r); [|done]. unfold queued. rewrite Hq. by left. }
        destruct (initialized s) as [|m0 ms] eqn:Ei; [done|].
        assert (Hm0 : m0 ∈ initialized s) by (rewrite Ei; by left).
        apply (inv_initialized _ HInv) in Hm0. rewrite Hc in Hm0.
        injection Hm0 as ->. by left. }
      destruct (handle x r o s0) as [o' s1]. simpl in *.
      by rewrite settle_trace, Ht, List.filter_app, Hno, app_nil_r.
    + simpl. by rewrite subscribe_trace.
  - destruct (delta_call_step l s Hl) as (evs & (Ht & _) & Hc).
    by rewrite Ht, List.filter_app, (filter_call_events _ Hc), app_nil_r.
Qed.

Lemma replay_keeps_initialized evs : forall T,
  t_initialized T <> [] -> t_initialized (replay evs T) <> [].
Proof.
  induction evs as [|e evs IH]; intros T HT; [done|].
  apply IH. by destruct e.
Qed.

Lemma initialized_grows l s : initialized s <> [] -> initialized (step l s) <> [].
Proof.
  intros Hne. destruct (delta_step l s) as (evs & (_ & HT & _) & _).
  change (initialized (step l s)) with (t_initialized (tables_of (step l s))).
  rewrite HT. by apply replay_keeps_initialized.
Qed.

Lemma initialized_exec_calls ls : forall s,
  Inv s -> initialized s <> [] ->
  List.filter is_initialize_call (trace (exec ls s)) =
  List.filter is_initialize_call (trace s).
Proof.
  induction ls as [|l ls IH]; intros s HInv Hne; [done|].
  simpl. rewrite IH; [by apply initialized_step_calls|by apply inv_step|
  by apply initialized_grows].
Qed.

Lemma initialize_calls_split evs :
  length (List.filter is_initialize_call evs) =
  length (List.filter is_initialize evs) + length (List.filter is_initialize_throw evs).
Proof.
  induction evs as [|e evs IH]; simpl; [done|].
  destruct e; simpl; lia.
Qed.

Lemma initialize_returns_once s :
  Inv s -> length (List.filter is_initialize (trace s)) <= 1.
Proof.
  intros HInv. rewrite (inv_initialize_count _ HInv).
  apply nodup_all_equal; [apply HInv|].
  intros x y Hx Hy. apply (inv_initialized _ HInv) in Hx, Hy. congruence.
Qed.

(** C9, the claim as it stands fails: the flag is set after [initialize]
    has returned, so a call that throws leaves it unset.  Here the first
    loadMermaid is rejected with what [initialize] threw, the second one
    calls [initialize] again, and the history shows two calls. *)
Lemma C9_initialize_runs_again_after_throwing :
  let s := exec initialize_throws_once (init false []) in
  List.filter is_initialize_call (trace s) =
    [InitializeThrew 7 (LibraryError 1); Initialize 7] /\
  status s 4 = Some (Some (Rejected (LibraryError 1))) /\
  status s 6 = Some (Some (Fulfilled (DefaultExport 7))).
Proof. vm_compute. done. Qed.

(** C9: the guard makes [initialize] return at most once in a run, and once
    it has returned it is never called again; the calls of a run are at most
    one more than those that threw.  The code of loadMermaid after its
    await: with the flag set it calls nothing and fulfils; with the flag
    unset it calls [initialize] and, when that returns, sets the flag and
    fulfils; when [initialize] throws, the flag stays unset and the promise
    is rejected with what was thrown; a module without default export gives
    a TypeError before any call. *)
Theorem C9_mermaid_initialize_guarded : forall ric page_links ls,
  let s := exec ls (init ric page_links) in
  length (List.filter is_initialize (trace s)) <= 1 /\
  length (List.filter is_initialize_call (trace s)) <=
    1 + length (List.filter is_initialize_throw (trace s)) /\
  (forall m ls', Initialize m ∈ trace s ->
     List.filter is_initialize_call (trace (exec ls' s)) =
     List.filter is_initialize_call (trace s)) /\
  (forall x m s0, isInitialized m s0 = true -> x <> Some no_default_export ->
     call_value x after_mermaid (Namespace m) s0 = (Fulfilled (DefaultExport m), s0)) /\
  (forall m s0, isInitialized m s0 = false ->
     call_value None after_mermaid (Namespace m) s0 =
       (Fulfilled (DefaultExport m),
        set_initialized (fun l => m :: l) (set_trace (fun t => t ++ [Initialize m]) s0))) /\
  (forall m e s0, isInitialized m s0 = false ->
     call_value (Some (initialize_throws e)) after_mermaid (Namespace m) s0 =
       (Rejected e, set_trace (fun t => t ++ [InitializeThrew m e]) s0)) /\
  (forall m s0,
     call_value (Some no_default_export) after_mermaid (Namespace m) s0 =
       (Rejected TypeError, s0)).
Proof.
  intros ric page_links ls s.
  pose proof (inv_reachable ric page_links ls) as HInv. fold s in HInv.
  pose proof (initialize_returns_once s HInv) as Hone.
  split; [done|]. split; [rewrite initialize_calls_split; lia|].
  split; [|split; [|split; [|split]]].
  - intros m ls' Hm. apply initialized_exec_calls; [done|].
    intros Hnil. pose proof (inv_initialize_count _ HInv) as Hc. rewrite Hnil in Hc.
    apply list_elem_of_In in Hm.
    assert (Hin : In (Initialize m) (List.filter is_initialize (trace s))).
    { by apply List.filter_In. }
    destruct (List.filter is_initialize (trace s)); [done|discriminate].
  - intros x m s0 Hm Hx. simpl.
    destruct x as [[|e]|]; try done; simpl; unfold bind, get; simpl; by rewrite Hm.
  - intros m s0 Hm. simpl. unfold bind, get. simpl. by rewrite Hm.
  - intros m e s0 Hm. simpl. unfold bind, get. simpl. by rewrite Hm.
  - done.
Qed.

(** * The status report *)

(** ** Calls leave the loads that are under way as they are *)

Lemma extends_refl s : extends s s.
Proof.
  split; [done|]. split; [done|]. split; [done|]. exists [].
  split; [by rewrite app_nil_r|]. intros e H. inversion H.
Qed.

Lemma fresh_event_kept s s' e :
  (forall p x, status s p = Some x -> status s' p = Some x) ->
  fresh_event s e -> fresh_event s' e.
Proof. intros H. destruct e; simpl; try done. intros (?&?&?). auto. Qed.

Lemma extends_trans s1 s2 s3 : extends s1 s2 -> extends s2 s3 -> extends s1 s3.
Proof.
  intros (S1 & Q1 & C1 & e1 & T1 & F1) (S2 & Q2 & C2 & e2 & T2 & F2).
  split; [auto|]. split; [auto|]. split; [congruence|]. exists (e1 ++ e2).
  split; [by rewrite T2, T1, app_assoc|].
  intros e He. apply elem_of_app in He as [He|He]; [|auto].
  eapply fresh_event_kept; [exact S2|auto].
Qed.

Lemma extends_silent s s' :
  (forall p x, status s p = Some x -> status s' p = Some x) ->
  (forall r o, queued s (ReactionJob r o) -> queued s' (ReactionJob r o)) ->
  moduleCache s' = moduleCache s -> trace s' = trace s -> extends s s'.
Proof.
  intros HS HQ HC HT. split; [done|]. split; [done|]. split; [done|]. exists [].
  split; [by rewrite app_nil_r|]. intros e H. inversion H.
Qed.

Lemma status_app s s' news p x :
  heap s' = heap s ++ news -> status s p = Some x -> status s' p = Some x.
Proof.
  unfold status. intros -> H. destruct (heap s !! p) as [pr|] eqn:E; [|done].
  by rewrite (lookup_app_l_Some _ _ _ _ E).
Qed.

Lemma extends_subscribe p x s : extends s (subscribe p x s).2.
Proof.
  apply extends_silent.
  - intros q y. by rewrite subscribe_status_any.
  - intros r o Hq. destruct (subscribe_queue p x s) as [new Hn].
    unfold queued. rewrite Hn. apply elem_of_app. by left.
  - by destruct (subscribe_tables p x s).
  - apply subscribe_trace.
Qed.

Lemma extends_then p f g s : extends s (then_ p f g s).2.
Proof.
  unfold then_, bind, new_promise, ret.
  match goal with |- context [subscribe ?q ?x ?s1] =>
    pose proof (extends_subscribe q x s1) as H; destruct (subscribe q x s1) as [[] s2]
  end. simpl in *.
  eapply extends_trans; [|exact H].
  apply extends_silent; try done.
  intros q y. by eapply status_app.
Qed.

Lemma extends_lazyLoad k sp s : extends s (lazyLoad k sp s).2.
Proof.
  destruct (Map_get k (moduleCache s)) as [v|] eqn:Hc;
    [|destruct (Map_get k (loadingPromises s)) as [l|] eqn:Hl].
  - rewrite (lazyLoad_cached k sp s v Hc). simpl.
    split; [intros p x; by eapply status_app|]. split; [done|].
    split; [done|]. eexists. split; [simpl; reflexivity|].
    intros e He. apply list_elem_of_singleton in He as ->. done.
  - rewrite (lazyLoad_join k sp s l Hc Hl). simpl.
    split; [intros p x; by eapply status_app|].
    split; [intros r o Hq; unfold queued; simpl; apply elem_of_app; by left|].
    split; [done|]. eexists. split; [simpl; reflexivity|].
    intros e He. apply list_elem_of_singleton in He as ->. done.
  - rewrite (lazyLoad_start k sp s Hc Hl). simpl.
    set (n := length (heap s)).
    split; [intros p x; by eapply status_app|].
    split; [intros r o Hq; unfold queued; simpl; apply elem_of_app; by left|].
    split; [done|]. eexists. split; [simpl; reflexivity|].
    intros e He. apply elem_of_cons in He as [->|He];
      [|apply list_elem_of_singleton in He as ->; done].
    simpl. unfold status. simpl.
    rewrite (lookup_app_plus (heap s) _ 0) || rewrite list_lookup_middle by done.
    replace (n + 1) with (length (heap s) + 1) by done.
    replace (n + 2) with (length (heap s) + 2) by done.
    rewrite !lookup_app_plus. done.
Qed.

Lemma status_allocated s p : p < length (heap s) -> exists x, status s p = Some x.
Proof.
  intros Hlt. destruct (status s p) as [x|] eqn:E; [eauto|].
  apply status_None_ge in E. lia.
Qed.

(** Calls leave the stages of the invocations as they are. *)
Lemma staged_extends s s' : Chain s -> Staged s -> extends s s' -> Staged s'.
Proof.
  intros HC [HS HW] (Hst & Hq & Hc & evs & Ht & Hf).
  assert (Hold : forall k i t l, Invoked k i t l ∈ trace s ->
            status s' i = status s i /\ status s' t = status s t /\
            status s' l = status s l).
  { intros k i t l Hin. destruct (HC _ _ _ _ Hin) as (Hi & Ht' & _).
    destruct (HS _ _ _ _ Hin) as ([xl Hl] & _).
    destruct (status_allocated _ _ Hi) as [xi Hxi].
    destruct (status_allocated _ _ Ht') as [xt Hxt].
    by rewrite (Hst _ _ Hxi), (Hst _ _ Hxt), (Hst _ _ Hl), Hxi, Hxt, Hl. }
  split.
  - intros k i t l Hin. rewrite Ht in Hin. apply elem_of_app in Hin as [Hin|Hin].
    + destruct (Hold _ _ _ _ Hin) as (Ei & Et & El).
      destruct (HS _ _ _ _ Hin) as (Hal & S1 & S2 & S3 & S5 & S6).
      unfold staged. rewrite Ei, Et, El, Hc.
      split; [done|]. split; [auto|]. split; [auto|]. done.
    + apply Hf in Hin. simpl in Hin. destruct Hin as (Ei & Et & El).
      unfold staged. rewrite Ei, Et, El.
      split; [eauto|]. repeat split; intros; discriminate.
  - intros k v Hin. rewrite Ht in Hin. apply elem_of_app in Hin as [Hin|Hin].
    + destruct (HW _ _ Hin) as (i & t & l & Hinv & Hs).
      exists i, t, l. split; [rewrite Ht; apply elem_of_app; by left|].
      destruct (Hold _ _ _ _ Hinv) as (_ & Et & _). by rewrite Et.
    + by apply Hf in Hin.
Qed.

(** An in-flight entry was put there by an invocation. *)
Lemma run_loading_invoked k evs : forall st l b,
  key_run k st evs = Some (Loading l b) ->
  (exists b', st = Loading l b') \/ exists i t, Invoked k i t l ∈ evs.
Proof.
  induction evs as [|e evs IH]; intros st l b; simpl.
  - intros [= ->]. left. eauto.
  - destruct (key_step k st e) as [st1|] eqn:E; [|done]. intros H.
    destruct (IH _ _ _ H) as [[b' ->]|(i & t & Hin)];
      [|right; exists i, t; by apply elem_of_cons; right].
    destruct e as [k' i t l'|k' v|k' e'|k' r a|m|h|mth eth]; simpl in E.
    + destruct (String.eqb_spec k k') as [->|Hne]; [|injection E as ->; left; eauto].
      destruct st; try done. injection E as -> _. right. exists i, t. by left.
    + destruct (String.eqb k k'); [|injection E as ->; left; eauto].
      destruct st as [|? []|]; done.
    + destruct (String.eqb k k'); [|injection E as ->; left; eauto].
      destruct st as [|? []|]; done.
    + destruct (String.eqb k k'); [|injection E as ->; left; eauto].
      destruct st as [|l0 [|]|v0], a as [v'|l1|l1]; try done.
      * destruct (decide (l0 = l1)); [|done]. injection E as -> _. left. eauto.
      * destruct (decide (l0 = l1)); [|done]. injection E as ->. left. eauto.
      * destruct (decide (v0 = v')); done.
    + injection E as ->. left. eauto.
    + injection E as ->. left. eauto.
    + injection E as ->. left. eauto.
Qed.

Lemma loading_was_invoked s k l :
  Inv s -> Map_get k (loadingPromises s) = Some l ->
  exists i t, Invoked k i t l ∈ trace s.
Proof.
  intros HInv Hl. pose proof (inv_history _ HInv k) as Hh.
  assert (Hk : key_status k s = Loading l false).
  { unfold key_status. destruct (Map_get k (moduleCache s)) as [v|] eqn:Hc.
    - rewrite (inv_exclusive _ HInv _ _ Hc) in Hl. discriminate.
    - by rewrite Hl. }
  rewrite Hk in Hh. by destruct (run_loading_invoked _ _ _ _ _ Hh) as [[b' [=]]|?].
Qed.

(** What the handlers of lazyLoad hand on. *)
Lemma then_handler_outcome k t o s0 s1 o' :
  handled (then_loaded k t) o s0 s1 o' ->
  o' = o /\ forall v, o = Fulfilled v -> Map_get k (moduleCache s1) = Some v.
Proof.
  intros [k' v Ho Hf -> Hc _ _ _|k' e _ Hg _ _ _ _ _|m _ Hf _ _ _ _ _
         |evs Hnf _ Hpass Hc _ _ _ _]; try discriminate.
  - injection Hf as <-. split; [done|]. intros v' Hv. rewrite Hv in Ho.
    injection Ho as ->. rewrite Hc. apply Map_get_set_eq.
  - destruct o as [v|e].
    + by destruct (Hnf k v eq_refl).
    + split; [by apply Hpass|]. discriminate.
Qed.

Lemma catch_handler_outcome k l o s0 s1 o' :
  handled (catch_failed k l) o s0 s1 o' -> o' = o.
Proof.
  intros [k' v _ Hf _ _ _ _ _|k' e _ _ -> _ _ _ _|m _ Hf _ _ _ _ _
         |evs _ Hng Hpass _ _ _ _ _]; try discriminate; try done.
  destruct o as [v|e]; [by apply Hpass|]. by destruct (Hng k e eq_refl).
Qed.

(** ** A step that settles a promise *)

(** The step settles [p0] with [o0] and queues its reactions; every other
    promise and every other reaction job stays. *)
Section Settling.
Variables (s s' : state) (p0 : pid) (o0 : outcome).
Hypothesis HC : Chain s.
Hypothesis HS : Staged s.
Hypothesis Hpend : status s p0 = Some None.
Hypothesis Hstat : forall p,
  status s' p = if decide (p = p0) then Some (Some o0) else status s p.
Hypothesis Hfire : forall r1, reg s p0 r1 -> queued s' (ReactionJob r1 o0).
Hypothesis Hkeep : forall r1 o1,
  queued s (ReactionJob r1 o1) -> target r1 <> p0 -> queued s' (ReactionJob r1 o1).
Hypothesis Hcache : forall k v,
  Map_get k (moduleCache s) = Some v -> Map_get k (moduleCache s') = Some v.
Hypothesis Hback : forall k i t l, Invoked k i t l ∈ trace s' -> Invoked k i t l ∈ trace s.
Hypothesis Hsub : forall e, e ∈ trace s -> e ∈ trace s'.
Hypothesis Hthen : forall k i t l, Invoked k i t l ∈ trace s -> t = p0 ->
  status s i = Some (Some o0) /\
  forall v, o0 = Fulfilled v -> Map_get k (moduleCache s') = Some v.
Hypothesis Hcatch : forall k i t l, Invoked k i t l ∈ trace s -> l = p0 ->
  status s t = Some (Some o0).
Hypothesis Hwritten : forall k v, CacheSet k v ∈ trace s' ->
  CacheSet k v ∈ trace s \/
  exists i t l, Invoked k i t l ∈ trace s /\ t = p0 /\ o0 = Fulfilled v.

Lemma settling_settled p o : status s p = Some (Some o) -> status s' p = Some (Some o).
Proof.
  intros H. rewrite Hstat. destruct (decide (p = p0)) as [->|]; [congruence|done].
Qed.

Lemma settling_pending p : status s' p = Some None -> p <> p0 /\ status s p = Some None.
Proof.
  rewrite Hstat. destruct (decide (p = p0)) as [->|]; [done|]. by intros ->.
Qed.

Lemma settling_back p o :
  status s' p = Some (Some o) -> (p = p0 /\ o = o0) \/ (p <> p0 /\ status s p = Some (Some o)).
Proof.
  rewrite Hstat. destruct (decide (p = p0)) as [->|]; [intros [= ->]; by left|by right].
Qed.

Lemma staged_settling : Staged s'.
Proof.
  destruct HS as [HSt HW]. split.
  - intros k i t l Hin. apply Hback in Hin.
    destruct (HC _ _ _ _ Hin) as (Hi & Ht & _ & Hri & Hrt).
    destruct (HSt _ _ _ _ Hin) as ([xl Hl] & S1 & S2 & S3 & S5 & S6).
    split; [|split; [|split; [|split; [|split]]]].
    + rewrite Hstat. destruct (decide (l = p0)); eauto.
    + intros o1 Hi1 Ht1. apply settling_pending in Ht1 as [Hne Ht1].
      apply settling_back in Hi1 as [[-> ->]|[Hn Hi1]].
      * apply Hfire. by apply Hri.
      * apply Hkeep; [by apply S1|done].
    + intros o1 Ht1 Hl1. apply settling_pending in Hl1 as [Hne Hl1].
      apply settling_back in Ht1 as [[-> ->]|[Hn Ht1]].
      * apply Hfire. by apply Hrt.
      * apply Hkeep; [by apply S2|done].
    + intros o1 Ht1. apply settling_back in Ht1 as [[-> ->]|[Hn Ht1]].
      * apply settling_settled. by apply (Hthen k i p0 l).
      * apply settling_settled. by apply S3.
    + intros o1 Hl1. apply settling_back in Hl1 as [[-> ->]|[Hn Hl1]].
      * apply settling_settled. by apply (Hcatch k i t p0).
      * apply settling_settled. by apply S5.
    + intros v Ht1. apply settling_back in Ht1 as [[-> <-]|[Hn Ht1]].
      * by apply (Hthen k i p0 l).
      * apply Hcache. by apply S6.
  - intros k v Hin. apply Hwritten in Hin as [Hin|(i & t & l & Hin & -> & ->)].
    + destruct (HW _ _ Hin) as (i & t & l & Hinv & Hs).
      exists i, t, l. split; [by apply Hsub|by apply settling_settled].
    + exists i, p0, l. split; [by apply Hsub|]. rewrite Hstat. by rewrite decide_True.
Qed.
End Settling.

Lemma chain_then_target s k i t l :
  Chain s -> Staged s -> Invoked k i t l ∈ trace s -> status s t = Some None ->
  t ∈ targets s.
Proof.
  intros HC [HS _] Hin Ht. destruct (HC _ _ _ _ Hin) as (Hi & _ & _ & Hri & _).
  destruct (HS _ _ _ _ Hin) as (_ & S1 & _).
  apply elem_of_targets.
  destruct (status_allocated _ _ Hi) as [[o|] Hx].
  - right. exists (ReactionJob (then_loaded k t) o). split; [by apply S1|done].
  - left. exists i, (then_loaded k t). split; [by apply Hri|done].
Qed.

Lemma chain_load_target s k i t l :
  Chain s -> Staged s -> Invoked k i t l ∈ trace s -> status s l = Some None ->
  l ∈ targets s.
Proof.
  intros HC [HS _] Hin Hl. destruct (HC _ _ _ _ Hin) as (_ & Ht & _ & _ & Hrt).
  destruct (HS _ _ _ _ Hin) as (_ & _ & S2 & _).
  apply elem_of_targets.
  destruct (status_allocated _ _ Ht) as [[o|] Hx].
  - right. exists (ReactionJob (catch_failed k l) o). split; [by apply S2|done].
  - left. exists t, (catch_failed k l). split; [by apply Hrt|done].
Qed.

(** The module loader settles an import. *)
Lemma staged_host_settle s i0 o0 :
  Sound s -> Staged s -> Staged (host_settle i0 o0 s).2.
Proof.
  intros (HInv & _ & HC) HS. unfold host_settle, bind, get. simpl.
  destruct (bool_decide_reflect (i0 ∈ imports s)) as [Hi0|]; [|done].
  destruct (status s i0) as [[o|]|] eqn:E.
  - rewrite settle_not_pending; [done|congruence].
  - pose proof E as E'. apply status_pending in E' as [rs Hrs].
    destruct (inv_imports _ HInv _ Hi0) as [_ Hnt].
    destruct (settle_tables i0 o0 s) as [HT Htr].
    apply (staged_settling s _ i0 o0); try done.
    + apply (settle_status _ _ _ rs Hrs).
    + intros r1 Hr1. apply (settle_queued _ _ _ rs Hrs). right. eauto.
    + intros r1 o1 Hq _. apply (settle_queued _ _ _ rs Hrs). by left.
    + intros k v. change (moduleCache (settle i0 o0 s).2)
        with (t_cache (tables_of (settle i0 o0 s).2)). by rewrite HT.
    + intros k i t l. by rewrite Htr.
    + intros e. by rewrite Htr.
    + intros k i t l Hin ->. destruct Hnt. by apply (chain_then_target s k i _ l).
    + intros k i t l Hin ->. destruct Hnt. by apply (chain_load_target s k i t).
    + intros k v. rewrite Htr. by left.
  - rewrite settle_not_pending; [done|congruence].
Qed.

(** ** The jobs of the handlers *)

(** The job at the head of the queue that settles the promise of a then or
    catch handler of lazyLoad is the job of that handler. *)
Lemma head_is_then s k i t l r o q :
  Inv s -> Chain s -> Staged s -> Invoked k i t l ∈ trace s ->
  microtasks s = ReactionJob r o :: q -> t = target r ->
  r = then_loaded k t /\ status s i = Some (Some o).
Proof.
  intros HInv HC [HS _] Hin Hq ->.
  destruct (HC _ _ _ _ Hin) as (Hi & _ & _ & Hri & _).
  destruct (HS _ _ _ _ Hin) as (_ & S1 & _).
  pose proof (rs_head_queued s r o q Hq) as Hhead.
  assert (Hpend : status s (target r) = Some None).
  { apply (inv_pending _ HInv). apply (head_target _ _ _ Hq). }
  destruct (status_allocated _ _ Hi) as [[oi|] Hx].
  - pose proof (S1 _ Hx Hpend) as Hj.
    pose proof (queued_inj s _ _ (inv_nodup _ HInv) Hj Hhead eq_refl) as [= <- <-].
    done.
  - exfalso. apply (reg_queued_apart s i (then_loaded k (target r)) (ReactionJob r o));
      [apply HInv|by apply Hri|done|done].
Qed.

Lemma head_is_catch s k i t l r o q :
  Inv s -> Chain s -> Staged s -> Invoked k i t l ∈ trace s ->
  microtasks s = ReactionJob r o :: q -> l = target r ->
  r = catch_failed k l /\ status s t = Some (Some o).
Proof.
  intros HInv HC [HS _] Hin Hq ->.
  destruct (HC _ _ _ _ Hin) as (_ & Ht & _ & _ & Hrt).
  destruct (HS _ _ _ _ Hin) as (_ & _ & S2 & _).
  pose proof (rs_head_queued s r o q Hq) as Hhead.
  assert (Hpend : status s (target r) = Some None).
  { apply (inv_pending _ HInv). apply (head_target _ _ _ Hq). }
  destruct (status_allocated _ _ Ht) as [[ot|] Hx].
  - pose proof (S2 _ Hx Hpend) as Hj.
    pose proof (queued_inj s _ _ (inv_nodup _ HInv) Hj Hhead eq_refl) as [= <- <-].
    done.
  - exfalso. apply (reg_queued_apart s t (catch_failed k (target r)) (ReactionJob r o));
      [apply HInv|by apply Hrt|done|done].
Qed.

(** The then handler of lazyLoad that is about to run belongs to the
    invocation that made the in-flight entry of its key. *)
Lemma head_then_invoked s k v r q :
  Inv s -> Chain s -> Staged s ->
  microtasks s = ReactionJob r (Fulfilled v) :: q ->
  on_fulfilled r = Some (on_loaded k) ->
  exists i l, Invoked k i (target r) l ∈ trace s.
Proof.
  intros HInv HC HS Hq Hf. pose proof HS as [HSt _].
  pose proof (rs_head_queued s r _ q Hq) as Hhead.
  destruct (inv_then _ HInv r k) as (_ & l & Hreg); [right; eauto|done|].
  destruct (inv_catch_reg _ HInv _ _ k Hreg eq_refl) as (_ & Hl & _). simpl in Hl.
  destruct (loading_was_invoked s k l HInv Hl) as (i & t & Hin).
  exists i, l. replace (target r) with t; [done|].
  destruct (HC _ _ _ _ Hin) as (_ & Ht & _ & _ & Hrt).
  destruct (HSt _ _ _ _ Hin) as (_ & _ & S2 & _).
  assert (Hlp : status s l = Some None).
  { apply (inv_pending _ HInv). apply elem_of_targets. left.
    by exists (target r), (catch_failed k l). }
  destruct (status_allocated _ _ Ht) as [[ot|] Hx].
  - exfalso. pose proof (S2 _ Hx Hlp) as Hj.
    by apply (reg_queued_apart s _ _ _ (inv_nodup _ HInv) Hreg Hj).
  - by apply (reg_inj s t (target r) (catch_failed k l) (catch_failed k l));
      [apply HInv|apply Hrt|done|done].
Qed.

Lemma staged_run_microtask x s : Sound s -> Staged s -> Staged (run_microtask x s).
Proof.
  intros (HInv & _ & HC) HS.
  destruct (run_microtask_events x s) as (evs & Htr & Hev).
  assert (Hno : forall k i t l, Invoked k i t l ∈ trace (run_microtask x s) ->
                                Invoked k i t l ∈ trace s).
  { intros k i t l. rewrite Htr. intros Hin. apply elem_of_app in Hin as [Hin|Hin]; [done|].
    rewrite forallb_forall in Hev. apply list_elem_of_In, Hev in Hin. done. }
  assert (Hsub : forall e, e ∈ trace s -> e ∈ trace (run_microtask x s)).
  { intros e He. rewrite Htr. apply elem_of_app. by left. }
  destruct (microtasks s) as [|[r o|a b] q] eqn:Hq.
  - simpl. by rewrite Hq.
  - revert Hno Hsub. rewrite (step_reaction x s r o q Hq).
    set (s0 := set_microtasks (fun _ => q) s). set (h := handle x r o s0).
    intros Hno Hsub.
    pose proof (rs_handled x s r o q) as Hh. fold s0 h in Hh.
    destruct (rs_tables x s r o q HInv Hq) as (Hc & _ & Ht & _). fold s0 h in Hc, Ht.
    apply (staged_settling s _ (target r) h.1); try done.
    + apply (inv_pending _ HInv). apply (head_target _ _ _ Hq).
    + apply (rs_status x s r o q HInv Hq).
    + intros r1 Hr1. apply (rs_queued x s r o q HInv Hq). right. eauto.
    + intros r1 o1 Hj Hne. apply (rs_queued x s r o q HInv Hq). left.
      unfold queued in Hj. rewrite Hq in Hj.
      apply elem_of_cons in Hj as [[= -> ->]|Hj]; done.
    + apply (rs_cache_kept x s r o q HInv Hq).
    + intros k i t l Hin Ht0.
      destruct (head_is_then s k i t l r o q HInv HC HS Hin Hq Ht0) as [-> Hi].
      destruct (then_handler_outcome _ _ _ _ _ _ Hh) as [Ho Hcv].
      split; [by rewrite Ho|]. intros v Hv. rewrite Ho in Hv.
      rewrite <- (Hcv v Hv). f_equal. exact Hc.
    + intros k i t l Hin Hl0.
      destruct (head_is_catch s k i t l r o q HInv HC HS Hin Hq Hl0) as [-> Hst].
      by rewrite (catch_handler_outcome _ _ _ _ _ _ Hh).
    + intros k v. rewrite Ht.
      destruct Hh as [k' v' Ho Hf Ho' _ _ Hev' _|k' e _ _ _ _ _ Hev' _
                     |m _ _ _ _ _ Hev' _|evs' _ _ _ _ _ Hev' Hqt _];
        rewrite Hev'; intros Hin; apply elem_of_app in Hin as [Hin|Hin]; try (by left).
      * apply list_elem_of_singleton in Hin as [= -> ->]. right.
        rewrite Ho in Hq.
        destruct (head_then_invoked s k' v' r q HInv HC HS Hq Hf) as (i & l & Hin).
        exists i, (target r), l. by rewrite Ho', Ho.
      * apply list_elem_of_singleton in Hin. discriminate.
      * apply list_elem_of_singleton in Hin. discriminate.
      * rewrite Forall_forall in Hqt. by apply Hqt in Hin.
  - apply (staged_extends s); [done|done|]. simpl. rewrite Hq. simpl.
    eapply extends_trans; [|apply extends_subscribe].
    apply extends_silent; try done.
    intros r o Hj. unfold queued in *. simpl. rewrite Hq in Hj.
    apply elem_of_cons in Hj as [[=]|Hj]; done.
Qed.

Lemma staged_step l s : Sound s -> Staged s -> Staged (step l s).
Proof.
  intros HSo HS. pose proof HSo as (_ & _ & HC).
  assert (Hidle : forall f s0, extends s0 (set_idleCallbacks f s0)).
  { intros f s0. by apply extends_silent. }
  destruct l as [| | | |modules|n|i m|i e| |x]; cbn [step];
    try (by apply staged_run_microtask); try (by apply staged_host_settle);
    apply (staged_extends s); try done;
    try (apply (R_load extends extends_trans extends_then extends_lazyLoad)).
  - unfold preloadInBackground, bind, get. simpl.
    destruct (hasRequestIdleCallback s); [apply Hidle|apply extends_refl].
  - destruct (idleCallbacks s !! n); [|apply extends_refl].
    eapply extends_trans; [apply Hidle|].
    apply (R_preload_each extends extends_refl extends_trans extends_then extends_lazyLoad).
Qed.

Lemma staged_reachable ric page_links ls : Staged (exec ls (init ric page_links)).
Proof.
  induction ls as [|l ls IH] using rev_ind.
  - split; [intros k i t l H|intros k v H]; inversion H.
  - rewrite exec_app. apply staged_step; [apply sound_reachable|done].
Qed.

(** ** The lists against the promises *)

Lemma loading_is_pending s k l :
  Inv s -> Map_get k (loadingPromises s) = Some l -> status s l = Some None.
Proof.
  intros HInv Hl. destruct (inv_loading _ HInv _ _ Hl) as (r & Hlive & Ht & _).
  apply (inv_pending _ HInv). rewrite <- Ht. by apply live_target.
Qed.

(** The in-flight entry of an invocation is there until its then handler
    has fulfilled [t] or its catch handler has rejected [l]. *)
Lemma staged_loading s k i t l :
  Sound s -> Staged s -> Invoked k i t l ∈ trace s ->
  status s l = Some None -> (forall v, status s t <> Some (Some (Fulfilled v))) ->
  Map_get k (loadingPromises s) = Some l.
Proof.
  intros (HInv & _ & HC) [HS _] Hin Hl Ht.
  destruct (HC _ _ _ _ Hin) as (_ & Hta & _ & _ & Hrt).
  destruct (HS _ _ _ _ Hin) as (_ & _ & S2 & _).
  destruct (status_allocated _ _ Hta) as [[[v|e]|] Hx].
  - by destruct (Ht v).
  - by destruct (inv_catch_job _ HInv _ _ k (S2 _ Hx Hl) eq_refl) as [_ H].
  - by destruct (inv_catch_reg _ HInv _ _ k (Hrt Hx) eq_refl) as (_ & H & _).
Qed.

(** C5, the claim as it stands fails.  With the import fulfilled the key is
    still listed under [loading], and not under [loaded]: the then handler
    has yet to run.  Once it has run the key is listed under [loaded] and no
    longer under [loading], while the load promise, which the callers wait
    for, is still pending. *)
Lemma C5_status_lags_the_promises :
  let a := exec import_fulfilled (init false []) in
  let b := exec load_succeeds (init false []) in
  invocations "mermaid" (trace a) = [2] /\
  status a 0 = Some (Some (Fulfilled (Namespace 7))) /\
  getLoadingStatus a = {| loaded := []; loading := ["mermaid"] |} /\
  invocations "mermaid" (trace b) = [2] /\
  status b 2 = Some None /\
  getLoadingStatus b = {| loaded := ["mermaid"]; loading := [] |}.
Proof. vm_compute. done. Qed.

(** C5: [getLoadingStatus] follows the handlers of lazyLoad, not the
    settling of the promises.  A key is listed under [loading] exactly when
    one of its invocations has its load promise pending and the promise of
    its then handler not fulfilled, under [loaded] exactly when the then
    handler of one of its invocations has fulfilled its promise, and never
    under both.  For every invocation: its first promise is the one the
    module loader settles; while that import is pending the key has the
    in-flight entry of the load and is not loaded; a load promise
    settles with the outcome of the then handler and of the import, and
    once it has settled its entry is gone; once it is fulfilled the value is
    cached and the key is not listed as loading.  A promise in the in-flight
    table is pending and is the load promise of an invocation.  The two
    lists hold the keys of the cache and of the in-flight table. *)
Theorem C5_loading_status_follows_the_handlers : forall ric page_links ls k,
  let s := exec ls (init ric page_links) in
  let st := getLoadingStatus s in
  (k ∈ loading st <->
     exists i t l, Invoked k i t l ∈ trace s /\ status s l = Some None /\
                   forall v, status s t <> Some (Some (Fulfilled v))) /\
  (k ∈ loaded st <->
     exists i t l v, Invoked k i t l ∈ trace s /\
                     status s t = Some (Some (Fulfilled v))) /\
  ~ (k ∈ loading st /\ k ∈ loaded st) /\
  (forall i t l, Invoked k i t l ∈ trace s ->
     i ∈ imports s /\
     (status s i = Some None ->
        Map_get k (loadingPromises s) = Some l /\ k ∉ loaded st) /\
     (forall o, status s l = Some (Some o) ->
        status s t = Some (Some o) /\ status s i = Some (Some o) /\
        Map_get k (loadingPromises s) <> Some l) /\
     (forall v, status s l = Some (Some (Fulfilled v)) ->
        Map_get k (moduleCache s) = Some v /\ k ∉ loading st)) /\
  (forall l, Map_get k (loadingPromises s) = Some l ->
     status s l = Some None /\ exists i t, Invoked k i t l ∈ trace s) /\
  (k ∈ loaded st <-> exists v, Map_get k (moduleCache s) = Some v) /\
  (k ∈ loading st <-> exists l, Map_get k (loadingPromises s) = Some l).
Proof.
  intros ric page_links ls k s st.
  pose proof (sound_reachable ric page_links ls) as HSo. fold s in HSo.
  pose proof (staged_reachable ric page_links ls) as HSt. fold s in HSt.
  pose proof HSo as (HInv & _ & HC). pose proof HSt as [HS HW].
  pose proof (inv_history _ HInv k) as Hh.
  assert (Hkc : k ∈ loaded st <-> exists v, Map_get k (moduleCache s) = Some v).
  { simpl. rewrite Map_keys_get.
    destruct (Map_get k (moduleCache s)); split; try done; eauto. by intros [? ?]. }
  assert (Hkl : k ∈ loading st <-> exists l, Map_get k (loadingPromises s) = Some l).
  { simpl. rewrite Map_keys_get.
    destruct (Map_get k (loadingPromises s)); split; try done; eauto. by intros [? ?]. }
  assert (Hfull : forall i t l v, Invoked k i t l ∈ trace s ->
            status s t = Some (Some (Fulfilled v)) ->
            Map_get k (moduleCache s) = Some v).
  { intros i t l v Hin Ht. destruct (HS _ _ _ _ Hin) as (_ & _ & _ & _ & _ & S6). auto. }
  assert (Hex : ~ (k ∈ loading st /\ k ∈ loaded st)).
  { rewrite Hkc, Hkl. intros [[l Hl] [v Hv]].
    rewrite (inv_exclusive _ HInv _ _ Hv) in Hl. discriminate. }
  split; [|split; [|split; [done|split; [|split; [|done]]]]].
  - rewrite Hkl. split.
    + intros [l Hl]. destruct (loading_was_invoked s k l HInv Hl) as (i & t & Hin).
      exists i, t, l. split; [done|]. split; [by apply (loading_is_pending s k)|].
      intros v Hv. apply (Hfull i t l v Hin) in Hv.
      rewrite (inv_exclusive _ HInv _ _ Hv) in Hl. discriminate.
    + intros (i & t & l & Hin & Hl & Ht). exists l. by apply (staged_loading s k i t).
  - rewrite Hkc. split.
    + intros [v Hv]. apply key_status_Loaded in Hv.
      apply (run_cache_set k _ _ _ Hh eq_refl) in Hv.
      destruct (HW _ _ Hv) as (i & t & l & Hin & Ht). eauto 6.
    + intros (i & t & l & v & Hin & Ht). eauto.
  - intros i t l Hin.
    destruct (HC _ _ _ _ Hin) as (_ & Hta & Himp & _ & Hrt).
    destruct (HS _ _ _ _ Hin) as (_ & S1 & S2 & S3 & S5 & S6).
    split; [done|]. split; [|split].
    + intros Hi.
      assert (Ht : status s t = Some None).
      { destruct (status_allocated _ _ Hta) as [[o|] Hx]; [|done].
        rewrite (S3 _ Hx) in Hi. discriminate. }
      destruct (inv_catch_reg _ HInv _ _ k (Hrt Ht) eq_refl) as (_ & Hl & _).
      simpl in Hl. split; [done|]. intros Hc. apply Hex. split; [|done].
      apply Hkl. eauto.
    + intros o Hl. split; [auto|]. split; [auto|].
      intros Hl'. apply (loading_is_pending s k l HInv) in Hl'. congruence.
    + intros v Hl. pose proof (S6 _ (S5 _ Hl)) as Hc. split; [done|].
      intros Hin'. apply Hex. split; [done|]. apply Hkc. eauto.
  - intros l Hl. split; [by apply (loading_is_pending s k)|].
    by apply loading_was_invoked.
Qed.
